(** * parse_lessons.py: a shallow embedding and its verified properties

    The program turns the text extraction of a language text book into a
    nested document (lessons, appendices, lists, core dictionary).  This
    file embeds its functions one by one, in the order of the source, and
    then proves the properties stated about them.

    Python strings are sequences of Unicode code points, so a string is a
    list of code points here; a list of lines is a list of strings; the
    table of contents, a dict used as a map, is a [gmap]. *)

From Stdlib Require Import NArith ZArith Strings.String Strings.Ascii Lia.
From stdpp Require Import base option list gmap sorting.

Local Open Scope nat_scope.

(** * Python strings *)

Abbreviation char := N.
Abbreviation pystr := (list N).

(** String literals of this file are written as UTF-8 text and decoded to
    code points by [u]. *)

Fixpoint utf8_decode (bs : list N) : pystr :=
  let cont (b : N) : N := N.land b 0x3F in
  match bs with
  | [] => []
  | b :: rest =>
    if (b <? 0x80)%N then b :: utf8_decode rest
    else if (b <? 0xE0)%N then
      match rest with
      | b1 :: rest1 =>
        (N.shiftl (N.land b 0x1F) 6 + cont b1)%N :: utf8_decode rest1
      | _ => []
      end
    else if (b <? 0xF0)%N then
      match rest with
      | b1 :: b2 :: rest2 =>
        (N.shiftl (N.land b 0x0F) 12 + N.shiftl (cont b1) 6 + cont b2)%N
          :: utf8_decode rest2
      | _ => []
      end
    else
      match rest with
      | b1 :: b2 :: b3 :: rest3 =>
        (N.shiftl (N.land b 0x07) 18 + N.shiftl (cont b1) 12
           + N.shiftl (cont b2) 6 + cont b3)%N :: utf8_decode rest3
      | _ => []
      end
  end.

Fixpoint bytes_of_string (s : string) : list N :=
  match s with
  | EmptyString => []
  | String a s' => N_of_ascii a :: bytes_of_string s'
  end.

Definition u (s : string) : pystr := utf8_decode (bytes_of_string s).

(** The single code point of a one-character literal. *)
Definition ch (s : string) : char := hd 0%N (u s).

Definition str_eqb (s t : pystr) : bool := bool_decide (s = t).

(** ** The character database of the Python runtime

    [str.isspace], used by [strip], [split] and the pattern [\s], is a
    short fixed table.  The other character properties the program
    consults (decimal digits, alphanumerics, case mappings) belong to the
    Unicode database the interpreter was built with, and the digit limit
    of [int] is a setting of the interpreter; the embedding takes them as
    a parameter, so that every theorem holds whatever they are. *)

Definition isspace (c : char) : bool :=
  ((0x09 <=? c) && (c <=? 0x0D) || (0x1C <=? c) && (c <=? 0x20)
   || (c =? 0x85) || (c =? 0xA0) || (c =? 0x1680)
   || (0x2000 <=? c) && (c <=? 0x200A)
   || (c =? 0x2028) || (c =? 0x2029) || (c =? 0x202F)
   || (c =? 0x205F) || (c =? 0x3000))%N.

Class Runtime := {
  (** digit value of the characters of category Nd ([\d], [int]) *)
  uni_decimal : char → option N;
  (** [str.isdigit] on one character *)
  uni_isdigit : char → bool;
  (** [str.isalnum] on one character (word characters of [\b]) *)
  uni_isalnum : char → bool;
  (** simple one-to-one case mappings, used by [re.IGNORECASE] *)
  uni_tolower : char → char;
  uni_toupper : char → char;
  (** further case variants of a lower-case character known to [re] *)
  uni_extra_cases : char → list char;
  (** [str.lower] *)
  str_lower : pystr → pystr;
  (** [sys.get_int_max_str_digits()]; 0 switches the limit off *)
  int_max_str_digits : nat
}.

(** ** String methods *)

Fixpoint drop_while {A} (p : A → bool) (l : list A) : list A :=
  match l with
  | [] => []
  | x :: l' => if p x then drop_while p l' else l
  end.

Fixpoint take_while {A} (p : A → bool) (l : list A) : list A :=
  match l with
  | [] => []
  | x :: l' => if p x then x :: take_while p l' else []
  end.

Definition mem (c : char) (cs : pystr) : bool := bool_decide (c ∈ cs).

(** [s.lstrip()], [s.rstrip()], [s.strip()] *)
Definition lstrip (s : pystr) : pystr := drop_while isspace s.
Definition rstrip (s : pystr) : pystr := rev (drop_while isspace (rev s)).
Definition strip (s : pystr) : pystr := rstrip (lstrip s).

(** [s.rstrip(chars)] *)
Definition rstrip_chars (chars s : pystr) : pystr :=
  rev (drop_while (λ c, mem c chars) (rev s)).

(** [s.split()]: the maximal runs of non-blank characters; [tok] is the
    run being read. *)
Fixpoint split_acc (tok s : pystr) : list pystr :=
  match s with
  | [] => match tok with [] => [] | _ => [tok] end
  | c :: s' =>
    if isspace c
    then match tok with [] => split_acc [] s' | _ => tok :: split_acc [] s' end
    else split_acc (tok ++ [c]) s'
  end.
Definition split (s : pystr) : list pystr := split_acc [] s.

Fixpoint startswith (s p : pystr) : bool :=
  match p, s with
  | [], _ => true
  | a :: p', b :: s' => (a =? b)%N && startswith s' p'
  | _ :: _, [] => false
  end.

Definition endswith (s p : pystr) : bool := startswith (rev s) (rev p).

(** [p in s] *)
Fixpoint contains (s p : pystr) : bool :=
  startswith s p || match s with [] => false | _ :: s' => contains s' p end.

(** [s.replace(old, new)] for a non-empty [old]; [skip] counts the
    characters of a replaced occurrence still to be passed over. *)
Fixpoint replace_from (old new : pystr) (skip : nat) (s : pystr) : pystr :=
  match s with
  | [] => []
  | c :: s' =>
    match skip with
    | S n => replace_from old new n s'
    | 0 =>
      if startswith s old
      then new ++ replace_from old new (pred (length old)) s'
      else c :: replace_from old new 0 s'
    end
  end.
Definition replace (old new s : pystr) : pystr := replace_from old new 0 s.

(** [sep.join(parts)] *)
Fixpoint join (sep : pystr) (parts : list pystr) : pystr :=
  match parts with
  | [] => []
  | [p] => p
  | p :: ps => p ++ sep ++ join sep ps
  end.

(** [s[a:b]] for indices within range. *)
Definition slice {A} (a b : nat) (l : list A) : list A := take (b - a) (drop a l).

(** * Regular expressions

    The patterns of the program are kept as syntax trees and run by a
    backtracking matcher with the priorities of Python's [re]: a greedy
    repetition tries one more round before it tries to stop, a lazy one
    the other way round, and an alternation tries its branches from left
    to right.  The first complete match found is the match. *)

Inductive cset_item :=
| CChar (c : char)             (* a character *)
| CRange (lo hi : char)        (* lo-hi *)
| CSpace                       (* \s *)
| CDigit.                      (* \d *)

Inductive regex :=
| Eps
| Lit (c : char)
| AnyChar                                  (* .   (not a newline) *)
| In (items : list cset_item)              (* [...] *)
| NotIn (items : list cset_item)           (* [^...] *)
| Cat (r1 r2 : regex)
| Alt (r1 r2 : regex)
| Rep (lo : nat) (hi : option nat) (greedy : bool) (r : regex)
| Grp (n : nat) (r : regex)                (* the n-th capturing group *)
| Bos                                      (* ^ *)
| Eos                                      (* $ *)
| WordB.                                   (* \b *)

Declare Scope regex_scope.
Delimit Scope regex_scope with re.
Bind Scope regex_scope with regex.
Infix "⋅" := Cat (at level 40, left associativity) : regex_scope.
Infix "|||" := Alt (at level 50, left associativity) : regex_scope.

Definition Star (r : regex) : regex := Rep 0 None true r.
Definition Plus (r : regex) : regex := Rep 1 None true r.
Definition Opt (r : regex) : regex := Rep 0 (Some 1) true r.

(** A literal word, and the characters of a literal as set items. *)
Definition lit (s : string) : regex := foldr (λ c r, Cat (Lit c) r) Eps (u s).
Definition chars (s : string) : list cset_item := CChar <$> u s.
Definition rng (a b : string) : cset_item := CRange (ch a) (ch b).
Definition alts (rs : list regex) : regex :=
  match rs with
  | [] => Eps
  | r :: rs' => foldl Alt r rs'
  end.

(** The cursor of the matcher: the position, the character before it and
    the rest of the subject. *)
Record cursor := Cursor { c_pos : nat; c_prev : option char; c_rest : pystr }.

Definition start_of (s : pystr) : cursor := Cursor 0 None s.

Definition advance (cur : cursor) : option (char * cursor) :=
  match c_rest cur with
  | [] => None
  | c :: rest => Some (c, Cursor (S (c_pos cur)) (Some c) rest)
  end.

(** Group spans, the latest first. *)
Abbreviation captures := (list (nat * (nat * nat))).

(** The continuation of a match. *)
Abbreviation conts := (cursor → captures → option (cursor * captures)).

Section Matcher.
Context {rt : Runtime}.

Definition is_decimal (c : char) : bool := bool_decide (is_Some (uni_decimal c)).
Definition is_word (c : char) : bool := uni_isalnum c || (c =? ch "_")%N.
Definition iscased (c : char) : bool :=
  negb (c =? uni_tolower c)%N || negb (c =? uni_toupper c)%N.

Definition item_has (it : cset_item) (c : char) : bool :=
  match it with
  | CChar x => (c =? x)%N
  | CRange lo hi => (lo <=? c)%N && (c <=? hi)%N
  | CSpace => isspace c
  | CDigit => is_decimal c
  end.

(** The characters [lo], [lo+1], ... of a range. *)
Definition range_chars (lo hi : char) : list char :=
  (λ i, (lo + N.of_nat i)%N) <$> seq 0 (N.to_nat (hi + 1 - lo)).

(** Under [re.IGNORECASE] a literal that has case stands for its
    lower-case form and the further variants, and the subject character is
    lowered before the comparison. *)
Definition lowered (x : char) : list char :=
  uni_tolower x :: uni_extra_cases (uni_tolower x).

Definition lit_has (ic : bool) (x c : char) : bool :=
  if ic && iscased x then mem (uni_tolower c) (lowered x) else (c =? x)%N.

Definition item_cased (it : cset_item) : bool :=
  match it with
  | CChar x => iscased x
  | CRange lo hi => existsb iscased (range_chars lo hi)
  | _ => false
  end.

Definition item_has_ic (it : cset_item) (c : char) : bool :=
  match it with
  | CChar x => mem c (lowered x)
  | CRange lo hi => existsb (λ x, mem c (lowered x)) (range_chars lo hi)
  | _ => item_has it c
  end.

Definition set_has (ic : bool) (items : list cset_item) (c : char) : bool :=
  if ic && existsb item_cased items
  then existsb (λ it, item_has_ic it (uni_tolower c)) items
  else existsb (λ it, item_has it c) items.

Definition at_eos (cur : cursor) : bool :=
  match c_rest cur with
  | [] => true
  | [c] => (c =? 10)%N
  | _ => false
  end.

Definition at_boundary (cur : cursor) : bool :=
  let before := match c_prev cur with Some c => is_word c | None => false end in
  let after := match c_rest cur with c :: _ => is_word c | [] => false end in
  negb (eqb before after).

Definition one (p : char → bool) (cur : cursor) (gs : captures)
    (k : cursor → captures → option (cursor * captures))
    : option (cursor * captures) :=
  match advance cur with
  | Some (c, cur') => if p c then k cur' gs else None
  | None => None
  end.

Definition below (n : nat) (hi : option nat) : bool :=
  match hi with Some h => n <? h | None => true end.

(** The rounds of a repetition of [body], [n] of them done: a greedy one
    tries one more round before it tries to stop, a lazy one stops when it
    can.  It runs at most [fuel] rounds. *)
Fixpoint rounds
    (body : cursor → captures → (cursor → captures → option (cursor * captures))
            → option (cursor * captures))
    (lo : nat) (hi : option nat) (greedy : bool)
    (k : cursor → captures → option (cursor * captures))
    (fuel n : nat) (cur : cursor) (gs : captures) {struct fuel}
    : option (cursor * captures) :=
  let more (_ : unit) :=
    match fuel with
    | S fuel' =>
      if below n hi
      then body cur gs (λ cur' gs', rounds body lo hi greedy k fuel' (S n) cur' gs')
      else None
    | 0 => None
    end in
  let stop (_ : unit) := if lo <=? n then k cur gs else None in
  if greedy
  then match more () with Some res => Some res | None => stop () end
  else match stop () with Some res => Some res | None => more () end.

(** [exec ic r cur gs k]: match [r] at [cur], then go on with [k]; [None]
    makes the caller try its next choice.  A repetition runs at most as
    many rounds as characters are left, every repeated pattern of this
    program taking at least one character per round. *)
Fixpoint exec (ic : bool) (r : regex) (cur : cursor) (gs : captures)
    (k : cursor → captures → option (cursor * captures))
    : option (cursor * captures) :=
  match r with
  | Eps => k cur gs
  | Lit x => one (lit_has ic x) cur gs k
  | AnyChar => one (λ c, negb (c =? 10)%N) cur gs k
  | In items => one (set_has ic items) cur gs k
  | NotIn items => one (λ c, negb (set_has ic items c)) cur gs k
  | Cat r1 r2 => exec ic r1 cur gs (λ cur' gs', exec ic r2 cur' gs' k)
  | Alt r1 r2 =>
    match exec ic r1 cur gs k with
    | Some res => Some res
    | None => exec ic r2 cur gs k
    end
  | Rep lo hi greedy r1 =>
    rounds (exec ic r1) lo hi greedy k (length (c_rest cur)) 0 cur gs
  | Grp n r1 =>
    exec ic r1 cur gs (λ cur' gs', k cur' ((n, (c_pos cur, c_pos cur')) :: gs'))
  | Bos => if c_pos cur =? 0 then k cur gs else None
  | Eos => if at_eos cur then k cur gs else None
  | WordB => if at_boundary cur then k cur gs else None
  end.

(** A match object: the subject, the span of the match, the groups. *)
Record rmatch := RMatch {
  m_subject : pystr; m_start : nat; m_end : nat; m_groups : captures }.

Fixpoint span_of (gs : captures) (n : nat) : option (nat * nat) :=
  match gs with
  | [] => None
  | (m, sp) :: gs' => if m =? n then Some sp else span_of gs' n
  end.

(** [m.group(n)]; every group the program reads lies outside the optional
    parts of its pattern. *)
Definition group (m : rmatch) (n : nat) : pystr :=
  match n with
  | 0 => slice (m_start m) (m_end m) (m_subject m)
  | _ => match span_of (m_groups m) n with
         | Some (a, b) => slice a b (m_subject m)
         | None => []
         end
  end.

Definition match_at (ic : bool) (r : regex) (s : pystr) (cur : cursor)
    : option rmatch :=
  match exec ic r cur [] (λ cur' gs, Some (cur', gs)) with
  | Some (cur', gs) => Some (RMatch s (c_pos cur) (c_pos cur') gs)
  | None => None
  end.

(** [re.match(r, s)] *)
Definition re_match (ic : bool) (r : regex) (s : pystr) : option rmatch :=
  match_at ic r s (start_of s).

(** [re.search(r, s)]: the match at the leftmost position that has one. *)
Fixpoint search_from (ic : bool) (r : regex) (s : pystr) (fuel : nat)
    (cur : cursor) : option rmatch :=
  match match_at ic r s cur with
  | Some m => Some m
  | None =>
    match fuel, advance cur with
    | S fuel', Some (_, cur') => search_from ic r s fuel' cur'
    | _, _ => None
    end
  end.
Definition re_search (ic : bool) (r : regex) (s : pystr) : option rmatch :=
  search_from ic r s (length s) (start_of s).

(** [re.sub(r, repl, s)] for a literal replacement and a pattern that
    matches no empty string: the matches are replaced from left to
    right, the search going on where the last match ended. *)
Fixpoint sub_from (ic : bool) (r : regex) (repl : pystr) (fuel : nat)
    (cur : cursor) : pystr :=
  match fuel with
  | 0 => c_rest cur
  | S fuel' =>
    let copy (_ : unit) :=
      match advance cur with
      | Some (c, cur1) => c :: sub_from ic r repl fuel' cur1
      | None => []
      end in
    match exec ic r cur [] (λ cur' gs, Some (cur', gs)) with
    | Some (cur', _) =>
      if c_pos cur <? c_pos cur'
      then repl ++ sub_from ic r repl fuel' cur'
      else copy ()
    | None => copy ()
    end
  end.
Definition re_sub (ic : bool) (r : regex) (repl s : pystr) : pystr :=
  sub_from ic r repl (S (length s)) (start_of s).

Definition matches (ic : bool) (r : regex) (s : pystr) : bool :=
  bool_decide (is_Some (re_match ic r s)).
Definition found (ic : bool) (r : regex) (s : pystr) : bool :=
  bool_decide (is_Some (re_search ic r s)).

End Matcher.

(** * Exceptions

    [int] raises [ValueError] on a string that is no number, and indexing
    an empty list raises [IndexError]; a function that can raise returns a
    [result]. *)

Inductive exn := ValueError | IndexError.

Inductive result (A : Type) :=
| Ok (a : A)
| Raise (e : exn).
Arguments Ok {A} a.
Arguments Raise {A} e.

#[global] Instance exn_eq_dec : EqDecision exn.
Proof. solve_decision. Defined.
#[global] Instance result_eq_dec {A} `{EqDecision A} : EqDecision (result A).
Proof. solve_decision. Defined.

#[global] Instance result_ret : MRet result := λ A a, Ok a.
#[global] Instance result_bind : MBind result := λ A B f x,
  match x with Ok a => f a | Raise e => Raise e end.
#[global] Instance result_fmap : FMap result := λ A B f x,
  match x with Ok a => Ok (f a) | Raise e => Raise e end.

(** * The patterns of the program *)

Definition Digit : regex := In [CDigit].
Definition Space : regex := In [CSpace].

(* r"^Easy Croa[!t]an \(rev\. 47b\) / .+$" *)
Definition FOOTER_SECTION_RE : regex :=
  (Bos ⋅ lit "Easy Croa" ⋅ In (chars "!t") ⋅ lit "an (rev. 47b) / "
   ⋅ Plus AnyChar ⋅ Eos)%re.

(* r"^(\d+) / 600$" *)
Definition PAGE_LINE_RE : regex :=
  (Bos ⋅ Grp 1 (Plus Digit) ⋅ lit " / 600" ⋅ Eos)%re.

(* r"^(\d{2}) (.+)$" *)
Definition LESSON_ID_RE : regex :=
  (Bos ⋅ Grp 1 (Rep 2 (Some 2) true Digit) ⋅ lit " " ⋅ Grp 2 (Plus AnyChar)
   ⋅ Eos)%re.

(* r"^(A\d) (.+)$" *)
Definition APPENDIX_ID_RE : regex :=
  (Bos ⋅ Grp 1 (lit "A" ⋅ Digit) ⋅ lit " " ⋅ Grp 2 (Plus AnyChar) ⋅ Eos)%re.

(* r"^(L\d) (.+)$" *)
Definition LIST_ID_RE : regex :=
  (Bos ⋅ Grp 1 (lit "L" ⋅ Digit) ⋅ lit " " ⋅ Grp 2 (Plus AnyChar) ⋅ Eos)%re.

(* r"^Core Dictionary$" *)
Definition CORE_DICT_RE : regex := (Bos ⋅ lit "Core Dictionary" ⋅ Eos)%re.

(* r"^• Exercise$" *)
Definition EXERCISE_RE : regex := (Bos ⋅ lit "• Exercise" ⋅ Eos)%re.

(* r"^• Something Possibly Interesting$" *)
Definition SPI_RE : regex :=
  (Bos ⋅ lit "• Something Possibly Interesting" ⋅ Eos)%re.

(* r"^_{4,}$" *)
Definition SEPARATOR_RE : regex :=
  (Bos ⋅ Rep 4 None true (Lit (ch "_")) ⋅ Eos)%re.

(* r"^(Warning\.|A (warning|suggestion|note)\.|Note\.|Tip\.)", re.IGNORECASE *)
Definition TIP_RE : regex :=
  (Bos ⋅ Grp 1 (alts [lit "Warning.";
                      lit "A " ⋅ Grp 2 (alts [lit "warning"; lit "suggestion";
                                              lit "note"]) ⋅ lit ".";
                      lit "Note."; lit "Tip."]))%re.

Definition REGIONAL_MARKER : pystr := u "®".

(* frozenset("čćđšžČĆĐŠŽ") *)
Definition CROATIAN_DIACRITICS : pystr := u "čćđšžČĆĐŠŽ".

(* r"[a-zčćđšžA-ZČĆĐŠŽ]+(ati|iti|eti|ovati|ivati|nuti|sti|ći)$", re.IGNORECASE *)
Definition CROATIAN_INF_RE : regex :=
  (Plus (In ([rng "a" "z"] ++ chars "čćđšž" ++ [rng "A" "Z"] ++ chars "ČĆĐŠŽ"))
   ⋅ Grp 1 (alts [lit "ati"; lit "iti"; lit "eti"; lit "ovati"; lit "ivati";
                  lit "nuti"; lit "sti"; lit "ći"])
   ⋅ Eos)%re.

(* [a-zA-ZčćđšžČĆĐŠŽ] *)
Definition LETTER : list cset_item :=
  [rng "a" "z"; rng "A" "Z"] ++ chars "čćđšžČĆĐŠŽ".

(* r"^([a-zA-ZčćđšžČĆĐŠŽ][a-zA-ZčćđšžČĆĐŠŽ\-/ ]{0,50}?(?:\([^)]+\))?)\s+"
   r"([a-z®][^.!?]*|[A-Z][a-z ,;:\-®()/]{1,100})$" *)
Definition VOCAB_FULL_RE : regex :=
  (Bos
   ⋅ Grp 1 (In LETTER
            ⋅ Rep 0 (Some 50) false (In (LETTER ++ chars "-/ "))
            ⋅ Opt (lit "(" ⋅ Plus (NotIn (chars ")")) ⋅ lit ")"))
   ⋅ Plus Space
   ⋅ Grp 2 (In (rng "a" "z" :: chars "®") ⋅ Star (NotIn (chars ".!?"))
            ||| In [rng "A" "Z"]
                ⋅ Rep 1 (Some 100) true (In (rng "a" "z" :: chars " ,;:-®()/")))
   ⋅ Eos)%re.

(* r"^([^.!?]+[.!?])\s+([A-Z(][^.!?]+[.!?]\s*®?)$" *)
Definition EXAMPLE_LINE_RE : regex :=
  (Bos
   ⋅ Grp 1 (Plus (NotIn (chars ".!?")) ⋅ In (chars ".!?"))
   ⋅ Plus Space
   ⋅ Grp 2 (In (rng "A" "Z" :: chars "(") ⋅ Plus (NotIn (chars ".!?"))
            ⋅ In (chars ".!?") ⋅ Star Space ⋅ Opt (lit "®"))
   ⋅ Eos)%re.

(* r"^(The|In|It|At|On|For|This|That|These|Those|There|Here)\s+[a-z]" *)
Definition CONTINUATION_RE : regex :=
  (Bos ⋅ Grp 1 (alts (lit <$> ["The"; "In"; "It"; "At"; "On"; "For"; "This";
                               "That"; "These"; "Those"; "There"; "Here"]%string))
   ⋅ Plus Space ⋅ In [rng "a" "z"])%re.

(* r"\(([^)]+)\)" *)
Definition PAREN_RE : regex :=
  (lit "(" ⋅ Grp 1 (Plus (NotIn (chars ")"))) ⋅ lit ")")%re.

(* r"[.!?]\s*®?$" *)
Definition SENTENCE_END_RE : regex :=
  (In (chars ".!?") ⋅ Star Space ⋅ Opt (lit "®") ⋅ Eos)%re.

(* r"\b[A-Z][a-z]+\b" *)
Definition CAPITALISED_RE : regex :=
  (WordB ⋅ In [rng "A" "Z"] ⋅ Plus (In [rng "a" "z"]) ⋅ WordB)%re.

(* r"^(the|in|it|at|on|for|this|that|from|with|to|as|by|of|"
   r"a |an |so |but|and|or |not|no |also|such|some|most|"
   r"The|In|It|At|On|For|This|That|From|With|To|As|By|Of|"
   r"A |An |So |But|And|Or |Not|No |Also|Such|Some|Most)\s" *)
Definition ENGLISH_START_RE : regex :=
  (Bos ⋅ Grp 1 (alts (lit <$>
      ["the"; "in"; "it"; "at"; "on"; "for"; "this"; "that"; "from"; "with";
       "to"; "as"; "by"; "of"; "a "; "an "; "so "; "but"; "and"; "or "; "not";
       "no "; "also"; "such"; "some"; "most";
       "The"; "In"; "It"; "At"; "On"; "For"; "This"; "That"; "From"; "With";
       "To"; "As"; "By"; "Of"; "A "; "An "; "So "; "But"; "And"; "Or "; "Not";
       "No "; "Also"; "Such"; "Some"; "Most"]%string))
   ⋅ Space)%re.

(** * The data model *)

(** A table-of-contents entry, [{"title": ..., "page": ...}]. *)
Record TocEntry := { toc_title : pystr; toc_page : option Z }.

(** A section, [{"id", "title", "page_start", "lines"}]. *)
Record Section := {
  sec_id : pystr; sec_title : pystr; sec_page_start : option Z;
  sec_lines : list pystr }.

(** A vocabulary entry, [{"croatian", "english", "notes", "type"}]. *)
Record VocabEntry := {
  v_croatian : pystr; v_english : pystr; v_notes : pystr; v_type : pystr }.

(** An example sentence pair, [{"croatian", "english"}]. *)
Record ExamplePair := { e_croatian : pystr; e_english : pystr }.

(** An exercise, [{"instruction", "items"}], with items [{"prompt", "answer"}]. *)
Record ExerciseItem := { x_prompt : pystr; x_answer : pystr }.
Record Exercise := { x_instruction : pystr; x_items : list ExerciseItem }.

(** A content block, [{"type", "text"}]. *)
Record ContentBlock := { b_type : pystr; b_text : pystr }.

(** A dictionary entry, [{"croatian", "english", "part_of_speech"}]. *)
Record DictEntry := {
  d_croatian : pystr; d_english : pystr; d_part_of_speech : pystr }.

(** What [parse_section_content] returns. *)
Record Content := {
  c_topics : list pystr;
  c_content_sections : list ContentBlock;
  c_vocabulary : list VocabEntry;
  c_example_sentences : list ExamplePair;
  c_tables : list pystr;
  c_tips : list pystr;
  c_grammar_notes : list pystr;
  c_exercises : list Exercise;
  c_regional_notes : list pystr }.

(** The records of the output document. *)
Record Lesson := {
  l_id : pystr; l_title : pystr; l_page_start : option Z;
  l_content : Content }.

Record Appendix := {
  a_id : pystr; a_title : pystr; a_page_start : option Z;
  a_content : pystr; a_vocabulary : list VocabEntry;
  a_grammar_notes : list pystr }.

Record ListRecord := {
  r_id : pystr; r_title : pystr; r_page_start : option Z;
  r_content : pystr; r_vocabulary : list VocabEntry }.

Record Metadata := {
  md_title : pystr; md_author : pystr; md_revision : pystr;
  md_year_range : pystr; md_source : pystr }.

Record Output := {
  o_metadata : Metadata;
  o_lessons : list Lesson;
  o_appendices : list Appendix;
  o_lists : list ListRecord;
  o_core_dictionary : list DictEntry }.

(** * The functions of the program *)

Section Program.
Context {rt : Runtime}.

Definition nonempty (s : pystr) : bool :=
  match s with [] => false | _ => true end.

Definition blank (line : pystr) : bool := negb (nonempty (strip line)).

(** [l[0]] *)
Definition index0 {A} (l : list A) : result A :=
  match l with
  | x :: _ => Ok x
  | [] => Raise IndexError
  end.

(** The first [Some] among the results of [f] on a list, as a [for] loop
    finds it that returns from its body. *)
Fixpoint first_some {A B} (f : A → option B) (l : list A) : option B :=
  match l with
  | [] => None
  | x :: l' => match f x with Some y => Some y | None => first_some f l' end
  end.

(** ** [int(s)]

    Blanks around the number, one sign, decimal digits of any script with
    single underscores between them; more digits than the limit of the
    interpreter are refused. *)

Definition int_space (c : char) : bool :=
  if (c <? 127)%N
  then (0x09 <=? c)%N && (c <=? 0x0D)%N || (c =? 0x20)%N
  else isspace c.

Definition int_digit (c : char) : option N :=
  if (c <? 127)%N
  then if (0x30 <=? c)%N && (c <=? 0x39)%N then Some (c - 0x30)%N else None
  else if isspace c then None
  else uni_decimal c.

(** The digits from the cursor on: their value, their number and what
    follows them; [us] tells that the last character was an underscore. *)
Fixpoint int_scan (acc : N) (count : nat) (us : bool) (t : pystr)
    : option (N * nat * pystr) :=
  match t with
  | [] => if us then None else Some (acc, count, [])
  | c :: t' =>
    if (c =? ch "_")%N
    then if us then None else int_scan acc count true t'
    else match int_digit c with
         | Some d => int_scan (10 * acc + d)%N (S count) false t'
         | None => if us then None else Some (acc, count, t)
         end
  end.

Definition py_int (s : pystr) : result Z :=
  let t := drop_while int_space s in
  let '(negative, t) :=
    match t with
    | c :: t' =>
      if (c =? ch "+")%N then (false, t')
      else if (c =? ch "-")%N then (true, t')
      else (false, t)
    | [] => (false, [])
    end in
  match int_scan 0 0 true t with
  | Some (v, count, rest) =>
    if nonempty (drop_while int_space rest) then Raise ValueError
    else if (0 <? int_max_str_digits) && (640 <? count)
            && (int_max_str_digits <? count)
    then Raise ValueError
    else Ok (if negative then - Z.of_N v else Z.of_N v)%Z
  | None => Raise ValueError
  end.

(** [s.isdigit()] *)
Definition isdigit (s : pystr) : bool := nonempty s && forallb uni_isdigit s.

(** ** TOC parsing *)

(** The page of an entry: the next line that is not blank, when it is a
    number. *)
Fixpoint toc_page_of (rest : list pystr) : result (option Z) :=
  match rest with
  | [] => Ok None
  | l :: rest' =>
    let next_line := strip l in
    if isdigit next_line then Some <$> py_int next_line
    else if nonempty next_line then Ok None
    else toc_page_of rest'
  end.

(** The id and the title a line of the contents stands for. *)
Definition toc_candidate (line : pystr) : option (pystr * pystr) :=
  match first_some (λ pat, re_match false pat line)
                   [LESSON_ID_RE; APPENDIX_ID_RE; LIST_ID_RE] with
  | Some m => Some (group m 1, strip (group m 2))
  | None =>
    if matches false CORE_DICT_RE line
    then Some (u "CORE", u "Core Dictionary")
    else None
  end.

Fixpoint toc_loop (toc_lines : list pystr) (toc : gmap pystr TocEntry)
    : result (gmap pystr TocEntry) :=
  match toc_lines with
  | [] => Ok toc
  | l :: rest =>
    match toc_candidate (strip l) with
    | Some (sec_id, sec_title) =>
      page ← toc_page_of rest;
      toc_loop rest (<[sec_id := {| toc_title := sec_title; toc_page := page |}]> toc)
    | None => toc_loop rest toc
    end
  end.

(** The line after [i], blank lines passed over, is there and no number. *)
Definition prose_follows (lines : list pystr) (i : nat) : bool :=
  match drop_while blank (drop (S i) lines) with
  | l :: _ => negb (isdigit (strip l))
  | [] => false
  end.

Definition parse_toc (lines : list pystr) : result (gmap pystr TocEntry) :=
  let toc : gmap pystr TocEntry := ∅ in
  match list_find (λ line, strip line = u "Contents") lines with
  | None => Ok toc
  | Some (contents_idx, _) =>
    let intro_idx :=
      list_find
        (λ i, strip (nth i lines []) = u "Introduction" ∧ prose_follows lines i)
        (seq (contents_idx + 1)
             (min (contents_idx + 400) (length lines) - (contents_idx + 1))) in
    let fallback := min (contents_idx + 350) (length lines) in
    let end_ :=
      match intro_idx with
      | Some (_, i) => if i =? 0 then fallback else i
      | None => fallback
      end in
    toc_loop (slice contents_idx end_ lines) toc
  end.

(** ** Footer stripping *)

Definition is_footer (line : pystr) : bool :=
  matches false FOOTER_SECTION_RE (strip line).
Definition is_page_line (line : pystr) : bool :=
  matches false PAGE_LINE_RE (strip line).

(** The cursor [i] of the loop is kept as the lines from [i] on; every
    round passes at least one line. *)
Fixpoint strip_footers_from (fuel : nat) (lines : list pystr) : list pystr :=
  match fuel, lines with
  | S fuel', l :: rest =>
    if is_footer l then
      let rest := drop_while blank rest in
      let rest :=
        match rest with
        | p :: rest' => if is_page_line p then rest' else rest
        | [] => []
        end in
      strip_footers_from fuel' rest
    else l :: strip_footers_from fuel' rest
  | _, _ => []
  end.

Definition strip_footers (lines : list pystr) : list pystr :=
  strip_footers_from (length lines) lines.

(** ** Section splitting *)

(* r"\s*\([^)]+\)\s*$" *)
Definition TITLE_PAREN_RE : regex :=
  (Star Space ⋅ lit "(" ⋅ Plus (NotIn (chars ")")) ⋅ lit ")" ⋅ Star Space
   ⋅ Eos)%re.

Definition normalise_title (title : pystr) : pystr :=
  let t := re_sub false TITLE_PAREN_RE [] title in
  rstrip_chars (u ".,:;") (re_sub false (Plus Space) (u " ") (str_lower (strip t))).

(** [prev_lines[-5:]] *)
Definition last5 {A} (l : list A) : list A := drop (length l - 5) l.

Definition header_of (toc : gmap pystr TocEntry) (stripped_line : pystr)
    (pat : regex) : option (pystr * pystr * option Z) :=
  match re_match false pat stripped_line with
  | Some m =>
    let sid := group m 1 in
    let candidate_title := rstrip (strip (group m 2)) in
    match toc !! sid with
    | Some info =>
      let toc_title := toc_title info in
      let norm_cand := normalise_title candidate_title in
      let norm_toc := normalise_title toc_title in
      if str_eqb norm_cand norm_toc
         || (15 <=? length norm_cand) && startswith norm_toc norm_cand
      then Some (sid, toc_title, toc_page info)
      else None
    | None => None
    end
  | None => None
  end.

Definition is_known_header (toc : gmap pystr TocEntry)
    (stripped_line : pystr) (prev_lines : list pystr)
    : option (pystr * pystr * option Z) :=
  let rejected :=
    match drop_while blank (rev (last5 prev_lines)) with
    | prev :: _ =>
      let p := strip prev in endswith p (u ":") || endswith p (u ",")
    | [] => false
    end in
  if rejected then None
  else
    match first_some (header_of toc stripped_line)
                     [LESSON_ID_RE; APPENDIX_ID_RE; LIST_ID_RE] with
    | Some h => Some h
    | None =>
      match matches false CORE_DICT_RE stripped_line, toc !! u "CORE" with
      | true, Some info => Some (u "CORE", u "Core Dictionary", toc_page info)
      | _, _ => None
      end
    end.

(** The index of the second line that reads "Introduction", else 0. *)
Fixpoint find_content_start (lines : list pystr) (i intro_count : nat) : nat :=
  match lines with
  | [] => 0
  | line :: rest =>
    if str_eqb (strip line) (u "Introduction")
    then if intro_count + 1 =? 2 then i
         else find_content_start rest (S i) (intro_count + 1)
    else find_content_start rest (S i) intro_count
  end.

(** The sections closed so far and the open one. *)
Abbreviation split_state := (list Section * option Section)%type.

Definition close (st : split_state) : list Section :=
  match st.2 with
  | Some current => st.1 ++ [current]
  | None => st.1
  end.

Definition add_line (line : pystr) (sec : Section) : Section :=
  {| sec_id := sec_id sec; sec_title := sec_title sec;
     sec_page_start := sec_page_start sec;
     sec_lines := sec_lines sec ++ [line] |}.

Definition split_step (raw_lines : list pystr) (toc : gmap pystr TocEntry)
    (st : split_state) (i : nat) : split_state :=
  let line := nth i raw_lines [] in
  let stripped := strip line in
  match is_known_header toc stripped (slice (i - 5) i raw_lines) with
  | Some (sid, title, page) =>
    (close st, Some {| sec_id := sid; sec_title := title;
                       sec_page_start := page; sec_lines := [] |})
  | None => (st.1, add_line (rstrip_chars [10%N] line) <$> st.2)
  end.

Definition split_into_sections (raw_lines : list pystr)
    (toc : gmap pystr TocEntry) : list Section :=
  let content_start := find_content_start raw_lines 0 0 in
  close (foldl (split_step raw_lines toc) ([], None)
               (seq content_start (length raw_lines - content_start))).

(** ** Croatian language helpers *)

Definition has_diacritic (s : pystr) : bool :=
  existsb (λ c, mem c CROATIAN_DIACRITICS) s.

Definition looks_croatian (word : pystr) : bool :=
  has_diacritic word || matches true CROATIAN_INF_RE word.

(** ** Vocabulary and example lines *)

Definition parse_vocab_line (line : pystr) : result (option VocabEntry) :=
  let stripped := strip line in
  if negb (nonempty stripped) || (120 <? length stripped) then Ok None
  else if endswith stripped (u ":")
          || startswith stripped (u "(") && negb (contains stripped (u ")"))
  then Ok None
  else
  match re_match false VOCAB_FULL_RE stripped with
  | None => Ok None
  | Some m =>
    let croatian_raw := strip (group m 1) in
    let english_raw := strip (group m 2) in
    token ← index0 (split croatian_raw);
    let first_word := rstrip_chars (u "()") token in
    if negb (looks_croatian first_word) then Ok None
    else if matches false CONTINUATION_RE english_raw then Ok None
    else
      let paren_m := re_search false PAREN_RE croatian_raw in
      let paren_note :=
        match paren_m with Some pm => group pm 0 | None => [] end in
      let croatian_raw :=
        match paren_m with
        | Some pm => strip (take (m_start pm) croatian_raw)
        | None => croatian_raw
        end in
      let marked := contains english_raw REGIONAL_MARKER in
      let regional := if marked then u "®" else [] in
      let english_raw :=
        if marked then strip (replace REGIONAL_MARKER [] english_raw)
        else english_raw in
      let notes := join (u " ") (filter (λ p, nonempty p) [paren_note; regional]) in
      word_type ←
        (if nonempty paren_note then Ok (u "verb")
         else
           token' ← index0 (split croatian_raw);
           Ok (if matches true CROATIAN_INF_RE token' then u "verb" else []));
      Ok (Some {| v_croatian := croatian_raw;
                  v_english := rstrip_chars (u ".,") english_raw;
                  v_notes := notes;
                  v_type := word_type |})
  end.

Definition parse_example_line (line : pystr) : option ExamplePair :=
  let stripped := strip line in
  if negb (nonempty stripped) || (250 <? length stripped) then None
  else if negb (found false SENTENCE_END_RE stripped) then None
  else
  match re_match false EXAMPLE_LINE_RE stripped with
  | None => None
  | Some m =>
    let croatian := strip (group m 1) in
    let english := strip (group m 2) in
    if length (rstrip_chars (u ".!?") croatian) <? 5 then None
    else if (150 <? length croatian) || (150 <? length english) then None
    else if negb (has_diacritic croatian || found false CAPITALISED_RE croatian)
    then None
    else if matches false ENGLISH_START_RE croatian then None
    else Some {| e_croatian := croatian; e_english := english |}
  end.


(** ** Exercises *)

(* r"_{4,}" *)
Definition BLANKS_RE : regex := Rep 4 None true (Lit (ch "_")).

Definition is_marker (stripped : pystr) : bool :=
  matches false EXERCISE_RE stripped || matches false SPI_RE stripped
  || matches false SEPARATOR_RE stripped.

(** The loop of [parse_exercise_block] over the lines after the marker:
    the instruction parts, the items and the lines left. *)
Fixpoint exercise_loop (instruction_parts : list pystr)
    (items : list ExerciseItem) (rest : list pystr)
    : list pystr * list ExerciseItem * list pystr :=
  match rest with
  | [] => (instruction_parts, items, [])
  | l :: rest' =>
    let stripped := strip l in
    if is_marker stripped then (instruction_parts, items, rest)
    else if startswith stripped (u "Check answers")
    then (instruction_parts, items, rest')
    else if found false BLANKS_RE stripped && (4 <? length stripped)
    then exercise_loop instruction_parts
           (items ++ [{| x_prompt := stripped; x_answer := [] |}]) rest'
    else if match items with [] => true | _ => false end && nonempty stripped
    then exercise_loop (instruction_parts ++ [stripped]) items rest'
    else exercise_loop instruction_parts items rest'
  end.

(** [lines] starts at the "• Exercise" line; the result is the exercise
    and the lines from the returned index on. *)
Definition parse_exercise_block (lines : list pystr) : Exercise * list pystr :=
  let '(instruction_parts, items, rest) := exercise_loop [] [] (tail lines) in
  ({| x_instruction := strip (join (u " ") instruction_parts);
      x_items := items |}, rest).

(** ** Topic tags *)

Definition keyword_map : list (regex * pystr) :=
  [ (lit "alphabet", u "alphabet");
    (lit "pronunciation", u "pronunciation");
    (lit "vowel", u "vowels");
    (lit "consonant", u "consonants");
    (lit "stress", u "stress");
    (WordB ⋅ lit "verb", u "verbs");
    (WordB ⋅ lit "noun", u "nouns");
    (WordB ⋅ lit "adjective", u "adjectives");
    (WordB ⋅ lit "pronoun", u "pronouns");
    (WordB ⋅ lit "adverb", u "adverbs");
    (WordB ⋅ lit "preposition", u "prepositions");
    (lit "accusative", u "accusative");
    (lit "genitive", u "genitive");
    (WordB ⋅ lit "dative" ⋅ WordB, u "dative");
    (WordB ⋅ lit "locative" ⋅ WordB, u "locative");
    (lit "instrumental", u "instrumental");
    (lit "vocative", u "vocative");
    (WordB ⋅ lit "plural" ⋅ WordB, u "plural");
    (lit "past tense", u "past-tense");
    (lit "future tense", u "future-tense");
    (lit "present tense", u "present-tense");
    (WordB ⋅ lit "number", u "numbers");
    (WordB ⋅ lit "gender" ⋅ WordB, u "gender");
    (lit "color" ||| lit "colour", u "colors");
    (lit "question", u "questions");
    (lit "negation" ||| lit "negative", u "negation");
    (lit "conditional", u "conditionals");
    (lit "relative clause", u "relative-clauses");
    (lit "dialect", u "dialects");
    (lit "comparative", u "comparatives") ]%re.

Definition generate_topics (title content_text : pystr) : list pystr :=
  let combined := str_lower (title ++ u " " ++ content_text) in
  let topics :=
    foldl (λ topics '(pattern, tag),
             if found false pattern combined && negb (bool_decide (tag ∈ topics))
             then topics ++ [tag] else topics)
          [] keyword_map in
  take 10 topics.

(** ** The core dictionary *)

(* r"^[A-ZČĆĐŠŽ]{1,2}$" *)
Definition INDEX_LETTER_RE : regex :=
  (Bos ⋅ Rep 1 (Some 2) true (In (rng "A" "Z" :: chars "ČĆĐŠŽ")) ⋅ Eos)%re.

(* r"^([a-zA-ZčćđšžČĆĐŠŽ][a-zA-ZčćđšžČĆĐŠŽ\-\(\)\s/\.ª~]{0,60}?)"
   r"\s+(m|mª|f|n|adj\.|adv\.|impf\.|perf\.|v\.p\.|v\.t\.|"
   r"pass\. adj\.|rel\. adj\.|conj\.|prep\.|pron\.|num\.)"
   r"\s+(.+)$" *)
Definition entry_re : regex :=
  (Bos
   ⋅ Grp 1 (In LETTER
            ⋅ Rep 0 (Some 60) false
                (In (LETTER ++ chars "-()" ++ [CSpace] ++ chars "/.ª~")))
   ⋅ Plus Space
   ⋅ Grp 2 (alts (lit <$> ["m"; "mª"; "f"; "n"; "adj."; "adv."; "impf.";
                           "perf."; "v.p."; "v.t."; "pass. adj.";
                           "rel. adj."; "conj."; "prep."; "pron.";
                           "num."]%string))
   ⋅ Plus Space
   ⋅ Grp 3 (Plus AnyChar)
   ⋅ Eos)%re.

(* r"§\s*\d+(?:,\s*\d+)*" *)
Definition SECTION_REF_RE : regex :=
  (lit "§" ⋅ Star Space ⋅ Plus Digit
   ⋅ Star (lit "," ⋅ Star Space ⋅ Plus Digit))%re.

(* r"\{[^}]+\}" *)
Definition BRACES_RE : regex :=
  (lit "{" ⋅ Plus (NotIn (chars "}")) ⋅ lit "}")%re.

Definition is_index_letter (line : pystr) : bool :=
  matches false INDEX_LETTER_RE (strip line).

(** The end of the alphabet index, [lines] being the lines from [i] on. *)
Fixpoint find_alphabet_end (i : nat) (lines : list pystr) : nat :=
  match lines with
  | [] => 0
  | line :: rest =>
    if is_index_letter line
       && (5 <=? length (filter (λ l, is_index_letter l = true) (take 10 lines)))
    then i + length (take_while is_index_letter lines)
    else find_alphabet_end (S i) rest
  end.

Definition parse_entry (line : pystr) : option DictEntry :=
  let stripped := strip line in
  if negb (nonempty stripped) then None
  else if startswith stripped (u "·") || startswith stripped (u "—") then None
  else if matches false INDEX_LETTER_RE stripped then None
  else
    match re_match false entry_re stripped with
    | Some m =>
      let word := strip (group m 1) in
      let pos := strip (group m 2) in
      let meaning := strip (group m 3) in
      if 4 <? length (split word) then None
      else
        let meaning_clean := strip (re_sub false SECTION_REF_RE [] meaning) in
        let meaning_clean := strip (re_sub false BRACES_RE [] meaning_clean) in
        let meaning_clean := rstrip_chars (u ".,;") meaning_clean in
        Some {| d_croatian := word; d_english := meaning_clean;
                d_part_of_speech := pos |}
    | None => None
    end.

Definition parse_core_dict_entries (lines : list pystr) : list DictEntry :=
  let alphabet_end := find_alphabet_end 0 lines in
  omap parse_entry (drop alphabet_end lines).

(** ** Section content *)

(* r"\b(accusative|genitive|dative|locative|instrumental|nominative|vocative"
   r"|infinitive|present tense|past tense|future tense)\b", re.IGNORECASE *)
Definition GRAMMAR_RE : regex :=
  (WordB
   ⋅ Grp 1 (alts (lit <$> ["accusative"; "genitive"; "dative"; "locative";
                           "instrumental"; "nominative"; "vocative";
                           "infinitive"; "present tense"; "past tense";
                           "future tense"]%string))
   ⋅ WordB)%re.

(** The lists the scan fills and its buffers. *)
Record scan := {
  content_sections : list ContentBlock;
  vocabulary : list VocabEntry;
  example_sentences : list ExamplePair;
  tips : list pystr;
  grammar_notes : list pystr;
  exercises : list Exercise;
  regional_notes : list pystr;
  text_buffer : list pystr;
  in_regional : bool;
  regional_buffer : list pystr }.

Definition scan0 : scan :=
  {| content_sections := []; vocabulary := []; example_sentences := [];
     tips := []; grammar_notes := []; exercises := []; regional_notes := [];
     text_buffer := []; in_regional := false; regional_buffer := [] |}.

Definition add_block (kind text : pystr) (st : scan) : scan :=
  {| content_sections :=
       if nonempty text
       then content_sections st ++ [{| b_type := kind; b_text := text |}]
       else content_sections st;
     vocabulary := vocabulary st; example_sentences := example_sentences st;
     tips := tips st; grammar_notes := grammar_notes st;
     exercises := exercises st; regional_notes := regional_notes st;
     text_buffer := text_buffer st; in_regional := in_regional st;
     regional_buffer := regional_buffer st |}.

Definition set_text_buffer (buf : list pystr) (st : scan) : scan :=
  {| content_sections := content_sections st; vocabulary := vocabulary st;
     example_sentences := example_sentences st; tips := tips st;
     grammar_notes := grammar_notes st; exercises := exercises st;
     regional_notes := regional_notes st;
     text_buffer := buf; in_regional := in_regional st;
     regional_buffer := regional_buffer st |}.

Definition set_regional (flag : bool) (buf notes : list pystr) (st : scan)
    : scan :=
  {| content_sections := content_sections st; vocabulary := vocabulary st;
     example_sentences := example_sentences st; tips := tips st;
     grammar_notes := grammar_notes st; exercises := exercises st;
     regional_notes := notes;
     text_buffer := text_buffer st; in_regional := flag;
     regional_buffer := buf |}.

Definition add_vocabulary (v : VocabEntry) (st : scan) : scan :=
  {| content_sections := content_sections st;
     vocabulary := vocabulary st ++ [v];
     example_sentences := example_sentences st; tips := tips st;
     grammar_notes := grammar_notes st; exercises := exercises st;
     regional_notes := regional_notes st;
     text_buffer := text_buffer st; in_regional := in_regional st;
     regional_buffer := regional_buffer st |}.

Definition add_example (e : ExamplePair) (st : scan) : scan :=
  {| content_sections := content_sections st; vocabulary := vocabulary st;
     example_sentences := example_sentences st ++ [e]; tips := tips st;
     grammar_notes := grammar_notes st; exercises := exercises st;
     regional_notes := regional_notes st;
     text_buffer := text_buffer st; in_regional := in_regional st;
     regional_buffer := regional_buffer st |}.

Definition add_tip (t : pystr) (st : scan) : scan :=
  {| content_sections := content_sections st; vocabulary := vocabulary st;
     example_sentences := example_sentences st; tips := tips st ++ [t];
     grammar_notes := grammar_notes st; exercises := exercises st;
     regional_notes := regional_notes st;
     text_buffer := text_buffer st; in_regional := in_regional st;
     regional_buffer := regional_buffer st |}.

Definition add_grammar_note (g : pystr) (st : scan) : scan :=
  {| content_sections := content_sections st; vocabulary := vocabulary st;
     example_sentences := example_sentences st; tips := tips st;
     grammar_notes := grammar_notes st ++ [g]; exercises := exercises st;
     regional_notes := regional_notes st;
     text_buffer := text_buffer st; in_regional := in_regional st;
     regional_buffer := regional_buffer st |}.

Definition add_exercise (x : Exercise) (st : scan) : scan :=
  {| content_sections := content_sections st; vocabulary := vocabulary st;
     example_sentences := example_sentences st; tips := tips st;
     grammar_notes := grammar_notes st; exercises := exercises st ++ [x];
     regional_notes := regional_notes st;
     text_buffer := text_buffer st; in_regional := in_regional st;
     regional_buffer := regional_buffer st |}.

Definition flush_text (st : scan) : scan :=
  let text := strip (join [10%N] (text_buffer st)) in
  set_text_buffer [] (add_block (u "explanation") text st).

Definition flush_regional (st : scan) : scan :=
  let text := strip (join [10%N] (regional_buffer st)) in
  set_regional false []
    (if nonempty text then regional_notes st ++ [text] else regional_notes st)
    st.

(** [flush_text()] followed by [if in_regional: flush_regional()]. *)
Definition flush_both (st : scan) : scan :=
  let st := flush_text st in
  if in_regional st then flush_regional st else st.

(** The lines an aside takes and the lines left. *)
Fixpoint spi_loop (spi_lines rest : list pystr) : list pystr * list pystr :=
  match rest with
  | [] => (spi_lines, [])
  | l :: rest' =>
    if is_marker (strip l) then (spi_lines, rest)
    else spi_loop (spi_lines ++ [rstrip l]) rest'
  end.

(** The lines a tip goes on over and the lines left. *)
Fixpoint tip_loop (tip_parts rest : list pystr) : list pystr * list pystr :=
  match rest with
  | [] => (tip_parts, [])
  | l :: rest' =>
    let s := strip l in
    if negb (nonempty s) || matches false SEPARATOR_RE s
       || matches false EXERCISE_RE s
    then (tip_parts, rest)
    else tip_loop (tip_parts ++ [s]) rest'
  end.

(** The main loop, its cursor kept as the lines from [i] on; every round
    passes at least one line. *)
Fixpoint content_loop (fuel : nat) (lines : list pystr) (st : scan)
    : result scan :=
  match fuel, lines with
  | S fuel', line :: rest =>
    let stripped := strip line in
    if matches false EXERCISE_RE stripped then
      let st := flush_both st in
      let '(ex, rest) := parse_exercise_block lines in
      content_loop fuel' rest (add_exercise ex st)
    else if matches false SPI_RE stripped then
      let st := flush_both st in
      let '(spi_lines, rest) := spi_loop [] rest in
      let text := strip (join [10%N] spi_lines) in
      content_loop fuel' rest (add_block (u "spi") text st)
    else if matches false SEPARATOR_RE stripped then
      let st := flush_both st in
      content_loop fuel' rest
        (set_regional true (regional_buffer st) (regional_notes st) st)
    else if matches true TIP_RE stripped then
      let st := flush_both st in
      let '(tip_parts, rest) := tip_loop [stripped] rest in
      content_loop fuel' rest (add_tip (join (u " ") tip_parts) st)
    else if in_regional st then
      content_loop fuel' rest
        (set_regional true (regional_buffer st ++ [stripped])
                      (regional_notes st) st)
    else
      match parse_example_line line with
      | Some ex_line =>
        content_loop fuel' rest (add_example ex_line (flush_text st))
      | None =>
        vocab_item ← parse_vocab_line line;
        match vocab_item with
        | Some v => content_loop fuel' rest (add_vocabulary v (flush_text st))
        | None =>
          let st :=
            if found true GRAMMAR_RE stripped
            then add_grammar_note stripped st else st in
          content_loop fuel' rest
            (set_text_buffer (text_buffer st ++ [rstrip line]) st)
        end
      end
  | _, _ => Ok st
  end.

Definition parse_section_content (sec : Section) : result Content :=
  let lines := strip_footers (sec_lines sec) in
  st ← content_loop (length lines) lines scan0;
  let st := flush_both st in
  let all_text := join (u " ") (b_text <$> content_sections st) in
  let topics := generate_topics (sec_title sec) all_text in
  Ok {| c_topics := topics;
        c_content_sections := content_sections st;
        c_vocabulary := vocabulary st;
        c_example_sentences := example_sentences st;
        c_tables := [];
        c_tips := tips st;
        c_grammar_notes := grammar_notes st;
        c_exercises := exercises st;
        c_regional_notes := regional_notes st |}.

(** ** The output document *)

(* r"^A\d$" and r"^L\d$" *)
Definition APPENDIX_SID_RE : regex := (Bos ⋅ lit "A" ⋅ Digit ⋅ Eos)%re.
Definition LIST_SID_RE : regex := (Bos ⋅ lit "L" ⋅ Digit ⋅ Eos)%re.

(** The four collections while the sections are gone through. *)
Record collections := {
  lessons : list Lesson;
  appendices : list Appendix;
  lists : list ListRecord;
  core_dictionary : list DictEntry }.

Definition route (acc : collections) (sec : Section) : result collections :=
  let sid := sec_id sec in
  if str_eqb sid (u "CORE") then
    Ok {| lessons := lessons acc; appendices := appendices acc;
          lists := lists acc;
          core_dictionary :=
            parse_core_dict_entries (strip_footers (sec_lines sec)) |}
  else if matches false APPENDIX_SID_RE sid then
    content ← parse_section_content sec;
    Ok {| lessons := lessons acc;
          appendices := appendices acc ++
            [{| a_id := sid; a_title := sec_title sec;
                a_page_start := sec_page_start sec;
                a_content := join [10%N; 10%N]
                               (b_text <$> c_content_sections content);
                a_vocabulary := c_vocabulary content;
                a_grammar_notes := c_grammar_notes content |}];
          lists := lists acc; core_dictionary := core_dictionary acc |}
  else if matches false LIST_SID_RE sid then
    content ← parse_section_content sec;
    Ok {| lessons := lessons acc; appendices := appendices acc;
          lists := lists acc ++
            [{| r_id := sid; r_title := sec_title sec;
                r_page_start := sec_page_start sec;
                r_content := join [10%N; 10%N]
                               (b_text <$> c_content_sections content);
                r_vocabulary := c_vocabulary content |}];
          core_dictionary := core_dictionary acc |}
  else
    content ← parse_section_content sec;
    Ok {| lessons := lessons acc ++
            [{| l_id := sid; l_title := sec_title sec;
                l_page_start := sec_page_start sec; l_content := content |}];
          appendices := appendices acc; lists := lists acc;
          core_dictionary := core_dictionary acc |}.

Fixpoint route_all (acc : collections) (sections : list Section)
    : result collections :=
  match sections with
  | [] => Ok acc
  | sec :: rest => acc' ← route acc sec; route_all acc' rest
  end.

(** [list.sort(key=...)]: the keys of all elements are computed first;
    the sort is stable, and its result is the one arrangement that is
    ordered by key with equal keys in their old order, which insertion
    from the right computes. *)
Fixpoint keys_of {A} (key : A → result Z) (l : list A) : result (list (Z * A)) :=
  match l with
  | [] => Ok []
  | x :: l' => k ← key x; kl ← keys_of key l'; Ok ((k, x) :: kl)
  end.

Fixpoint insert_keyed {A} (kx : Z * A) (l : list (Z * A)) : list (Z * A) :=
  match l with
  | [] => [kx]
  | ky :: l' =>
    if (kx.1 <=? ky.1)%Z then kx :: l else ky :: insert_keyed kx l'
  end.

Definition sort_keyed {A} (l : list (Z * A)) : list (Z * A) :=
  foldr insert_keyed [] l.

Definition sort_by_key {A} (key : A → result Z) (l : list A) : result (list A) :=
  kl ← keys_of key l; Ok ((sort_keyed kl).*2).

Definition build_output (sections : list Section) (toc : gmap pystr TocEntry)
    : result Output :=
  acc ← route_all {| lessons := []; appendices := []; lists := [];
                     core_dictionary := [] |} sections;
  sorted ← sort_by_key (λ x, py_int (l_id x)) (lessons acc);
  Ok {| o_metadata :=
          {| md_title := u "Easy Croatian"; md_author := u "Daniel N.";
             md_revision := u "47b"; md_year_range := u "2009-2019";
             md_source := u "easy-croatian.com" |};
        o_lessons := sorted;
        o_appendices := appendices acc;
        o_lists := lists acc;
        o_core_dictionary := core_dictionary acc |}.

End Program.

(** * A character database for running examples

    [latin_runtime] agrees with the database of CPython 3.11 (Unicode 14)
    on the code points below U+0180, that is Basic Latin, Latin-1
    Supplement and Latin Extended-A, and treats the code points above as
    caseless characters outside every class, which is what the bullet,
    the dash and the other signs of the text book are.  It is used to
    evaluate the functions on concrete lines only. *)

Definition between (lo hi c : N) : bool := ((lo <=? c) && (c <=? hi))%N.

Definition latin_tolower (c : char) : char :=
  if between 0x41 0x5A c || between 0xC0 0xDE c && negb (c =? 0xD7)%N
  then (c + 32)%N
  else if (c =? 0x130)%N then 0x69%N
  else if (c =? 0x178)%N then 0xFF%N
  else if (between 0x100 0x137 c || between 0x14A 0x177 c) && N.even c
  then (c + 1)%N
  else if (between 0x139 0x148 c || between 0x179 0x17E c) && N.odd c
  then (c + 1)%N
  else c.

Definition latin_toupper (c : char) : char :=
  if between 0x61 0x7A c || between 0xE0 0xFE c && negb (c =? 0xF7)%N
  then (c - 32)%N
  else if (c =? 0xB5)%N then 0x39C%N
  else if (c =? 0xDF)%N then 0x53%N
  else if (c =? 0xFF)%N then 0x178%N
  else if (c =? 0x131)%N then 0x49%N
  else if (c =? 0x149)%N then 0x2BC%N
  else if (c =? 0x17F)%N then 0x53%N
  else if (between 0x100 0x137 c || between 0x14A 0x177 c) && N.odd c
  then (c - 1)%N
  else if (between 0x139 0x148 c || between 0x179 0x17E c) && N.even c
  then (c - 1)%N
  else c.

Definition latin_isalnum (c : char) : bool :=
  between 0x30 0x39 c || between 0x41 0x5A c || between 0x61 0x7A c
  || (c =? 0xAA)%N || between 0xB2 0xB3 c || (c =? 0xB5)%N
  || between 0xB9 0xBA c || between 0xBC 0xBE c || between 0xC0 0xD6 c
  || between 0xD8 0xF6 c || between 0xF8 0x17F c.

Definition latin_extra_cases (c : char) : list char :=
  if (c =? 0x69)%N then [0x131%N]
  else if (c =? 0x73)%N then [0x17F%N]
  else if (c =? 0xB5)%N then [0x3BC%N]
  else if (c =? 0x131)%N then [0x69%N]
  else if (c =? 0x17F)%N then [0x73%N]
  else [].

Definition latin_runtime : Runtime := {|
  uni_decimal c := if between 0x30 0x39 c then Some (c - 0x30)%N else None;
  uni_isdigit c := between 0x30 0x39 c || between 0xB2 0xB3 c || (c =? 0xB9)%N;
  uni_isalnum := latin_isalnum;
  uni_tolower := latin_tolower;
  uni_toupper := latin_toupper;
  uni_extra_cases := latin_extra_cases;
  str_lower s := s ≫= (λ c, if (c =? 0x130)%N then [0x69%N; 0x307%N]
                            else [latin_tolower c]);
  int_max_str_digits := 4300
|}.

(** * The notions of the properties

    What the theorems below are stated with: the footer pattern as a
    relation, the header positions and blocks of the section splitter,
    what a match of a pattern is, where the output sends a section. *)

Section Notions.
Context {rt : Runtime}.

(** What a footer takes with it: the blank lines after it and one page
    counter, when there is one. *)
Definition after_footer (rest : list pystr) : list pystr :=
  match drop_while blank rest with
  | p :: rest' => if is_page_line p then rest' else p :: rest'
  | [] => []
  end.

(** The footer pattern as the contract words it: a footer line, the run of
    blank lines after it, and the page counter when one comes next.
    [footers_removed lines out]: [out] is [lines] without the occurrences
    of the pattern, the other lines as they are. *)
Inductive footers_removed : list pystr → list pystr → Prop :=
| removed_nil : footers_removed [] []
| removed_keep l rest out :
    is_footer l = false →
    footers_removed rest out →
    footers_removed (l :: rest) (l :: out)
| removed_footer l blanks rest out :
    is_footer l = true →
    Forall (λ b, blank b = true) blanks →
    match rest with
    | [] => True
    | r :: _ => blank r = false ∧ is_page_line r = false
    end →
    footers_removed rest out →
    footers_removed (l :: blanks ++ rest) out
| removed_footer_counter l blanks p rest out :
    is_footer l = true →
    Forall (λ b, blank b = true) blanks →
    is_page_line p = true →
    footers_removed rest out →
    footers_removed (l :: blanks ++ p :: rest) out.

(** The header test of the loop at line [i]. *)
Definition header_at (raw_lines : list pystr) (toc : gmap pystr TocEntry)
    (i : nat) : option (pystr * pystr * option Z) :=
  is_known_header toc (strip (nth i raw_lines [])) (slice (i - 5) i raw_lines).

(** The lines the loop goes through that are headers, in order. *)
Definition header_positions (raw_lines : list pystr)
    (toc : gmap pystr TocEntry) : list nat :=
  let content_start := find_content_start raw_lines 0 0 in
  filter (λ i, is_Some (header_at raw_lines toc i))
         (seq content_start (length raw_lines - content_start)).

(** Each header with the next one, the last with [n]. *)
Fixpoint blocks (hs : list nat) (n : nat) : list (nat * nat) :=
  match hs with
  | [] => []
  | h :: hs' => (h, hd n hs') :: blocks hs' n
  end.

(** The section of the header at line [b.1] when the next header, or the
    end of the input, is at [b.2]. *)
Definition section_at (raw_lines : list pystr) (toc : gmap pystr TocEntry)
    (b : nat * nat) : option Section :=
  match header_at raw_lines toc b.1 with
  | Some (sid, title, page) =>
    Some {| sec_id := sid; sec_title := title; sec_page_start := page;
            sec_lines := rstrip_chars [10%N] <$> slice (S b.1) b.2 raw_lines |}
  | None => None
  end.

(** What the loop holds after the lines before [m]. *)
Definition split_inv (raw_lines : list pystr) (toc : gmap pystr TocEntry)
    (m : nat) (hs : list nat) (st : list Section * option Section) : Prop :=
  match st.2 with
  | None => st.1 = [] ∧ hs = []
  | Some current =>
    ∃ hs' h, hs = hs' ++ [h] ∧ h < m ∧
      Forall2 (λ s b, section_at raw_lines toc b = Some s) st.1 (blocks hs' h) ∧
      section_at raw_lines toc (h, m) = Some current
  end.

(** [n] rounds done, the repetition goes from [cur] to [cur']. *)
Inductive repeats (body : cursor → captures → cursor → captures → Prop)
    (lo : nat) (hi : option nat)
    : nat → cursor → captures → cursor → captures → Prop :=
| repeats_stop n cur gs :
    lo ≤ n → repeats body lo hi n cur gs cur gs
| repeats_more n cur gs cur1 gs1 cur' gs' :
    below n hi = true →
    body cur gs cur1 gs1 →
    repeats body lo hi (S n) cur1 gs1 cur' gs' →
    repeats body lo hi n cur gs cur' gs'.

#[warnings="-register-all"]
Inductive matching (ic : bool)
    : regex → cursor → captures → cursor → captures → Prop :=
| matching_eps cur gs : matching ic Eps cur gs cur gs
| matching_lit x c cur cur' gs :
    advance cur = Some (c, cur') → lit_has ic x c = true →
    matching ic (Lit x) cur gs cur' gs
| matching_any c cur cur' gs :
    advance cur = Some (c, cur') → c ≠ 10%N →
    matching ic AnyChar cur gs cur' gs
| matching_in items c cur cur' gs :
    advance cur = Some (c, cur') → set_has ic items c = true →
    matching ic (In items) cur gs cur' gs
| matching_notin items c cur cur' gs :
    advance cur = Some (c, cur') → set_has ic items c = false →
    matching ic (NotIn items) cur gs cur' gs
| matching_cat r1 r2 cur gs cur1 gs1 cur' gs' :
    matching ic r1 cur gs cur1 gs1 → matching ic r2 cur1 gs1 cur' gs' →
    matching ic (Cat r1 r2) cur gs cur' gs'
| matching_alt_l r1 r2 cur gs cur' gs' :
    matching ic r1 cur gs cur' gs' → matching ic (Alt r1 r2) cur gs cur' gs'
| matching_alt_r r1 r2 cur gs cur' gs' :
    matching ic r2 cur gs cur' gs' → matching ic (Alt r1 r2) cur gs cur' gs'
| matching_rep lo hi greedy r cur gs cur' gs' :
    repeats (matching ic r) lo hi 0 cur gs cur' gs' →
    matching ic (Rep lo hi greedy r) cur gs cur' gs'
| matching_grp n r cur gs cur' gs' :
    matching ic r cur gs cur' gs' →
    matching ic (Grp n r) cur gs cur' ((n, (c_pos cur, c_pos cur')) :: gs')
| matching_bos cur gs : c_pos cur = 0 → matching ic Bos cur gs cur gs
| matching_eos cur gs : at_eos cur = true → matching ic Eos cur gs cur gs
| matching_wordb cur gs :
    at_boundary cur = true → matching ic WordB cur gs cur gs.

(** A matcher step is sound for a relation when each of its results is a
    result of its continuation at a match of that relation. *)
Definition sound_for
    (body : cursor → captures → conts → option (cursor * captures))
    (rel : cursor → captures → cursor → captures → Prop) : Prop :=
  ∀ cur gs (k : conts) res,
    body cur gs k = Some res →
    ∃ cur' gs', rel cur gs cur' gs' ∧ k cur' gs' = Some res.

(** The cursor [i] characters into [s]. *)
Definition cursor_at (s : pystr) (i : nat) (cur : cursor) : Prop :=
  c_pos cur = i ∧ c_rest cur = drop i s ∧ i ≤ length s.

(** The groups a pattern can set. *)
Fixpoint groups_of (r : regex) : list nat :=
  match r with
  | Cat r1 r2 | Alt r1 r2 => groups_of r1 ++ groups_of r2
  | Rep _ _ _ r1 => groups_of r1
  | Grp n r1 => n :: groups_of r1
  | _ => []
  end.

(** A match puts spans of its own groups before the spans that were
    there. *)
Definition sets_own_groups (ic : bool) (r : regex) : Prop :=
  ∀ cur gs cur' gs',
    matching ic r cur gs cur' gs' →
    ∃ new, gs' = new ++ gs ∧ Forall (λ g, g.1 ∈ groups_of r) new.

(** A match moves the cursor forward along the subject. *)
Definition moves_forward (ic : bool) (r : regex) : Prop :=
  ∀ s i cur gs cur' gs',
    matching ic r cur gs cur' gs' → cursor_at s i cur →
    ∃ j, i ≤ j ∧ cursor_at s j cur'.

(* r"^\d{2}$": the shape of a lesson id as the routing invariant words it *)
Definition LESSON_SID_RE : regex := (Bos ⋅ Rep 2 (Some 2) true Digit ⋅ Eos)%re.

(** The ids the header patterns can give. *)
Definition id_shape (sid : pystr) : Prop :=
  sid = u "CORE"
  ∨ (∃ d1 d2, sid = [d1; d2] ∧ is_decimal d1 = true ∧ is_decimal d2 = true)
  ∨ (∃ d, sid = [ch "A"; d] ∧ is_decimal d = true)
  ∨ (∃ d, sid = [ch "L"; d] ∧ is_decimal d = true).

(** Where [build_output] sends a section. *)
Definition is_core (sec : Section) : bool := str_eqb (sec_id sec) (u "CORE").
Definition is_appendix (sec : Section) : bool :=
  negb (is_core sec) && matches false APPENDIX_SID_RE (sec_id sec).
Definition is_list (sec : Section) : bool :=
  negb (is_core sec) && negb (matches false APPENDIX_SID_RE (sec_id sec))
  && matches false LIST_SID_RE (sec_id sec).
Definition is_lesson (sec : Section) : bool :=
  negb (is_core sec) && negb (matches false APPENDIX_SID_RE (sec_id sec))
  && negb (matches false LIST_SID_RE (sec_id sec)).

(** What a record keeps of its section as it is: id, title and page. *)
Definition section_heading (sec : Section) : pystr * pystr * option Z :=
  (sec_id sec, sec_title sec, sec_page_start sec).
Definition lesson_heading (l : Lesson) : pystr * pystr * option Z :=
  (l_id l, l_title l, l_page_start l).
Definition appendix_heading (a : Appendix) : pystr * pystr * option Z :=
  (a_id a, a_title a, a_page_start a).
Definition list_heading (r : ListRecord) : pystr * pystr * option Z :=
  (r_id r, r_title r, r_page_start r).

Definition pick (b : bool) (sec : Section) : list (pystr * pystr * option Z) :=
  if b then [section_heading sec] else [].

Definition key_le {A} (a b : Z * A) : Prop := (a.1 ≤ b.1)%Z.

(** The first run of non-blank characters. *)
Definition first_token (s : pystr) : pystr :=
  take_while (λ c, negb (isspace c)) (drop_while isspace s).

End Notions.

Ltac normalise_pattern r H :=
  let r' := eval vm_compute in r in change r with r' in H.

Ltac invert H := inversion H; subst; clear H.

(** Take a match of a sequence, a group or a single character apart. *)
Ltac invert_matching :=
  repeat match goal with
  | H : matching _ (Cat _ _) _ _ _ _ |- _ => invert H
  | H : matching _ (Grp _ _) _ _ _ _ |- _ => invert H
  | H : matching _ Eps _ _ _ _ |- _ => invert H
  | H : matching _ Bos _ _ _ _ |- _ => invert H
  | H : matching _ Eos _ _ _ _ |- _ => invert H
  | H : matching _ (Lit _) _ _ _ _ |- _ => invert H
  | H : matching _ (In _) _ _ _ _ |- _ => invert H
  end.

(** A small book for the examples: two lines that read "Introduction",
    the header of lesson 01 twice, and the header of the dictionary. *)

Definition small_book : list pystr :=
  u <$> ["Introduction"; "Introduction"; "01 Greetings"; "Dobar dan.";
         "01 Greetings"; "Core Dictionary"; "brat m brother"]%string.

Definition small_toc : gmap pystr TocEntry :=
  {[ u "01" := {| toc_title := u "Greetings"; toc_page := Some 5%Z |} ]}.

(** * The notions of the further properties

    What the theorems of the second part are stated with: the text a
    pattern spells, one round of the content loop, the lines of an
    exercise, the record of a section, the patterns of which the matcher
    misses no match, the split of a vocabulary line. *)

Section FurtherNotions.
Context {rt : Runtime}.

(** The tags of the table whose pattern is found in the text, in the
    order of the table. *)
Definition found_tags (combined : pystr) : list pystr :=
  (filter (λ pt, found false pt.1 combined = true) keyword_map).*2.

(** The texts a pattern can match, the conditions on the position (start,
    end, word boundary) left aside. *)
Fixpoint spells (ic : bool) (r : regex) (w : pystr) : Prop :=
  match r with
  | Eps | Bos | Eos | WordB => w = []
  | Lit x => ∃ c, w = [c] ∧ lit_has ic x c = true
  | AnyChar => ∃ c, w = [c] ∧ c ≠ 10%N
  | In items => ∃ c, w = [c] ∧ set_has ic items c = true
  | NotIn items => ∃ c, w = [c] ∧ set_has ic items c = false
  | Cat r1 r2 => ∃ w1 w2, w = w1 ++ w2 ∧ spells ic r1 w1 ∧ spells ic r2 w2
  | Alt r1 r2 => spells ic r1 w ∨ spells ic r2 w
  | Rep lo hi _ r1 =>
    ∃ ws, w = concat ws ∧ Forall (spells ic r1) ws ∧ lo ≤ length ws
          ∧ match hi with Some h => length ws ≤ h | None => True end
  | Grp _ r1 => spells ic r1 w
  end.

(** A letter of the vocabulary and dictionary patterns,
    [[a-zA-ZčćđšžČĆĐŠŽ]]. *)
Definition is_letter (c : char) : Prop :=
  (ch "a" ≤ c ∧ c ≤ ch "z")%N ∨ (ch "A" ≤ c ∧ c ≤ ch "Z")%N
  ∨ c ∈ u "čćđšžČĆĐŠŽ".

(** The part-of-speech abbreviations of the dictionary. *)
Definition part_of_speech_tags : list pystr :=
  u <$> ["m"; "mª"; "f"; "n"; "adj."; "adv."; "impf."; "perf."; "v.p.";
         "v.t."; "pass. adj."; "rel. adj."; "conj."; "prep."; "pron.";
         "num."]%string.

(** One round of the main loop of [parse_section_content] at the line
    [line], the lines after it being [rest]: the lines left and the new
    state. *)
Definition content_step (line : pystr) (rest : list pystr) (st : scan)
    : result (list pystr * scan) :=
  let stripped := strip line in
  if matches false EXERCISE_RE stripped then
    let '(ex, rest') := parse_exercise_block (line :: rest) in
    Ok (rest', add_exercise ex (flush_both st))
  else if matches false SPI_RE stripped then
    let '(spi_lines, rest') := spi_loop [] rest in
    Ok (rest', add_block (u "spi") (strip (join [10%N] spi_lines))
                 (flush_both st))
  else if matches false SEPARATOR_RE stripped then
    let st := flush_both st in
    Ok (rest, set_regional true (regional_buffer st) (regional_notes st) st)
  else if matches true TIP_RE stripped then
    let '(tip_parts, rest') := tip_loop [stripped] rest in
    Ok (rest', add_tip (join (u " ") tip_parts) (flush_both st))
  else if in_regional st then
    Ok (rest, set_regional true (regional_buffer st ++ [stripped])
                (regional_notes st) st)
  else
    match parse_example_line line with
    | Some ex_line => Ok (rest, add_example ex_line (flush_text st))
    | None =>
      vocab_item ← parse_vocab_line line;
      match vocab_item with
      | Some v => Ok (rest, add_vocabulary v (flush_text st))
      | None =>
        let st :=
          if found true GRAMMAR_RE stripped
          then add_grammar_note stripped st else st in
        Ok (rest, set_text_buffer (text_buffer st ++ [rstrip line]) st)
      end
    end.

(** A line that reads "• Exercise". *)
Definition is_exercise_line (l : pystr) : Prop := strip l = u "• Exercise".

#[global] Instance is_exercise_line_dec l : Decision (is_exercise_line l).
Proof. unfold is_exercise_line. apply _. Defined.

(** The vocabulary entry of a line, when it has one. *)
Definition vocab_of (line : pystr) : option VocabEntry :=
  match parse_vocab_line line with
  | Ok (Some v) => Some v
  | _ => None
  end.

(** A text that is not empty and has no blank at either end. *)
Definition clean_text (t : pystr) : Prop := t ≠ [] ∧ strip t = t.

(** The content blocks are explanations and asides with clean texts, and
    the regional notes are clean. *)
Definition blocks_clean (st : scan) : Prop :=
  Forall (λ b, (b_type b = u "explanation" ∨ b_type b = u "spi")
               ∧ clean_text (b_text b)) (content_sections st)
  ∧ Forall clean_text (regional_notes st).

(** A line ends an exercise: a marker, or the line "Check answers". *)
Definition ends_exercise (l : pystr) : bool :=
  is_marker (strip l) || startswith (strip l) (u "Check answers").

(** A line of an exercise is an item: it has a run of four underscores
    and more than four characters. *)
Definition is_item (l : pystr) : bool :=
  found false BLANKS_RE (strip l) && (4 <? length (strip l)).

(** The lines of an exercise, [rest] being the lines after its opening
    line, and the lines left after the exercise: the line "Check
    answers" belongs to the exercise, a marker does not. *)
Definition exercise_body (rest : list pystr) : list pystr :=
  take_while (λ l, negb (ends_exercise l)) rest.

Definition after_exercise (rest : list pystr) : list pystr :=
  match drop_while (λ l, negb (ends_exercise l)) rest with
  | l :: after => if is_marker (strip l) then l :: after else after
  | [] => []
  end.

(** The instruction is made of the lines before the first item. *)
Definition instruction_parts (body : list pystr) : list pystr :=
  filter (λ s, nonempty s = true)
         (strip <$> take_while (λ l, negb (is_item l)) body).

Definition items_of (body : list pystr) : list ExerciseItem :=
  (λ l, {| x_prompt := strip l; x_answer := [] |})
    <$> filter (λ l, is_item l = true) body.

(** The record [build_output] makes of a section: its heading, and what
    [parse_section_content] returns of it, the whole of it for a lesson
    and some fields of it for an appendix or a list. *)
Definition lesson_from (sec : Section) (l : Lesson) : Prop :=
  is_lesson sec = true ∧ lesson_heading l = section_heading sec
  ∧ parse_section_content sec = Ok (l_content l).

Definition appendix_from (sec : Section) (a : Appendix) : Prop :=
  is_appendix sec = true ∧ appendix_heading a = section_heading sec
  ∧ ∃ content,
      parse_section_content sec = Ok content
      ∧ a_content a = join [10%N; 10%N] (b_text <$> c_content_sections content)
      ∧ a_vocabulary a = c_vocabulary content
      ∧ a_grammar_notes a = c_grammar_notes content.

Definition list_from (sec : Section) (r : ListRecord) : Prop :=
  is_list sec = true ∧ list_heading r = section_heading sec
  ∧ ∃ content,
      parse_section_content sec = Ok content
      ∧ r_content r = join [10%N; 10%N] (b_text <$> c_content_sections content)
      ∧ r_vocabulary r = c_vocabulary content.

(** The dictionary of the last section with the id CORE. *)
Definition last_core (sections : list Section) (default : list DictEntry)
    : list DictEntry :=
  match last (filter (λ s, is_core s = true) sections) with
  | Some sec => parse_core_dict_entries (strip_footers (sec_lines sec))
  | None => default
  end.

(** The decimal digits of the character database are as Unicode has
    them: none is a blank, and those of ASCII are [0] to [9]. *)
Definition plain_decimals : Prop :=
  ∀ c, is_decimal c = true →
    isspace c = false ∧ ((c < 127)%N → (ch "0" ≤ c ∧ c ≤ ch "9")%N).

(** A line that reads "Introduction". *)
Definition is_introduction (line : pystr) : Prop :=
  strip line = u "Introduction".

#[global] Instance is_introduction_dec line : Decision (is_introduction line).
Proof. unfold is_introduction. apply _. Defined.

(** The index of the second line that reads "Introduction": the first
    such line after the first one. *)
Definition second_introduction (lines : list pystr) : option nat :=
  match list_find is_introduction lines with
  | Some (first, _) =>
    match list_find is_introduction (drop (S first) lines) with
    | Some (gap, _) => Some (S first + gap)
    | None => None
    end
  | None => None
  end.

(** A line with content: no footer, not blank and no page counter. *)
Definition is_content_line (l : pystr) : Prop :=
  is_footer l = false ∧ blank l = false ∧ is_page_line l = false.

#[global] Instance is_content_line_dec l : Decision (is_content_line l).
Proof. unfold is_content_line. apply _. Defined.

(** A pattern that takes at least one character at every match. *)
Fixpoint consumes (r : regex) : bool :=
  match r with
  | Lit _ | AnyChar | In _ | NotIn _ => true
  | Cat r1 r2 => consumes r1 || consumes r2
  | Alt r1 r2 => consumes r1 && consumes r2
  | Rep lo _ _ r1 => (0 <? lo) && consumes r1
  | Grp _ r1 => consumes r1
  | _ => false
  end.

(** A pattern whose repetitions all repeat a pattern that takes at least
    one character, as the patterns of the program do: a repetition then
    runs no more rounds than characters are left. *)
Fixpoint productive (r : regex) : bool :=
  match r with
  | Cat r1 r2 | Alt r1 r2 => productive r1 && productive r2
  | Rep _ _ _ r1 => consumes r1 && productive r1
  | Grp _ r1 => productive r1
  | _ => true
  end.

(** A pattern without [^], [$] and [\b]. *)
Fixpoint anchor_free (r : regex) : bool :=
  match r with
  | Bos | Eos | WordB => false
  | Cat r1 r2 | Alt r1 r2 => anchor_free r1 && anchor_free r2
  | Rep _ _ _ r1 | Grp _ r1 => anchor_free r1
  | _ => true
  end.

(** A matcher step misses nothing of a relation when it fails only
    where its continuation fails at every match of that relation. *)
Definition complete_for
    (body : cursor → captures → conts → option (cursor * captures))
    (rel : cursor → captures → cursor → captures → Prop) : Prop :=
  ∀ cur gs (k : conts),
    body cur gs k = None →
    ∀ cur' gs', rel cur gs cur' gs' → k cur' gs' = None.

(** A split of a stripped line as the vocabulary pattern reads it: the
    term, a letter and up to fifty letters, hyphens, slashes and blanks;
    the parenthetical, which may be missing; the blanks; the gloss, which
    begins with a small letter or the regional marker and has no [.], [!]
    or [?] after it, or begins with a capital and goes on with one to a
    hundred small letters and characters of [ ,;:-®()/]. *)
Definition vocab_split (s term note ws gloss : pystr) : Prop :=
  s = term ++ note ++ ws ++ gloss
  ∧ (∃ c t, term = c :: t ∧ is_letter c
            ∧ Forall (λ x, is_letter x ∨ x ∈ u "-/ ") t ∧ length t ≤ 50)
  ∧ (note = []
     ∨ ∃ body, note = u "(" ++ body ++ u ")" ∧ body ≠ []
               ∧ Forall (λ x, x ∉ u ")") body)
  ∧ ws ≠ [] ∧ Forall (λ x, isspace x = true) ws
  ∧ ∃ g t, gloss = g :: t
      ∧ ((((ch "a" ≤ g ∧ g ≤ ch "z")%N ∨ g = ch "®")
          ∧ Forall (λ x, x ∉ u ".!?") t)
         ∨ ((ch "A" ≤ g ∧ g ≤ ch "Z")%N
            ∧ 1 ≤ length t ∧ length t ≤ 100
            ∧ Forall (λ x, (ch "a" ≤ x ∧ x ≤ ch "z")%N
                           ∨ x ∈ u " ,;:-®()/") t)).

End FurtherNotions.

(** A small text with its contents, and sections of every kind, for the
    examples. *)

Definition small_text : list pystr :=
  u <$> ["Contents"; "01 Greetings"; "5"; "A1 Sounds"; "Core Dictionary";
         "590"; "Introduction"; "This book is about Croatian.";
         "Introduction"; "Croatian is spoken in Croatia."; "";
         "01 Greetings"; "Dobar dan. Good day."; "čitati read";
         "• Exercise"; "Fill in:"; "Ana ____ knjigu."; "Check answers";
         "A1 Sounds"; "The letter č is a sound.";
         "Core Dictionary"; "A"; "B"; "C"; "Č"; "Ć";
         "brat m brother."]%string.

Definition small_sections : list Section :=
  [ {| sec_id := u "02"; sec_title := u "Two"; sec_page_start := Some 9%Z;
       sec_lines := u <$> ["pisati write"; "Ana piše. Ana is writing."]%string |};
    {| sec_id := u "CORE"; sec_title := u "Core Dictionary";
       sec_page_start := None; sec_lines := [u "brat m brother"] |};
    {| sec_id := u "A1"; sec_title := u "Sounds"; sec_page_start := None;
       sec_lines := [u "The letter č."] |};
    {| sec_id := u "01"; sec_title := u "One"; sec_page_start := Some 5%Z;
       sec_lines := [u "čitati read"] |};
    {| sec_id := u "CORE"; sec_title := u "Core Dictionary";
       sec_page_start := None; sec_lines := [u "sestra f sister"] |} ].

(** * Properties *)

Section Footers.
Context {rt : Runtime}.

(** ** Footer stripping *)

Lemma drop_while_length {A} (p : A → bool) (l : list A) :
  length (drop_while p l) ≤ length l.
Proof. induction l as [|x l IH]; simpl; [lia|]. destruct (p x); simpl; lia. Qed.

Lemma after_footer_length rest : length (after_footer rest) ≤ length rest.
Proof.
  unfold after_footer. pose proof (drop_while_length blank rest) as H.
  destruct (drop_while blank rest) as [|p rest']; simpl in *; [lia|].
  destruct (is_page_line p); simpl; lia.
Qed.

Lemma strip_footers_from_step fuel l rest :
  strip_footers_from (S fuel) (l :: rest) =
  if is_footer l then strip_footers_from fuel (after_footer rest)
  else l :: strip_footers_from fuel rest.
Proof.
  simpl. destruct (is_footer l); [|done]. unfold after_footer.
  destruct (drop_while blank rest) as [|p rest']; [by destruct fuel|].
  by destruct (is_page_line p).
Qed.

(** More fuel than lines changes nothing. *)
Lemma strip_footers_from_fuel fuel lines :
  length lines ≤ fuel →
  strip_footers_from fuel lines = strip_footers_from (length lines) lines.
Proof.
  revert lines. induction (lt_wf fuel) as [fuel _ IH]. intros lines Hlen.
  destruct lines as [|l rest]; [by destruct fuel|].
  destruct fuel as [|fuel]; [simpl in Hlen; lia|].
  simpl length. rewrite !strip_footers_from_step. simpl in Hlen.
  pose proof (after_footer_length rest).
  destruct (is_footer l).
  - rewrite (IH fuel) by lia. symmetry. apply IH; lia.
  - f_equal. apply IH; lia.
Qed.

(** The loop of [strip_footers], one round at a time. *)
Lemma strip_footers_cons l rest :
  strip_footers (l :: rest) =
  if is_footer l then strip_footers (after_footer rest)
  else l :: strip_footers rest.
Proof.
  unfold strip_footers. simpl length. rewrite strip_footers_from_step.
  destruct (is_footer l); [|done].
  apply strip_footers_from_fuel, after_footer_length.
Qed.

(** Induction along the rounds of the loop. *)
Lemma strip_footers_rounds (P : list pystr → Prop) :
  P [] →
  (∀ l rest, is_footer l = true → P (after_footer rest) → P (l :: rest)) →
  (∀ l rest, is_footer l = false → P rest → P (l :: rest)) →
  ∀ lines, P lines.
Proof.
  intros Hnil Hfooter Hkeep lines.
  remember (length lines) as n eqn:Hn. revert lines Hn.
  induction (lt_wf n) as [n _ IH]. intros [|l rest] Hn; [done|].
  simpl in Hn. destruct (is_footer l) eqn:Hl.
  - apply Hfooter; [done|]. pose proof (after_footer_length rest).
    eapply IH; [|done]. lia.
  - apply Hkeep; [done|]. eapply IH; [|done]. lia.
Qed.

Lemma strip_footers_no_footer lines :
  Forall (λ l, is_footer l = false) lines → strip_footers lines = lines.
Proof.
  induction 1 as [|l rest Hl _ IH]; [done|].
  by rewrite strip_footers_cons, Hl, IH.
Qed.

Lemma strip_footers_kept lines :
  Forall (λ l, is_footer l = false) (strip_footers lines).
Proof.
  induction lines as [|l rest Hl IH|l rest Hl IH] using strip_footers_rounds;
    [constructor|..]; rewrite strip_footers_cons, Hl; [done|by constructor].
Qed.

(** A page counter is no blank line. *)
Lemma page_line_not_blank p : is_page_line p = true → blank p = false.
Proof.
  unfold is_page_line, blank. destruct (strip p); [|done].
  intros H. exfalso. revert H. by vm_compute.
Qed.

Lemma footers_removed_after l rest out :
  is_footer l = true →
  footers_removed (after_footer rest) out →
  footers_removed (l :: rest) out.
Proof.
  intros Hl. unfold after_footer.
  assert (∀ blanks, Forall (λ b, blank b = true) blanks →
    footers_removed
      match drop_while blank rest with
      | [] => []
      | p :: rest' => if is_page_line p then rest' else p :: rest'
      end out →
    footers_removed (l :: blanks ++ rest) out) as H;
    [|intros; by apply (H [])].
  induction rest as [|r rest IH]; intros blanks Hb; simpl.
  - intros Hout. by apply removed_footer.
  - destruct (blank r) eqn:Hr.
    + intros Hout. replace (blanks ++ r :: rest) with ((blanks ++ [r]) ++ rest)
        by by rewrite <- app_assoc.
      apply IH; [|done]. apply Forall_app; split; [done|by constructor].
    + destruct (is_page_line r) eqn:Hp; intros Hout.
      * by apply removed_footer_counter.
      * by apply removed_footer.
Qed.

Lemma strip_footers_removes lines : footers_removed lines (strip_footers lines).
Proof.
  induction lines as [|l rest Hl IH|l rest Hl IH] using strip_footers_rounds;
    [constructor|..]; rewrite strip_footers_cons, Hl.
  - by apply footers_removed_after.
  - by constructor.
Qed.

(** The relation has one result only, so it says what [strip_footers]
    returns and nothing less. *)
Lemma blanks_split (b1 b2 r1 r2 : list pystr) :
  Forall (λ b, blank b = true) b1 → Forall (λ b, blank b = true) b2 →
  match r1 with [] => True | r :: _ => blank r = false end →
  match r2 with [] => True | r :: _ => blank r = false end →
  b1 ++ r1 = b2 ++ r2 → b1 = b2 ∧ r1 = r2.
Proof.
  intros H1. revert b2. induction H1 as [|x b1 Hx _ IH]; intros b2 H2 Hr1 Hr2 Heq.
  - destruct H2 as [|y b2 Hy _]; [done|]. simpl in Heq. subst r1. congruence.
  - destruct H2 as [|y b2 Hy H2]; simpl in Heq.
    + subst r2. congruence.
    + injection Heq as -> Heq. destruct (IH b2 H2 Hr1 Hr2 Heq) as [-> ->]. done.
Qed.

Lemma footers_removed_functional lines out1 out2 :
  footers_removed lines out1 → footers_removed lines out2 → out1 = out2.
Proof.
  intros H1. revert out2.
  induction H1 as [|l rest out Hl _ IH|l blanks rest out Hl Hb Hr _ IH
                  |l blanks p rest out Hl Hb Hp _ IH]; intros out2 H2.
  - by inversion H2.
  - inversion H2; subst; try congruence. f_equal. by apply IH.
  - inversion H2 as [|? ? ? Hl'|? blanks' rest' ? ? Hb' Hr' Hout' Heq
                    |? blanks' p' rest' ? ? Hb' Hp' Hout' Heq]; subst;
      try congruence.
    + destruct (blanks_split blanks blanks' rest rest') as [-> ->]; try done.
      * by destruct rest as [|? ?]; [|destruct Hr].
      * by destruct rest' as [|? ?]; [|destruct Hr'].
      * by apply IH.
    + destruct (blanks_split blanks blanks' rest (p' :: rest')) as [-> ->];
        try done.
      * by destruct rest as [|? ?]; [|destruct Hr].
      * by apply page_line_not_blank.
      * destruct Hr. congruence.
  - inversion H2 as [|? ? ? Hl'|? blanks' rest' ? ? Hb' Hr' Hout' Heq
                    |? blanks' p' rest' ? ? Hb' Hp' Hout' Heq]; subst;
      try congruence.
    + destruct (blanks_split blanks blanks' (p :: rest) rest') as [-> <-];
        try done.
      * by apply page_line_not_blank.
      * by destruct rest' as [|? ?]; [|destruct Hr'].
      * destruct Hr'. congruence.
    + destruct (blanks_split blanks blanks' (p :: rest) (p' :: rest'))
        as [-> [= -> ->]]; try done; try by apply page_line_not_blank.
      by apply IH.
Qed.

Lemma footers_removed_sublist lines out :
  footers_removed lines out → sublist out lines.
Proof.
  induction 1 as [|l rest out Hl _ IH|l blanks rest out Hl Hb Hr _ IH
                 |l blanks p rest out Hl Hb Hp _ IH].
  - constructor.
  - by constructor.
  - apply sublist_cons. etrans; [done|]. apply sublist_inserts_l. done.
  - apply sublist_cons. etrans; [done|].
    apply sublist_inserts_l, sublist_cons. done.
Qed.

End Footers.

Section Splitting.
Context {rt : Runtime}.

(** ** Section splitting *)

Lemma blocks_snoc hs h n :
  blocks (hs ++ [h]) n = blocks hs h ++ [(h, n)].
Proof.
  induction hs as [|h' hs IH]; [done|]. simpl. rewrite IH. f_equal.
  by destruct hs.
Qed.

Lemma blocks_length hs n : length (blocks hs n) = length hs.
Proof. induction hs; simpl; by f_equal. Qed.

Lemma slice_snoc {A} (l : list A) (a b : nat) (d : A) :
  a ≤ b → b < length l → slice a (S b) l = slice a b l ++ [nth b l d].
Proof.
  intros Hab Hb. unfold slice.
  replace (S b - a) with (S (b - a)) by lia.
  assert (drop a l !! (b - a) = Some (nth b l d)) as Hlook.
  { rewrite lookup_drop. replace (a + (b - a)) with b by lia.
    destruct (nth_lookup_or_length l b d); [done|lia]. }
  by rewrite (take_S_r _ _ _ Hlook).
Qed.

Lemma slice_empty {A} (l : list A) (a : nat) : slice a a l = [].
Proof. unfold slice. by rewrite Nat.sub_diag. Qed.

Lemma split_inv_close raw_lines toc m hs st :
  split_inv raw_lines toc m hs st →
  Forall2 (λ s b, section_at raw_lines toc b = Some s) (close st) (blocks hs m).
Proof.
  unfold split_inv, close. destruct st as [secs [current|]]; simpl.
  - intros (hs' & h & -> & _ & Hsecs & Hcur). rewrite blocks_snoc.
    apply Forall2_app; [done|]. by repeat constructor.
  - intros [-> ->]. constructor.
Qed.

Lemma split_inv_step raw_lines toc m hs st :
  m < length raw_lines →
  split_inv raw_lines toc m hs st →
  split_inv raw_lines toc (S m)
    (hs ++ filter (λ i, is_Some (header_at raw_lines toc i)) [m])
    (split_step raw_lines toc st m).
Proof.
  intros Hm Hinv. unfold split_step. fold (header_at raw_lines toc m).
  rewrite filter_cons, filter_nil.
  destruct (header_at raw_lines toc m) as [[[sid title] page]|] eqn:Hh.
  - rewrite decide_True by done.
    unfold split_inv; simpl. exists hs, m. split_and!; [done|lia| |].
    + by apply split_inv_close.
    + unfold section_at; simpl. by rewrite Hh, slice_empty.
  - rewrite decide_False by (by intros [? ?]). rewrite app_nil_r.
    unfold split_inv in *. destruct st as [secs [current|]]; simpl in *; [|done].
    destruct Hinv as (hs' & h & -> & Hlt & Hsecs & Hcur).
    exists hs', h. split_and!; [done|lia|done|].
    unfold section_at in *; simpl in *.
    destruct (header_at raw_lines toc h) as [[[sid title] page]|]; [|done].
    injection Hcur as <-. unfold add_line; simpl. do 2 f_equal.
    rewrite (slice_snoc _ _ _ []) by lia. by rewrite fmap_app.
Qed.

Lemma split_inv_run raw_lines toc start k :
  start + k ≤ length raw_lines →
  split_inv raw_lines toc (start + k)
    (filter (λ i, is_Some (header_at raw_lines toc i)) (seq start k))
    (foldl (split_step raw_lines toc) ([], None) (seq start k)).
Proof.
  induction k as [|k IH]; intros Hk.
  - by unfold split_inv.
  - rewrite seq_S, filter_app, foldl_app. simpl foldl.
    replace (start + S k) with (S (start + k)) by lia.
    apply split_inv_step; [lia|]. apply IH. lia.
Qed.

(** The sections are the blocks of lines between one header and the next. *)
Lemma split_into_sections_blocks raw_lines toc :
  Forall2 (λ s b, section_at raw_lines toc b = Some s)
    (split_into_sections raw_lines toc)
    (blocks (header_positions raw_lines toc) (length raw_lines)).
Proof.
  unfold split_into_sections, header_positions.
  set (cs := find_content_start raw_lines 0 0).
  destruct (decide (cs ≤ length raw_lines)) as [Hle|Hgt].
  - pose proof (split_inv_run raw_lines toc cs (length raw_lines - cs)) as H.
    replace (cs + (length raw_lines - cs)) with (length raw_lines) in H by lia.
    apply split_inv_close, H. lia.
  - replace (length raw_lines - cs) with 0 by lia. simpl. constructor.
Qed.

(** A header comes with an entry of the table of contents. *)
Lemma first_some_Some {A B} (f : A → option B) (l : list A) (y : B) :
  first_some f l = Some y → ∃ x, x ∈ l ∧ f x = Some y.
Proof.
  induction l as [|x l IH]; simpl; [done|].
  destruct (f x) as [y'|] eqn:Hx.
  - intros [= ->]. exists x. split; [left|done].
  - intros (x' & Hin & Hx')%IH. exists x'. split; [by right|done].
Qed.

Lemma first_some_None {A B} (f : A → option B) (l : list A) :
  (∀ x, f x = None) → first_some f l = None.
Proof. intros H. induction l as [|x l IH]; simpl; [done|]. by rewrite H. Qed.

Lemma is_known_header_toc toc stripped_line prev_lines sid title page :
  is_known_header toc stripped_line prev_lines = Some (sid, title, page) →
  ∃ info, toc !! sid = Some info ∧ page = toc_page info ∧
    (title = toc_title info ∨ sid = u "CORE" ∧ title = u "Core Dictionary").
Proof.
  unfold is_known_header.
  destruct (match drop_while blank (rev (last5 prev_lines)) with
            | [] => false | prev :: _ => _ end); [done|].
  destruct (first_some _ _) as [h|] eqn:Hfirst.
  - intros [= ->]. apply first_some_Some in Hfirst as (pat & _ & Hpat).
    unfold header_of in Hpat.
    destruct (re_match false pat stripped_line) as [m|]; [|done].
    destruct (toc !! group m 1) as [info|] eqn:Hinfo; [|done].
    destruct (_ || _); [|done]. injection Hpat as <- <- <-.
    exists info. split_and!; [done|done|by left].
  - destruct (matches false CORE_DICT_RE stripped_line); [|done].
    destruct (toc !! u "CORE") as [info|] eqn:Hinfo; [|done].
    intros [= <- <- <-]. exists info. split_and!; [done|done|by right].
Qed.

Lemma is_known_header_empty stripped_line prev_lines :
  is_known_header ∅ stripped_line prev_lines = None.
Proof.
  destruct (is_known_header ∅ stripped_line prev_lines) as [[[sid title] page]|]
    eqn:H; [|done].
  apply is_known_header_toc in H as (info & Hinfo & _).
  by rewrite lookup_empty in Hinfo.
Qed.

Lemma section_at_toc raw_lines toc b s :
  section_at raw_lines toc b = Some s →
  ∃ info, toc !! sec_id s = Some info ∧ sec_page_start s = toc_page info ∧
    (sec_title s = toc_title info
     ∨ sec_id s = u "CORE" ∧ sec_title s = u "Core Dictionary").
Proof.
  unfold section_at, header_at.
  destruct (is_known_header _ _ _) as [[[sid title] page]|] eqn:H; [|done].
  intros [= <-]. simpl. by eapply is_known_header_toc.
Qed.

Lemma split_into_sections_toc raw_lines toc :
  Forall (λ s, ∃ info, toc !! sec_id s = Some info ∧
                 sec_page_start s = toc_page info ∧
                 (sec_title s = toc_title info
                  ∨ sec_id s = u "CORE" ∧ sec_title s = u "Core Dictionary"))
         (split_into_sections raw_lines toc).
Proof.
  pose proof (split_into_sections_blocks raw_lines toc) as H.
  induction H as [|s b secs bs Hs _ IH]; constructor; [|done].
  by eapply section_at_toc.
Qed.

Lemma split_into_sections_empty raw_lines :
  split_into_sections raw_lines ∅ = [].
Proof.
  pose proof (split_into_sections_toc raw_lines ∅) as H.
  destruct (split_into_sections raw_lines ∅) as [|s secs]; [done|].
  apply Forall_cons in H as [(info & Hinfo & _) _].
  by rewrite lookup_empty in Hinfo.
Qed.

Lemma parse_toc_no_contents raw_lines :
  Forall (λ line, strip line ≠ u "Contents") raw_lines →
  parse_toc raw_lines = Ok ∅.
Proof.
  intros H. unfold parse_toc.
  by rewrite (proj2 (list_find_None _ _) H).
Qed.

End Splitting.

Section Blocks.
Context {rt : Runtime}.

(** The header positions go up, and lie from the content start on. *)
Lemma seq_sorted j n : StronglySorted lt (seq j n).
Proof.
  revert j. induction n as [|n IH]; intros j; simpl; constructor; [apply IH|].
  apply Forall_forall. intros i Hi%list_elem_of_In%in_seq. lia.
Qed.

Lemma filter_sorted (P : nat → Prop) `{∀ i, Decision (P i)} l :
  StronglySorted lt l → StronglySorted lt (filter P l).
Proof.
  induction 1 as [|x l Hl IH Hx]; [constructor|].
  rewrite filter_cons. destruct (decide (P x)); [|done].
  constructor; [done|]. apply Forall_forall.
  intros y [_ Hy]%list_elem_of_filter. rewrite Forall_forall in Hx. by apply Hx.
Qed.

Lemma header_positions_sorted raw_lines toc :
  StronglySorted lt (header_positions raw_lines toc).
Proof. apply filter_sorted, seq_sorted. Qed.

Lemma header_positions_spec raw_lines toc i :
  i ∈ header_positions raw_lines toc ↔
  find_content_start raw_lines 0 0 ≤ i < length raw_lines
  ∧ is_Some (header_at raw_lines toc i).
Proof.
  unfold header_positions. rewrite list_elem_of_filter, list_elem_of_In, in_seq.
  split; intros [? ?]; split; try done; lia.
Qed.

(** The blocks of ascending positions lie one after the other. *)
Lemma blocks_in hs n b :
  StronglySorted lt hs → Forall (λ h, h < n) hs →
  b ∈ blocks hs n → b.1 ∈ hs ∧ b.1 < b.2 ≤ n.
Proof.
  induction 1 as [|h hs Hs IH Hh]; intros Hn Hb; simpl in *.
  - by apply elem_of_nil in Hb.
  - apply Forall_cons in Hn as [Hhn Hn].
    apply elem_of_cons in Hb as [->|Hb].
    + simpl. split; [left|]. destruct hs as [|h' hs]; simpl; [lia|].
      apply Forall_cons in Hh as [? _]. apply Forall_cons in Hn as [? _]. lia.
    + destruct (IH Hn Hb). split; [by right|done].
Qed.

Lemma blocks_apart hs n k1 k2 b1 b2 :
  StronglySorted lt hs → Forall (λ h, h < n) hs →
  blocks hs n !! k1 = Some b1 → blocks hs n !! k2 = Some b2 →
  k1 < k2 → b1.2 ≤ b2.1.
Proof.
  intros Hs. revert k1 k2. induction Hs as [|h hs Hs IH Hh]; intros k1 k2 Hn H1 H2 Hk.
  - done.
  - apply Forall_cons in Hn as [Hhn Hn].
    destruct k2 as [|k2]; [lia|]. simpl in H2.
    destruct k1 as [|k1]; simpl in H1.
    + injection H1 as <-. simpl.
      apply list_elem_of_lookup_2, (blocks_in _ _ _ Hs Hn) in H2 as [Hin _].
      destruct hs as [|h' hs]; [by apply elem_of_nil in Hin|]. simpl.
      apply elem_of_cons in Hin as [->|Hin]; [done|].
      apply StronglySorted_inv in Hs as [_ Hh'].
      rewrite Forall_forall in Hh'. specialize (Hh' _ Hin). lia.
    + eapply IH; [done|done|done|lia].
Qed.

(** A line from the first header on is a header or lies in a block. *)
Lemma blocks_cover hs n i :
  StronglySorted lt hs → Forall (λ h, h < n) hs → i < n → i ∉ hs →
  (∀ h, h ∈ hs → i < h) ∨ ∃ b, b ∈ blocks hs n ∧ b.1 < i < b.2.
Proof.
  induction 1 as [|h hs Hs IH Hh]; intros Hn Hi Hnot.
  - left. intros h Hin. by apply elem_of_nil in Hin.
  - apply Forall_cons in Hn as [Hhn Hn].
    apply not_elem_of_cons in Hnot as [Hne Hnot].
    destruct (IH Hn Hi Hnot) as [Hall|(b & Hb & Hin)].
    + destruct (decide (i < h)) as [Hlt|Hge].
      * left. intros h' [->|Hin]%elem_of_cons; [done|by apply Hall].
      * right. exists (h, hd n hs). split; [left|]. simpl. split; [lia|].
        destruct hs as [|h' hs]; simpl; [done|]. apply Hall. left.
    + right. exists b. split; [by right|done].
Qed.

End Blocks.

Section Semantics.
Context {rt : Runtime}.

(** ** What a match is

    [matching ic r cur gs cur' gs']: the pattern [r] matches the subject
    from the cursor [cur] to the cursor [cur'], and the groups [gs]
    become [gs'].  The matcher finds matches in this sense only. *)

Lemma one_sound p cur gs (k : conts) res :
  one p cur gs k = Some res →
  ∃ c cur', advance cur = Some (c, cur') ∧ p c = true ∧ k cur' gs = Some res.
Proof.
  unfold one. destruct (advance cur) as [[c cur']|]; [|done].
  destruct (p c) eqn:Hp; [|done]. intros H. by exists c, cur'.
Qed.

Lemma rounds_sound body rel lo hi greedy (k : conts) :
  sound_for body rel →
  ∀ fuel n cur gs res,
    rounds body lo hi greedy k fuel n cur gs = Some res →
    ∃ cur' gs', repeats rel lo hi n cur gs cur' gs' ∧ k cur' gs' = Some res.
Proof.
  intros Hbody.
  assert (∀ n cur gs res,
      (if lo <=? n then k cur gs else None) = Some res →
      ∃ cur2 gs2, repeats rel lo hi n cur gs cur2 gs2 ∧ k cur2 gs2 = Some res)
      as Hstop.
  { intros n cur gs res. destruct (lo <=? n) eqn:Hlo; [|done].
    intros Hk. exists cur, gs. split; [|done].
    apply repeats_stop. by apply Nat.leb_le. }
  induction fuel as [|fuel IH]; intros n cur gs res.
  - simpl. destruct greedy; [apply Hstop|].
    destruct (if lo <=? n then _ else None) as [res'|] eqn:Hs; [|done].
    intros [= <-]. by apply Hstop.
  - assert (∀ res,
      (if below n hi
       then body cur gs
            (λ cur' gs', rounds body lo hi greedy k fuel (S n) cur' gs')
       else None) = Some res →
      ∃ cur2 gs2, repeats rel lo hi n cur gs cur2 gs2 ∧ k cur2 gs2 = Some res)
      as Hmore.
    { intros res'. destruct (below n hi) eqn:Hhi; [|done].
      intros (cur1 & gs1 & Hrel & Hrest)%Hbody.
      apply IH in Hrest as (cur2 & gs2 & Hrep & Hk).
      exists cur2, gs2. split; [|done]. by eapply repeats_more. }
    simpl. destruct greedy.
    + destruct (if below n hi then _ else None) as [res'|] eqn:Hm.
      * intros [= <-]. by apply Hmore.
      * apply Hstop.
    + destruct (if lo <=? n then _ else None) as [res'|] eqn:Hs.
      * intros [= <-]. by apply Hstop.
      * apply Hmore.
Qed.

(** The matcher is sound: what it returns comes from a match. *)
Lemma exec_sound ic r : sound_for (exec ic r) (matching ic r).
Proof.
  induction r as [|x| |items|items|r1 IH1 r2 IH2|r1 IH1 r2 IH2
                 |lo hi greedy r IH|n r IH| | |]; intros cur gs k res; simpl.
  - intros Hk. exists cur, gs. split; [constructor|done].
  - intros (c & cur' & Ha & Hp & Hk)%one_sound. exists cur', gs.
    split; [by econstructor|done].
  - intros (c & cur' & Ha & Hp & Hk)%one_sound. exists cur', gs.
    split; [|done]. econstructor; [done|].
    intros ->. done.
  - intros (c & cur' & Ha & Hp & Hk)%one_sound. exists cur', gs.
    split; [by econstructor|done].
  - intros (c & cur' & Ha & Hp & Hk)%one_sound. exists cur', gs.
    split; [|done]. econstructor; [done|]. by apply negb_true_iff.
  - intros (cur1 & gs1 & H1 & (cur' & gs' & H2 & Hk)%IH2)%IH1.
    exists cur', gs'. split; [by econstructor|done].
  - destruct (exec ic r1 cur gs k) as [res'|] eqn:H1.
    + intros [= <-]. apply IH1 in H1 as (cur' & gs' & ? & ?).
      exists cur', gs'. split; [by apply matching_alt_l|done].
    + intros (cur' & gs' & ? & ?)%IH2.
      exists cur', gs'. split; [by apply matching_alt_r|done].
  - intros (cur' & gs' & ? & ?)%(rounds_sound _ _ _ _ _ _ IH).
    exists cur', gs'. split; [by constructor|done].
  - intros (cur' & gs' & H & Hk)%IH.
    exists cur', ((n, (c_pos cur, c_pos cur')) :: gs'). split; [by constructor|done].
  - destruct (c_pos cur =? 0) eqn:Hp; [|done]. intros Hk.
    exists cur, gs. split; [|done]. constructor. by apply Nat.eqb_eq.
  - destruct (at_eos cur) eqn:Hp; [|done]. intros Hk.
    exists cur, gs. split; [by constructor|done].
  - destruct (at_boundary cur) eqn:Hp; [|done]. intros Hk.
    exists cur, gs. split; [by constructor|done].
Qed.

(** A match object comes from a match of the pattern. *)
Lemma match_at_sound ic r s cur m :
  match_at ic r s cur = Some m →
  ∃ cur', matching ic r cur [] cur' (m_groups m) ∧
    m_subject m = s ∧ m_start m = c_pos cur ∧ m_end m = c_pos cur'.
Proof.
  unfold match_at.
  destruct (exec ic r cur [] _) as [[cur' gs]|] eqn:He; [|done].
  intros [= <-]. apply exec_sound in He as (cur2 & gs2 & Hm & [= <- <-]).
  by exists cur2.
Qed.

Lemma re_match_sound ic r s m :
  re_match ic r s = Some m →
  ∃ cur', matching ic r (start_of s) [] cur' (m_groups m) ∧
    m_subject m = s ∧ m_start m = 0 ∧ m_end m = c_pos cur'.
Proof. apply match_at_sound. Qed.

Lemma cursor_at_start s : cursor_at s 0 (start_of s).
Proof. unfold cursor_at. simpl. split_and!; [done|done|lia]. Qed.

Lemma cursor_at_advance s i cur c cur' :
  cursor_at s i cur → advance cur = Some (c, cur') →
  cursor_at s (S i) cur' ∧ s !! i = Some c.
Proof.
  intros (Hpos & Hrest & Hlen). unfold advance.
  destruct (c_rest cur) as [|c' rest] eqn:Hr; [done|]. intros [= -> <-].
  assert (s !! i = Some c) as Hlook.
  { rewrite <- (Nat.add_0_r i), <- lookup_drop, <- Hrest. done. }
  split; [|done]. unfold cursor_at; simpl. split_and!; [by rewrite Hpos| |].
  - by rewrite (drop_S _ _ _ Hlook) in Hrest; injection Hrest.
  - by apply lookup_lt_Some in Hlook.
Qed.

Lemma re_search_sound ic r s m :
  re_search ic r s = Some m →
  ∃ cur cur', cursor_at s (m_start m) cur ∧
    matching ic r cur [] cur' (m_groups m) ∧
    m_subject m = s ∧ m_end m = c_pos cur'.
Proof.
  unfold re_search.
  assert (∀ fuel i cur, cursor_at s i cur →
    search_from ic r s fuel cur = Some m →
    ∃ cur0 cur', cursor_at s (m_start m) cur0 ∧
      matching ic r cur0 [] cur' (m_groups m) ∧
      m_subject m = s ∧ m_end m = c_pos cur') as H;
    [|intros Hs; eapply (H _ 0); [apply cursor_at_start|done]].
  induction fuel as [|fuel IH]; intros i cur Hcur; simpl.
  - destruct (match_at ic r s cur) as [m'|] eqn:Hm; [|done].
    intros [= ->]. apply match_at_sound in Hm as (cur' & ? & ? & Hs & ?).
    exists cur, cur'. destruct Hcur as (Hp & ? & ?). rewrite Hs, Hp.
    by unfold cursor_at.
  - destruct (match_at ic r s cur) as [m'|] eqn:Hm.
    + intros [= ->]. apply match_at_sound in Hm as (cur' & ? & ? & Hs & ?).
      exists cur, cur'. destruct Hcur as (Hp & ? & ?). rewrite Hs, Hp.
      by unfold cursor_at.
    + destruct (advance cur) as [[c cur1]|] eqn:Ha; [|done].
      apply (IH (S i)). by eapply cursor_at_advance.
Qed.

Lemma repeats_groups ic r lo hi :
  sets_own_groups ic r →
  ∀ n cur gs cur' gs',
    repeats (matching ic r) lo hi n cur gs cur' gs' →
    ∃ new, gs' = new ++ gs ∧ Forall (λ g, g.1 ∈ groups_of r) new.
Proof.
  intros Hr n cur gs cur' gs' Hrep.
  induction Hrep as [n cur gs Hlo|n cur gs cur1 gs1 cur' gs' Hhi Hb _ IH].
  - exists []. by split.
  - destruct (Hr _ _ _ _ Hb) as (new1 & -> & Hn1).
    destruct IH as (new2 & -> & Hn2).
    exists (new2 ++ new1). split; [by rewrite app_assoc|]. by apply Forall_app.
Qed.

Lemma matching_groups ic r : sets_own_groups ic r.
Proof.
  induction r as [|x| |items|items|r1 IH1 r2 IH2|r1 IH1 r2 IH2
                 |lo hi greedy r IH|n r IH| | |];
    intros cur gs cur' gs' Hm; inversion Hm; subst; simpl;
    try (exists []; by split).
  - match goal with H1 : matching _ r1 _ _ _ _, H2 : matching _ r2 _ _ _ _ |- _ =>
      destruct (IH1 _ _ _ _ H1) as (new1 & -> & Hn1);
      destruct (IH2 _ _ _ _ H2) as (new2 & -> & Hn2)
    end.
    exists (new2 ++ new1). split; [by rewrite app_assoc|].
    apply Forall_app; split; eapply Forall_impl; try done;
      intros g Hg; apply elem_of_app; auto.
  - match goal with H1 : matching _ r1 _ _ _ _ |- _ =>
      destruct (IH1 _ _ _ _ H1) as (new1 & -> & Hn1) end.
    exists new1. split; [done|].
    eapply Forall_impl; [done|]. intros g Hg; apply elem_of_app; auto.
  - match goal with H2 : matching _ r2 _ _ _ _ |- _ =>
      destruct (IH2 _ _ _ _ H2) as (new1 & -> & Hn1) end.
    exists new1. split; [done|].
    eapply Forall_impl; [done|]. intros g Hg; apply elem_of_app; auto.
  - by eapply repeats_groups.
  - match goal with H1 : matching _ r _ _ _ _ |- _ =>
      destruct (IH _ _ _ _ H1) as (new1 & -> & Hn1) end.
    exists ((n, (c_pos cur, c_pos cur')) :: new1). split; [done|].
    constructor; [left|]. eapply Forall_impl; [done|].
    intros g Hg. by right.
Qed.

(** A pattern without groups leaves the spans as they are. *)
Lemma matching_no_groups ic r cur gs cur' gs' :
  groups_of r = [] → matching ic r cur gs cur' gs' → gs' = gs.
Proof.
  intros Hg (new & -> & Hnew)%matching_groups. rewrite Hg in Hnew.
  destruct Hnew as [|g new Hin _]; [done|]. by apply elem_of_nil in Hin.
Qed.

Lemma repeats_cursor ic r lo hi s :
  moves_forward ic r →
  ∀ n i cur gs cur' gs',
    repeats (matching ic r) lo hi n cur gs cur' gs' → cursor_at s i cur →
    ∃ j, i ≤ j ∧ cursor_at s j cur'.
Proof.
  intros Hr n i cur gs cur' gs' Hrep. revert i.
  induction Hrep as [n cur gs Hlo|n cur gs cur1 gs1 cur' gs' Hhi Hb _ IH];
    intros i Hcur.
  - by exists i.
  - destruct (Hr _ _ _ _ _ _ Hb Hcur) as (j & Hij & Hj).
    destruct (IH _ Hj) as (j' & Hjj & Hj').
    exists j'; split; [lia|done].
Qed.

Lemma matching_cursor ic r : moves_forward ic r.
Proof.
  induction r as [|x| |items|items|r1 IH1 r2 IH2|r1 IH1 r2 IH2
                 |lo hi greedy r IH|n r IH| | |];
    intros s i cur gs cur' gs' Hm Hcur; inversion Hm; subst; simpl;
    try (by exists i);
    try (exists (S i); split; [lia|by eapply cursor_at_advance]).
  - match goal with H1 : matching _ r1 _ _ _ _, H2 : matching _ r2 _ _ _ _ |- _ =>
      destruct (IH1 _ _ _ _ _ _ H1 Hcur) as (j & Hij & Hj);
      destruct (IH2 _ _ _ _ _ _ H2 Hj) as (j' & Hjj & Hj')
    end.
    exists j'; split; [lia|done].
  - by eapply IH1.
  - by eapply IH2.
  - by eapply repeats_cursor.
  - by eapply IH.
Qed.

(** A span of a group the later patterns do not set stays. *)
Lemma span_of_app_other new gs n :
  Forall (λ g, g.1 ≠ n) new → span_of (new ++ gs) n = span_of gs n.
Proof.
  induction 1 as [|[m sp] new Hg _ IH]; [done|]. simpl in *.
  by rewrite (proj2 (Nat.eqb_neq m n) Hg).
Qed.

End Semantics.

(** ** The section ids the header patterns give *)

Section HeaderIds.
Context {rt : Runtime}.

Lemma advance_start s c cur :
  advance (start_of s) = Some (c, cur) →
  ∃ rest, s = c :: rest ∧ cur = Cursor 1 (Some c) rest.
Proof.
  unfold advance, start_of; simpl. destruct s as [|c' rest]; [done|].
  intros [= -> <-]. by exists rest.
Qed.

Lemma advance_cursor i p s c cur :
  advance (Cursor i p s) = Some (c, cur) →
  ∃ rest, s = c :: rest ∧ cur = Cursor (S i) (Some c) rest.
Proof.
  unfold advance; simpl. destruct s as [|c' rest]; [done|].
  intros [= -> <-]. by exists rest.
Qed.

Lemma digit_set c : set_has false [CDigit] c = true → is_decimal c = true.
Proof. unfold set_has. simpl. by rewrite orb_false_r. Qed.

Lemma lesson_id_shape s m :
  re_match false LESSON_ID_RE s = Some m →
  ∃ d1 d2, group m 1 = [d1; d2] ∧ is_decimal d1 = true ∧ is_decimal d2 = true.
Proof.
  intros (cur' & Hm & Hsub & Hst & Hen)%re_match_sound.
  normalise_pattern LESSON_ID_RE Hm. invert_matching.
  match goal with H : matching _ (Rep _ _ _ _) (start_of _) _ _ _ |- _ =>
    invert H end.
  match goal with H : repeats _ _ _ 0 _ _ _ _ |- _ => invert H; [lia|] end.
  match goal with H : repeats _ _ _ 1 _ _ _ _ |- _ => invert H; [lia|] end.
  match goal with H : repeats _ _ _ 2 _ _ _ _ |- _ => invert H end;
    [|match goal with H : below 2 _ = true |- _ => by vm_compute in H end].
  invert_matching.
  repeat match goal with
  | H : advance (start_of _) = Some _ |- _ =>
    apply advance_start in H as (? & ? & ->)
  | H : advance (Cursor _ _ _) = Some _ |- _ =>
    apply advance_cursor in H as (? & -> & ->)
  end.
  match goal with H : matching _ (Rep _ _ _ AnyChar) _ _ _ _ |- _ =>
    apply matching_no_groups in H; [|done] end.
  destruct m as [subj st en gs]; simpl in *. subst.
  match goal with
  | H1 : set_has false [CDigit] ?d1 = true,
    H2 : set_has false [CDigit] ?d2 = true |- _ =>
    exists d2, d1; split_and!; [done|by apply digit_set..]
  end.
Qed.

End HeaderIds.

Section IdShapes.
Context {rt : Runtime}.

Lemma appendix_id_shape s m :
  re_match false APPENDIX_ID_RE s = Some m →
  ∃ d, group m 1 = [ch "A"; d] ∧ is_decimal d = true.
Proof.
  intros (cur' & Hm & Hsub & Hst & Hen)%re_match_sound.
  normalise_pattern APPENDIX_ID_RE Hm. invert_matching.
  repeat match goal with
  | H : advance (start_of _) = Some _ |- _ =>
    apply advance_start in H as (? & ? & ->)
  | H : advance (Cursor _ _ _) = Some _ |- _ =>
    apply advance_cursor in H as (? & -> & ->)
  end.
  match goal with H : matching _ (Rep _ _ _ AnyChar) _ _ _ _ |- _ =>
    apply matching_no_groups in H; [|done] end.
  destruct m as [subj st en gs]; simpl in *. subst.
  match goal with
  | H1 : lit_has false 65 ?a = true,
    H2 : set_has false [CDigit] ?d = true |- _ =>
    exists d; apply N.eqb_eq in H1 as ->; split; [done|by apply digit_set]
  end.
Qed.

Lemma list_id_shape s m :
  re_match false LIST_ID_RE s = Some m →
  ∃ d, group m 1 = [ch "L"; d] ∧ is_decimal d = true.
Proof.
  intros (cur' & Hm & Hsub & Hst & Hen)%re_match_sound.
  normalise_pattern LIST_ID_RE Hm. invert_matching.
  repeat match goal with
  | H : advance (start_of _) = Some _ |- _ =>
    apply advance_start in H as (? & ? & ->)
  | H : advance (Cursor _ _ _) = Some _ |- _ =>
    apply advance_cursor in H as (? & -> & ->)
  end.
  match goal with H : matching _ (Rep _ _ _ AnyChar) _ _ _ _ |- _ =>
    apply matching_no_groups in H; [|done] end.
  destruct m as [subj st en gs]; simpl in *. subst.
  match goal with
  | H1 : lit_has false 76 ?a = true,
    H2 : set_has false [CDigit] ?d = true |- _ =>
    exists d; apply N.eqb_eq in H1 as ->; split; [done|by apply digit_set]
  end.
Qed.

Lemma is_known_header_shape toc stripped_line prev_lines sid title page :
  is_known_header toc stripped_line prev_lines = Some (sid, title, page) →
  id_shape sid.
Proof.
  unfold is_known_header.
  destruct (match drop_while blank (rev (last5 prev_lines)) with
            | [] => false | prev :: _ => _ end); [done|].
  destruct (first_some _ _) as [h|] eqn:Hfirst.
  - intros [= ->]. apply first_some_Some in Hfirst as (pat & Hin & Hpat).
    unfold header_of in Hpat.
    destruct (re_match false pat stripped_line) as [m|] eqn:Hm; [|done].
    destruct (toc !! group m 1) as [info|]; [|done].
    destruct (_ || _); [|done]. injection Hpat as <- _ _.
    repeat apply elem_of_cons in Hin as [->|Hin].
    + right; left. by eapply lesson_id_shape.
    + right; right; left. by eapply appendix_id_shape.
    + right; right; right. by eapply list_id_shape.
    + by apply elem_of_nil in Hin.
  - destruct (matches false CORE_DICT_RE stripped_line); [|done].
    destruct (toc !! u "CORE"); [|done]. intros [= <- _ _]. by left.
Qed.

Lemma split_into_sections_shape raw_lines toc :
  Forall (λ s, id_shape (sec_id s)) (split_into_sections raw_lines toc).
Proof.
  pose proof (split_into_sections_blocks raw_lines toc) as H.
  induction H as [|s b secs bs Hs _ IH]; constructor; [|done].
  unfold section_at, header_at in Hs.
  destruct (is_known_header _ _ _) as [[[sid title] page]|] eqn:Hh; [|done].
  injection Hs as <-. simpl. by eapply is_known_header_shape.
Qed.

(** The shapes of the ids and the patterns of the routing. *)
Lemma two_digits_match d1 d2 :
  is_decimal d1 = true → is_decimal d2 = true →
  matches false LESSON_SID_RE [d1; d2] = true.
Proof.
  intros H1 H2. unfold matches, re_match, match_at.
  let r := eval vm_compute in LESSON_SID_RE in change LESSON_SID_RE with r.
  cbn. unfold set_has; cbn. by rewrite H1, H2.
Qed.

Lemma appendix_sid_match d :
  is_decimal d = true → matches false APPENDIX_SID_RE [ch "A"; d] = true.
Proof.
  intros H. unfold matches, re_match, match_at.
  let r := eval vm_compute in APPENDIX_SID_RE in change APPENDIX_SID_RE with r.
  let c := eval vm_compute in (ch "A") in change (ch "A") with c.
  cbn. unfold set_has; cbn. by rewrite H.
Qed.

Lemma list_sid_match d :
  is_decimal d = true → matches false LIST_SID_RE [ch "L"; d] = true.
Proof.
  intros H. unfold matches, re_match, match_at.
  let r := eval vm_compute in LIST_SID_RE in change LIST_SID_RE with r.
  let c := eval vm_compute in (ch "L") in change (ch "L") with c.
  cbn. unfold set_has; cbn. by rewrite H.
Qed.

End IdShapes.

Section Output.
Context {rt : Runtime}.

(** ** The output document *)

Lemma route_headings acc sec acc' :
  route acc sec = Ok acc' →
  lesson_heading <$> lessons acc'
    = (lesson_heading <$> lessons acc) ++ pick (is_lesson sec) sec
  ∧ appendix_heading <$> appendices acc'
    = (appendix_heading <$> appendices acc) ++ pick (is_appendix sec) sec
  ∧ list_heading <$> lists acc'
    = (list_heading <$> lists acc) ++ pick (is_list sec) sec.
Proof.
  unfold route, is_lesson, is_appendix, is_list, is_core.
  destruct (str_eqb (sec_id sec) (u "CORE")); simpl.
  { intros [= <-]; simpl. by rewrite !app_nil_r. }
  destruct (matches false APPENDIX_SID_RE (sec_id sec)); simpl.
  { destruct (parse_section_content sec) as [content|e]; [|done].
    intros [= <-]; simpl. by rewrite fmap_app, !app_nil_r. }
  destruct (matches false LIST_SID_RE (sec_id sec)); simpl.
  { destruct (parse_section_content sec) as [content|e]; [|done].
    intros [= <-]; simpl. by rewrite fmap_app, !app_nil_r. }
  destruct (parse_section_content sec) as [content|e]; [|done].
  intros [= <-]; simpl. by rewrite fmap_app, !app_nil_r.
Qed.

Lemma pick_filter (f : Section → bool) sec rest :
  section_heading <$> filter (λ s, f s = true) (sec :: rest)
  = pick (f sec) sec ++ (section_heading <$> filter (λ s, f s = true) rest).
Proof.
  rewrite filter_cons. unfold pick.
  destruct (f sec); [by rewrite decide_True|by rewrite decide_False].
Qed.

Lemma route_all_headings sections : ∀ acc acc',
  route_all acc sections = Ok acc' →
  lesson_heading <$> lessons acc'
    = (lesson_heading <$> lessons acc)
      ++ (section_heading <$> filter (λ s, is_lesson s = true) sections)
  ∧ appendix_heading <$> appendices acc'
    = (appendix_heading <$> appendices acc)
      ++ (section_heading <$> filter (λ s, is_appendix s = true) sections)
  ∧ list_heading <$> lists acc'
    = (list_heading <$> lists acc)
      ++ (section_heading <$> filter (λ s, is_list s = true) sections).
Proof.
  induction sections as [|sec rest IH]; intros acc acc'; simpl.
  - intros [= <-]. by rewrite !app_nil_r.
  - destruct (route acc sec) as [acc1|e] eqn:Hr; [|done]. simpl.
    intros (Hl & Ha & Hr')%IH.
    apply route_headings in Hr as (Hl1 & Ha1 & Hr1).
    rewrite !pick_filter, Hl, Ha, Hr', Hl1, Ha1, Hr1, <- !app_assoc. done.
Qed.

(** *** The sort *)

Lemma keys_of_spec {A} (key : A → result Z) l kl :
  keys_of key l = Ok kl →
  kl.*2 = l ∧ Forall (λ kx, key kx.2 = Ok kx.1) kl.
Proof.
  revert kl. induction l as [|x l IH]; intros kl; simpl.
  - intros [= <-]. by split.
  - destruct (key x) as [k|e] eqn:Hk; [|done]. simpl.
    destruct (keys_of key l) as [kl'|e]; [|done]. simpl.
    intros [= <-]. destruct (IH kl' eq_refl) as [<- Hall].
    split; [done|]. by constructor.
Qed.

Lemma insert_keyed_perm {A} (kx : Z * A) l : insert_keyed kx l ≡ₚ kx :: l.
Proof.
  induction l as [|ky l IH]; simpl; [done|].
  destruct (kx.1 <=? ky.1)%Z; [done|]. rewrite IH. apply Permutation_swap.
Qed.

Lemma sort_keyed_perm {A} (l : list (Z * A)) : sort_keyed l ≡ₚ l.
Proof.
  induction l as [|kx l IH]; simpl; [done|].
  unfold sort_keyed in *. simpl. by rewrite insert_keyed_perm, IH.
Qed.

Lemma insert_keyed_sorted {A} (kx : Z * A) l :
  StronglySorted key_le l → StronglySorted key_le (insert_keyed kx l).
Proof.
  induction 1 as [|ky l Hs IH Hall]; simpl; [by repeat constructor|].
  destruct (kx.1 <=? ky.1)%Z eqn:Hle.
  - apply Z.leb_le in Hle. constructor; [by constructor|].
    constructor; [done|]. eapply Forall_impl; [done|].
    intros kz Hz. unfold key_le in *. lia.
  - apply Z.leb_gt in Hle. constructor; [done|].
    rewrite insert_keyed_perm. constructor; [unfold key_le; lia|done].
Qed.

Lemma sort_keyed_sorted {A} (l : list (Z * A)) :
  StronglySorted key_le (sort_keyed l).
Proof.
  induction l as [|kx l IH]; [constructor|]. by apply insert_keyed_sorted.
Qed.

Lemma keys_sorted {A} (l : list (Z * A)) :
  StronglySorted key_le l → StronglySorted Z.le (l.*1).
Proof.
  induction 1 as [|kx l _ IH Hle]; [constructor|].
  rewrite fmap_cons. constructor; [done|].
  apply Forall_fmap. eapply Forall_impl; [done|].
  intros kz Hz. exact Hz.
Qed.

(** The sort is stable: the elements of one key keep their order. *)
Lemma insert_keyed_stable {A} (kx : Z * A) l (k : Z) :
  filter (λ ky, ky.1 = k) (insert_keyed kx l)
  = filter (λ ky, ky.1 = k) (kx :: l).
Proof.
  induction l as [|ky l IH]; simpl; [done|].
  destruct (kx.1 <=? ky.1)%Z eqn:Hle; [done|]. apply Z.leb_gt in Hle.
  rewrite (filter_cons _ ky), IH, !filter_cons.
  repeat case_decide; try done; lia.
Qed.

Lemma sort_keyed_stable {A} (l : list (Z * A)) (k : Z) :
  filter (λ ky, ky.1 = k) (sort_keyed l) = filter (λ ky, ky.1 = k) l.
Proof.
  induction l as [|kx l IH]; [done|]. unfold sort_keyed in *; simpl.
  by rewrite insert_keyed_stable, !filter_cons, IH.
Qed.

Lemma filter_snd_keyed {A} (key : A → result Z) (kl : list (Z * A)) (k : Z) :
  Forall (λ kx, key kx.2 = Ok kx.1) kl →
  filter (λ x, key x = Ok k) (kl.*2) = (filter (λ kx, kx.1 = k) kl).*2.
Proof.
  induction 1 as [|kx kl Hk _ IH]; [done|].
  rewrite fmap_cons, !filter_cons, IH, Hk.
  destruct (decide (kx.1 = k)) as [->|Hne].
  - by rewrite decide_True.
  - rewrite decide_False; [done|]. by intros [= ?].
Qed.

(** What the sort returns: the same elements, ordered by key, those of
    equal key in their old order. *)
Lemma sort_by_key_spec {A} (key : A → result Z) l sorted :
  sort_by_key key l = Ok sorted →
  sorted ≡ₚ l
  ∧ (∃ keys, Forall2 (λ x k, key x = Ok k) sorted keys
             ∧ StronglySorted Z.le keys)
  ∧ ∀ k, filter (λ x, key x = Ok k) sorted = filter (λ x, key x = Ok k) l.
Proof.
  unfold sort_by_key. destruct (keys_of key l) as [kl|e] eqn:Hkl; [|done].
  simpl. intros [= <-]. apply keys_of_spec in Hkl as [<- Hall].
  assert (Forall (λ kx, key kx.2 = Ok kx.1) (sort_keyed kl)) as Hall'.
  { by rewrite sort_keyed_perm. }
  split_and!.
  - by rewrite sort_keyed_perm.
  - exists ((sort_keyed kl).*1). split.
    + clear -Hall'. induction Hall' as [|kx l Hk _ IH]; [constructor|].
      rewrite !fmap_cons. by constructor.
    + apply keys_sorted, sort_keyed_sorted.
  - intros k. rewrite !filter_snd_keyed by done. by rewrite sort_keyed_stable.
Qed.

End Output.

Section OutputOrder.
Context {rt : Runtime}.

(** ** The order of the collections *)

Lemma filter_fmap {A B} (f : A → B) (P : B → Prop) `{∀ y, Decision (P y)}
    (l : list A) :
  filter P (f <$> l) = f <$> filter (λ x, P (f x)) l.
Proof.
  induction l as [|x l IH]; [done|].
  rewrite fmap_cons, !filter_cons, IH. by destruct (decide (P (f x))).
Qed.

Lemma sorted_lookup (R : Z → Z → Prop) (l : list Z) i a b :
  StronglySorted R l → l !! i = Some a → l !! S i = Some b → R a b.
Proof.
  intros Hs. revert i. induction Hs as [|x l _ IH Hall]; intros i; [done|].
  destruct i as [|i]; simpl.
  - intros [= ->] Hb. rewrite Forall_forall in Hall.
    by eapply Hall, list_elem_of_lookup_2.
  - apply IH.
Qed.

Lemma build_output_inv sections toc out :
  build_output sections toc = Ok out →
  ∃ acc, route_all {| lessons := []; appendices := []; lists := [];
                      core_dictionary := [] |} sections = Ok acc
    ∧ sort_by_key (λ x, py_int (l_id x)) (lessons acc) = Ok (o_lessons out)
    ∧ o_appendices out = appendices acc ∧ o_lists out = lists acc.
Proof.
  unfold build_output.
  destruct (route_all _ sections) as [acc|e] eqn:Hacc; [|done]. simpl.
  destruct (sort_by_key _ (lessons acc)) as [sorted|e] eqn:Hs; [|done]. simpl.
  intros [= <-]. exists acc. by rewrite Hs.
Qed.

End OutputOrder.

Section Records.
Context {rt : Runtime}.

(** ** The records of the output *)

Lemma route_record acc sec acc' :
  route acc sec = Ok acc' →
  (is_core sec = true ∧ lessons acc' = lessons acc
   ∧ appendices acc' = appendices acc ∧ lists acc' = lists acc
   ∧ core_dictionary acc'
     = parse_core_dict_entries (strip_footers (sec_lines sec)))
  ∨ (is_core sec = false ∧ core_dictionary acc' = core_dictionary acc
     ∧ ((∃ l, lessons acc' = lessons acc ++ [l] ∧ lesson_from sec l
              ∧ appendices acc' = appendices acc ∧ lists acc' = lists acc)
        ∨ (∃ a, appendices acc' = appendices acc ++ [a]
                ∧ appendix_from sec a ∧ lessons acc' = lessons acc
                ∧ lists acc' = lists acc
                ∧ is_lesson sec = false ∧ is_list sec = false)
        ∨ (∃ r, lists acc' = lists acc ++ [r]
                ∧ list_from sec r ∧ lessons acc' = lessons acc
                ∧ appendices acc' = appendices acc
                ∧ is_lesson sec = false ∧ is_appendix sec = false))).
Proof.
  unfold route, lesson_from, appendix_from, list_from,
    is_lesson, is_appendix, is_list, is_core.
  destruct (str_eqb (sec_id sec) (u "CORE")); simpl.
  { intros [= <-]. left. by split_and!. }
  destruct (parse_section_content sec) as [content|e] eqn:Hc;
    [|repeat destruct (matches false _ _); by cbn [mbind result_bind]].
  cbn [mbind result_bind].
  destruct (matches false APPENDIX_SID_RE (sec_id sec)); simpl.
  { intros [= <-]. right. split_and!; [done..|]. right; left.
    eexists. split; [reflexivity|]. simpl.
    split_and!; [done|done| |done..]. by exists content. }
  destruct (matches false LIST_SID_RE (sec_id sec)); simpl.
  { intros [= <-]. right. split_and!; [done..|]. right; right.
    eexists. split; [reflexivity|]. simpl.
    split_and!; [done|done| |done..]. by exists content. }
  intros [= <-]. right. split_and!; [done..|]. left.
  eexists. split; [reflexivity|]. simpl. by split_and!.
Qed.

Lemma lesson_from_appendix sec l : lesson_from sec l → is_appendix sec = false ∧ is_list sec = false ∧ is_core sec = false.
Proof.
  unfold lesson_from, is_lesson, is_appendix, is_list. intros (H & _).
  destruct (is_core sec); [done|]. simpl in *.
  destruct (matches false APPENDIX_SID_RE _); [done|]. simpl in *.
  by destruct (matches false LIST_SID_RE _).
Qed.

Lemma route_all_records sections : ∀ acc acc',
  route_all acc sections = Ok acc' →
  ∃ ls as_ rs,
    lessons acc' = lessons acc ++ ls
    ∧ appendices acc' = appendices acc ++ as_
    ∧ lists acc' = lists acc ++ rs
    ∧ Forall2 lesson_from (filter (λ s, is_lesson s = true) sections) ls
    ∧ Forall2 appendix_from (filter (λ s, is_appendix s = true) sections) as_
    ∧ Forall2 list_from (filter (λ s, is_list s = true) sections) rs
    ∧ core_dictionary acc' = last_core sections (core_dictionary acc).
Proof.
  induction sections as [|sec rest IH]; intros acc acc'; simpl.
  - intros [= <-]. exists [], [], []. rewrite !app_nil_r.
    by split_and!; try constructor.
  - destruct (route acc sec) as [acc1|e] eqn:Hr; [|done]. simpl.
    intros (ls & as_ & rs & Hl & Ha & Hrs & Fl & Fa & Fr & Hcore)%IH.
    rewrite !filter_cons. unfold last_core in *. rewrite filter_cons.
    apply route_record in Hr
      as [(Hc & El & Ea & Er & Ec)
         |(Hc & Ec & [(l & El & Hfrom & Ea & Er)
                     |[(a & Ea & Hfrom & El & Er & N1 & N2)
                      |(r & Er & Hfrom & El & Ea & N1 & N2)]])].
    + assert (is_lesson sec = false ∧ is_appendix sec = false
              ∧ is_list sec = false) as (N1 & N2 & N3)
        by (unfold is_lesson, is_appendix, is_list; by rewrite Hc).
      rewrite N1, N2, N3, Hc. rewrite !(decide_False (P:=false = true)),
        (decide_True (P:=true = true)) by done.
      exists ls, as_, rs. rewrite <- El, <- Ea, <- Er.
      split_and!; [done..|]. rewrite Hcore, Ec.
      destruct (filter (λ s, is_core s = true) rest) as [|s0 k]; [done|].
      rewrite last_cons_cons.
      destruct (last (s0 :: k)) eqn:Hlast; [done|]. by apply last_None in Hlast.
    + destruct (lesson_from_appendix _ _ Hfrom) as (N1 & N2 & N3).
      destruct Hfrom as (Y & Hh & Hp).
      rewrite Y, N1, N2, N3. rewrite !(decide_False (P:=false = true)),
        (decide_True (P:=true = true)) by done.
      exists (l :: ls), as_, rs. rewrite Hl, Ha, Hrs, El, Ea, Er, <- app_assoc.
      split_and!; [done..|constructor; [by split_and!|done]|done|done|].
      by rewrite Hcore, Ec.
    + pose proof Hfrom as (Y & _).
      rewrite Y, N1, N2, Hc. rewrite !(decide_False (P:=false = true)),
        (decide_True (P:=true = true)) by done.
      exists ls, (a :: as_), rs. rewrite Hl, Ha, Hrs, El, Ea, Er, <- app_assoc.
      split_and!; [done..|by constructor|done|]. by rewrite Hcore, Ec.
    + pose proof Hfrom as (Y & _).
      rewrite Y, N1, N2, Hc. rewrite !(decide_False (P:=false = true)),
        (decide_True (P:=true = true)) by done.
      exists ls, as_, (r :: rs). rewrite Hl, Ha, Hrs, El, Ea, Er, <- app_assoc.
      split_and!; [done..|by constructor|]. by rewrite Hcore, Ec.
Qed.

End Records.

(** C3 (as amended): in every output document of [build_output] the
    numbers of adjacent lessons do not go down,
    [int(lessons[i].id) <= int(lessons[i+1].id)]; the lessons are the
    records of the sections routed to them, each with its heading and its
    whole content, and the lessons of one number stand in the order of
    their sections; the appendices and the lists are the records of their
    sections, one by one in the order of the sections. *)
Theorem lessons_sorted_by_number (rt : Runtime) sections toc out :
  build_output sections toc = Ok out →
  (∀ i x y, o_lessons out !! i = Some x → o_lessons out !! S i = Some y →
     ∃ kx ky, py_int (l_id x) = Ok kx ∧ py_int (l_id y) = Ok ky ∧ (kx ≤ ky)%Z)
  ∧ (∃ encountered,
       Forall2 lesson_from (filter (λ s, is_lesson s = true) sections)
         encountered
       ∧ o_lessons out ≡ₚ encountered
       ∧ ∀ k, filter (λ l, py_int (l_id l) = Ok k) (o_lessons out)
              = filter (λ l, py_int (l_id l) = Ok k) encountered)
  ∧ Forall2 appendix_from (filter (λ s, is_appendix s = true) sections)
      (o_appendices out)
  ∧ Forall2 list_from (filter (λ s, is_list s = true) sections)
      (o_lists out).
Proof.
  intros (acc & Hacc & Hsort & -> & ->)%build_output_inv.
  apply route_all_records in Hacc
    as (ls & as_ & rs & Hl & Ha & Hr & Fl & Fa & Fr & _). simpl in *.
  rewrite Hl in Hsort.
  apply sort_by_key_spec in Hsort as (Hperm & (keys & Hkeys & Hs) & Hstable).
  split_and!; [|by exists ls|by rewrite Ha|by rewrite Hr].
  intros i x y Hx Hy.
  destruct (Forall2_lookup_l _ _ _ _ _ Hkeys Hx) as (kx & Hkx & ?).
  destruct (Forall2_lookup_l _ _ _ _ _ Hkeys Hy) as (ky & Hky & ?).
  exists kx, ky. split_and!; [done..|]. by eapply sorted_lookup.
Qed.

Section Routing.
Context {rt : Runtime}.

(** ** Routing by id *)

Lemma in_fmap_filter (f : Section → bool) (sections : list Section) h :
  h ∈ section_heading <$> filter (λ s, f s = true) sections →
  ∃ s, s ∈ sections ∧ f s = true ∧ h = section_heading s.
Proof.
  intros (s & -> & [Hf Hin]%list_elem_of_filter)%list_elem_of_fmap.
  by exists s.
Qed.

Lemma core_id_is_core sec : sec_id sec = u "CORE" → is_core sec = true.
Proof. unfold is_core, str_eqb. intros ->. by apply bool_decide_eq_true. Qed.

Lemma lesson_of_shape sec :
  is_lesson sec = true → id_shape (sec_id sec) →
  matches false LESSON_SID_RE (sec_id sec) = true.
Proof.
  unfold is_lesson. intros [[Hc Ha]%andb_true_iff Hl]%andb_true_iff.
  apply negb_true_iff in Hc, Ha, Hl.
  intros [Hid|[(d1 & d2 & -> & H1 & H2)|[(d & Hid & Hd)|(d & Hid & Hd)]]].
  - apply core_id_is_core in Hid. congruence.
  - by apply two_digits_match.
  - rewrite Hid, appendix_sid_match in Ha; done.
  - rewrite Hid, list_sid_match in Hl; done.
Qed.

End Routing.

(** C4: in the output of [build_output] every lesson id matches
    [^\d{2}$], every appendix id [^A\d$] and every list id [^L\d$], and
    no record of the three collections has the id CORE.  The sections
    are those [build_output] is given: the ids of the sections of
    [split_into_sections] have the shapes of the headers (two digits, A
    or L and a digit, CORE), and the lessons, the branch of the routing
    that reads no shape, then hold the two-digit ids; what is said of
    appendices, lists and CORE needs nothing of the ids. *)
Theorem routing_by_id_shape (rt : Runtime) sections toc out :
  build_output sections toc = Ok out →
  Forall (λ a, matches false APPENDIX_SID_RE (a_id a) = true
               ∧ a_id a ≠ u "CORE") (o_appendices out)
  ∧ Forall (λ r, matches false LIST_SID_RE (r_id r) = true
                 ∧ r_id r ≠ u "CORE") (o_lists out)
  ∧ Forall (λ l, l_id l ≠ u "CORE") (o_lessons out)
  ∧ (Forall (λ s, id_shape (sec_id s)) sections →
     Forall (λ l, matches false LESSON_SID_RE (l_id l) = true) (o_lessons out))
  ∧ (∀ raw_lines toc', sections = split_into_sections raw_lines toc' →
     Forall (λ l, matches false LESSON_SID_RE (l_id l) = true) (o_lessons out)).
Proof.
  intros (acc & Hacc & Hsort & -> & ->)%build_output_inv.
  apply route_all_headings in Hacc as (Hl & Ha & Hr). simpl in *.
  apply sort_by_key_spec in Hsort as (Hperm & _ & _).
  assert (∀ P : pystr → Prop,
    (∀ s, s ∈ sections → is_lesson s = true → P (sec_id s)) →
    Forall (λ l, P (l_id l)) (o_lessons out)) as Hlessons.
  { intros P HP. rewrite Hperm.
    apply (Forall_fmap lesson_heading (λ h, P h.1.1)). rewrite Hl.
    apply Forall_forall. intros h (s & Hin & Hs & ->)%in_fmap_filter.
    by apply HP. }
  assert (∀ s, s ∈ sections → id_shape (sec_id s) → is_lesson s = true →
               matches false LESSON_SID_RE (sec_id s) = true) as Hshape.
  { intros s _ Hid Hs. by apply lesson_of_shape. }
  split_and!.
  - apply (Forall_fmap appendix_heading
             (λ h, matches false APPENDIX_SID_RE h.1.1 = true ∧ h.1.1 ≠ u "CORE")).
    rewrite Ha. apply Forall_forall.
    intros h (s & Hin & Hs & ->)%in_fmap_filter. simpl.
    unfold is_appendix in Hs. apply andb_true_iff in Hs as [Hc Hm].
    split; [done|]. intros Hid%core_id_is_core. by rewrite Hid in Hc.
  - apply (Forall_fmap list_heading
             (λ h, matches false LIST_SID_RE h.1.1 = true ∧ h.1.1 ≠ u "CORE")).
    rewrite Hr. apply Forall_forall.
    intros h (s & Hin & Hs & ->)%in_fmap_filter. simpl.
    unfold is_list in Hs. apply andb_true_iff in Hs as [[Hc _]%andb_true_iff Hm].
    split; [done|]. intros Hid%core_id_is_core. by rewrite Hid in Hc.
  - apply (Hlessons (λ sid, sid ≠ u "CORE")). intros s _ Hs Hid%core_id_is_core.
    unfold is_lesson in Hs. by rewrite Hid in Hs.
  - intros Hall.
    apply (Hlessons (λ sid, matches false LESSON_SID_RE sid = true)).
    intros s Hin Hs.
    rewrite Forall_forall in Hall. by apply Hshape; [|apply Hall|].
  - intros raw_lines toc' ->.
    apply (Hlessons (λ sid, matches false LESSON_SID_RE sid = true)).
    intros s Hin Hs.
    apply Hshape; [done| |done].
    pose proof (split_into_sections_shape raw_lines toc') as Hall.
    rewrite Forall_forall in Hall. by apply Hall.
Qed.

(** C2 (as amended): every section of [split_into_sections] has an id that
    is a key of the TOC mapping, the CORE section too: a line that reads
    "Core Dictionary" is a header only when the mapping has an entry for
    CORE.  The page of the section is the page of its entry, and its
    title the title of the entry or, for CORE, the fixed one. *)
Theorem section_ids_in_toc (rt : Runtime) (raw_lines : list pystr)
    (toc : gmap pystr TocEntry) :
  Forall (λ s, ∃ info, toc !! sec_id s = Some info
                 ∧ sec_page_start s = toc_page info
                 ∧ (sec_title s = toc_title info
                    ∨ sec_id s = u "CORE" ∧ sec_title s = u "Core Dictionary"))
         (split_into_sections raw_lines toc)
  ∧ (toc !! u "CORE" = None →
     (∀ stripped_line prev_lines title page,
        is_known_header toc stripped_line prev_lines
        ≠ Some (u "CORE", title, page))
     ∧ Forall (λ s, sec_id s ≠ u "CORE") (split_into_sections raw_lines toc)).
Proof.
  pose proof (split_into_sections_toc raw_lines toc) as Hall.
  split; [done|]. intros Hcore. split.
  - intros stripped_line prev_lines title page
      (info & Hinfo & _)%is_known_header_toc. congruence.
  - eapply Forall_impl; [done|]. intros s (info & Hinfo & _) Hid.
    rewrite Hid in Hinfo. congruence.
Qed.

(** C6: when no line of the input reads "Contents", [parse_toc] returns
    the empty mapping, and with the empty mapping [split_into_sections]
    returns no section. *)
Theorem no_contents_no_sections (rt : Runtime) (raw_lines : list pystr) :
  Forall (λ line, strip line ≠ u "Contents") raw_lines →
  parse_toc raw_lines = Ok ∅ ∧ split_into_sections raw_lines ∅ = [].
Proof.
  intros H. split; [by apply parse_toc_no_contents|].
  apply split_into_sections_empty.
Qed.

(** C9: the sections of [split_into_sections] are the blocks of lines
    between one recognised header and the next (or the end), each line
    with its trailing newlines removed; no line lies in two blocks, and a
    line in no block lies before the content start, or before the first
    recognised header, or is a recognised header. *)
Theorem sections_partition_lines (rt : Runtime) (raw_lines : list pystr)
    (toc : gmap pystr TocEntry) :
  let hs := header_positions raw_lines toc in
  let bs := blocks hs (length raw_lines) in
  Forall2 (λ s b, section_at raw_lines toc b = Some s)
          (split_into_sections raw_lines toc) bs
  ∧ (∀ i k1 k2 b1 b2,
       bs !! k1 = Some b1 → bs !! k2 = Some b2 →
       b1.1 < i < b1.2 → b2.1 < i < b2.2 → k1 = k2)
  ∧ (∀ i, i < length raw_lines →
       (∀ b, b ∈ bs → ¬ (b.1 < i < b.2)) →
       i < find_content_start raw_lines 0 0
       ∨ (∀ h, h ∈ hs → i < h)
       ∨ is_Some (header_at raw_lines toc i)).
Proof.
  intros hs bs.
  assert (StronglySorted lt hs) as Hs by apply header_positions_sorted.
  assert (Forall (λ h, h < length raw_lines) hs) as Hn.
  { apply Forall_forall. intros h [? _]%header_positions_spec. lia. }
  split_and!.
  - apply split_into_sections_blocks.
  - intros i k1 k2 b1 b2 H1 H2 Hi1 Hi2.
    destruct (Nat.lt_trichotomy k1 k2) as [Hlt|[->|Hgt]]; [|done|].
    + pose proof (blocks_apart _ _ _ _ _ _ Hs Hn H1 H2 Hlt). lia.
    + pose proof (blocks_apart _ _ _ _ _ _ Hs Hn H2 H1 Hgt). lia.
  - intros i Hi Hout.
    destruct (decide (i < find_content_start raw_lines 0 0)) as [|Hge];
      [by left|right].
    destruct (decide (i ∈ hs)) as [Hin|Hnot].
    + right. by apply header_positions_spec in Hin as [_ ?].
    + destruct (blocks_cover hs (length raw_lines) i Hs Hn Hi Hnot)
        as [?|(b & Hb & ?)]; [by left|]. by destruct (Hout b Hb).
Qed.

(** C5: [strip_footers] removes the occurrences of the footer pattern, a
    footer line with the blank lines after it and the page counter when
    one comes next, and nothing else; the lines it returns are lines of
    the input, as they are and in their order.  Input without a footer
    line comes back as it is, and the example of the contract gives
    "Some content", "More content". *)
Theorem strip_footers_removes_footers :
  (∀ (rt : Runtime) (lines : list pystr),
     footers_removed lines (strip_footers lines)
     ∧ (∀ out, footers_removed lines out → out = strip_footers lines)
     ∧ sublist (strip_footers lines) lines)
  ∧ (∀ (rt : Runtime) (lines : list pystr),
       Forall (λ l, is_footer l = false) lines → strip_footers lines = lines)
  ∧ strip_footers (rt := latin_runtime)
      (u <$> ["Some content"; "Easy Croa!an (rev. 47b) / Lesson One"; "";
              "9 / 600"; "More content"]%string)
    = u <$> ["Some content"; "More content"]%string.
Proof.
  split_and!.
  - intros rt lines. pose proof (strip_footers_removes lines) as H.
    split_and!; [done| |by apply footers_removed_sublist].
    intros out Hout. by eapply footers_removed_functional.
  - intros rt lines. apply strip_footers_no_footer.
  - by vm_compute.
Qed.

(** C10: [strip_footers] is idempotent; a second pass finds no footer
    line, the first having kept none. *)
Theorem strip_footers_idempotent (rt : Runtime) (lines : list pystr) :
  strip_footers (strip_footers lines) = strip_footers lines
  ∧ Forall (λ l, is_footer l = false) (strip_footers lines).
Proof.
  split; [|apply strip_footers_kept].
  apply strip_footers_no_footer, strip_footers_kept.
Qed.

(** ** Blanks and tokens *)

Section Lists.
Context {A : Type} (p : A → bool).

(** ** Prefixes of lists *)

Lemma take_drop_while (l : list A) : take_while p l ++ drop_while p l = l.
Proof. induction l as [|x l IH]; simpl; [done|]. destruct (p x); simpl; by f_equal. Qed.

Lemma take_while_all (l : list A) : Forall (λ x, p x = true) (take_while p l).
Proof.
  induction l as [|x l IH]; simpl; [constructor|].
  destruct (p x) eqn:Hx; by constructor.
Qed.

Lemma drop_while_all (l : list A) :
  Forall (λ x, p x = true) l → drop_while p l = [].
Proof. induction 1 as [|x l Hx _ IH]; simpl; [done|]. by rewrite Hx. Qed.

Lemma drop_while_none (l : list A) :
  match l with [] => True | x :: _ => p x = false end → drop_while p l = l.
Proof. destruct l as [|x l]; simpl; [done|]. by intros ->. Qed.

Lemma drop_while_head (l : list A) :
  match drop_while p l with [] => True | x :: _ => p x = false end.
Proof.
  induction l as [|x l IH]; simpl; [done|]. by destruct (p x) eqn:Hx.
Qed.

Lemma drop_while_idem (l : list A) :
  drop_while p (drop_while p l) = drop_while p l.
Proof.
  pose proof (drop_while_head l) as H.
  destruct (drop_while p l) as [|x l']; [done|]. simpl. by rewrite H.
Qed.

Lemma drop_while_app (l k : list A) :
  Forall (λ x, p x = true) l → drop_while p (l ++ k) = drop_while p k.
Proof. induction 1 as [|x l Hx _ IH]; simpl; [done|]. by rewrite Hx. Qed.

Lemma take_while_lookup (l : list A) i :
  i < length (take_while p l) → take_while p l !! i = l !! i.
Proof.
  intros Hi. rewrite <- (take_drop_while l) at 2. by rewrite lookup_app_l.
Qed.

Lemma take_while_take (l : list A) n :
  length (take_while p l) ≤ n → take_while p (take n l) = take_while p l.
Proof.
  revert n. induction l as [|x l IH]; intros n; simpl.
  - by rewrite take_nil.
  - destruct (p x) eqn:Hx; simpl.
    + destruct n as [|n]; [lia|]. intros Hn. simpl. rewrite Hx, IH; [done|lia].
    + intros _. destruct n as [|n]; simpl; [done|]. by rewrite Hx.
Qed.

End Lists.

Section Tokens.
Context {rt : Runtime}.

(** ** The first token of a string *)

Lemma split_acc_head tok s :
  tok ≠ [] →
  head (split_acc tok s) = Some (tok ++ take_while (λ c, negb (isspace c)) s).
Proof.
  revert tok. induction s as [|c s IH]; intros tok Htok; simpl.
  - rewrite app_nil_r. by destruct tok.
  - destruct (isspace c); simpl.
    + rewrite app_nil_r. by destruct tok.
    + rewrite IH; [|by destruct tok]. by rewrite <- app_assoc.
Qed.

Lemma split_head s :
  head (split s) = match first_token s with [] => None | t => Some t end.
Proof.
  unfold split, first_token. induction s as [|c s IH]; simpl; [done|].
  destruct (isspace c) eqn:Hc; simpl; [done|].
  rewrite Hc. simpl. by rewrite split_acc_head.
Qed.

Lemma index0_split s token :
  index0 (split s) = Ok token ↔ first_token s = token ∧ token ≠ [].
Proof.
  pose proof (split_head s) as H. destruct (split s) as [|t l]; simpl in *.
  - split; [done|]. intros [<- Hne]. by destruct (first_token s).
  - destruct (first_token s) as [|c t'] eqn:Ht; [done|]. injection H as ->.
    split; [by intros [= <-]|by intros [-> _]].
Qed.

Lemma first_token_app_blanks s ws :
  Forall (λ c, isspace c = true) ws → first_token (s ++ ws) = first_token s.
Proof.
  intros Hws. unfold first_token. induction s as [|c s IH]; simpl.
  - by rewrite drop_while_all.
  - destruct (isspace c) eqn:Hc; [done|]. simpl. rewrite Hc. simpl. f_equal.
    clear IH. induction s as [|c' s IH]; simpl.
    + destruct Hws as [|w ws Hw _]; simpl; [done|]. by rewrite Hw.
    + destruct (isspace c'); simpl; [done|]. by f_equal.
Qed.

Lemma rstrip_split s :
  ∃ ws, s = rstrip s ++ ws ∧ Forall (λ c, isspace c = true) ws.
Proof.
  unfold rstrip. exists (rev (take_while isspace (rev s))). split.
  - rewrite <- rev_app_distr, take_drop_while. by rewrite rev_involutive.
  - apply Forall_rev, take_while_all.
Qed.

Lemma first_token_strip s : first_token (strip s) = first_token s.
Proof.
  unfold strip. destruct (rstrip_split (lstrip s)) as (ws & Heq & Hws).
  transitivity (first_token (lstrip s)).
  - rewrite Heq at 2. by rewrite first_token_app_blanks.
  - unfold first_token, lstrip. by rewrite drop_while_idem.
Qed.

(** Cutting a string after its first token keeps the token. *)
Lemma first_token_take s n c :
  s !! n = Some c → isspace c = false → c ∉ first_token s →
  first_token (take n s) = first_token s.
Proof.
  unfold first_token. intros Hn Hc Hnot.
  set (blanks := take_while isspace s).
  set (rest := drop_while isspace s).
  assert (s = blanks ++ rest) as Hs by (symmetry; apply take_drop_while).
  assert (Forall (λ c, isspace c = true) blanks) as Hb by apply take_while_all.
  assert (length blanks ≤ n) as Hlen.
  { destruct (decide (length blanks ≤ n)) as [|Hlt]; [done|].
    rewrite Hs, lookup_app_l in Hn by lia.
    apply list_elem_of_lookup_2 in Hn. rewrite Forall_forall in Hb.
    apply Hb in Hn. congruence. }
  rewrite Hs, take_app_ge by done. rewrite drop_while_app by done.
  rewrite Hs, lookup_app_r in Hn by done.
  set (k := n - length blanks) in *.
  assert (length (take_while (λ c, negb (isspace c)) rest) ≤ k) as Hk.
  { destruct (decide (length (take_while (λ c, negb (isspace c)) rest) ≤ k))
      as [|Hlt]; [done|].
    rewrite <- (take_while_lookup (λ c, negb (isspace c))) in Hn by lia.
    by apply list_elem_of_lookup_2 in Hn. }
  pose proof (drop_while_head isspace s) as Hhead. fold rest in Hhead.
  destruct rest as [|r rest']; [by rewrite take_nil|].
  destruct k as [|k]; [simpl in Hk; rewrite Hhead in Hk; simpl in Hk; lia|].
  rewrite drop_while_none.
  - by apply (take_while_take (λ c, negb (isspace c))).
  - done.
Qed.

Lemma rstrip_chars_none chars s :
  (∀ c, c ∈ s → c ∉ chars) → rstrip_chars chars s = s.
Proof.
  intros H. unfold rstrip_chars. rewrite drop_while_none, rev_involutive; [done|].
  destruct (rev s) as [|c l] eqn:Hrev; [done|].
  unfold mem. apply bool_decide_eq_false, H.
  apply list_elem_of_In, in_rev. rewrite Hrev. by left.
Qed.

End Tokens.

Section Vocabulary.
Context {rt : Runtime}.

(** ** Vocabulary lines *)

(** A parenthetical starts at an opening parenthesis. *)
Lemma paren_search_start s pm :
  re_search false PAREN_RE s = Some pm → s !! m_start pm = Some (ch "(").
Proof.
  intros (cur & cur' & Hcur & Hm & _)%re_search_sound.
  normalise_pattern PAREN_RE Hm. invert_matching.
  match goal with
  | Ha : advance cur = Some (?c, _), Hc : lit_has false 40 ?c = true |- _ =>
    apply N.eqb_eq in Hc as ->;
    by destruct (cursor_at_advance _ _ _ _ _ Hcur Ha) as [_ ?]
  end.
Qed.

(** What [parse_vocab_line] has checked when it returns an entry, and what
    the entry holds of the term. *)
Lemma parse_vocab_line_inv line e :
  parse_vocab_line line = Ok (Some e) →
  ∃ m token,
    re_match false VOCAB_FULL_RE (strip line) = Some m
    ∧ index0 (split (strip (group m 1))) = Ok token
    ∧ looks_croatian (rstrip_chars (u "()") token) = true
    ∧ v_croatian e =
        match re_search false PAREN_RE (strip (group m 1)) with
        | Some pm => strip (take (m_start pm) (strip (group m 1)))
        | None => strip (group m 1)
        end.
Proof.
  unfold parse_vocab_line.
  destruct (negb (nonempty (strip line)) || _); [done|].
  destruct (endswith (strip line) (u ":") || _); [done|].
  destruct (re_match false VOCAB_FULL_RE (strip line)) as [m|]; [|done].
  destruct (index0 (split (strip (group m 1)))) as [token|err] eqn:Htok;
    [|done].
  cbn [mbind result_bind].
  destruct (looks_croatian (rstrip_chars (u "()") token)) eqn:Hlooks; [|done].
  cbn [negb].
  destruct (matches false CONTINUATION_RE (strip (group m 2))); [done|].
  match goal with
  | |- ?wt ≫= _ = _ → _ => destruct wt as [word_type|err]; [|done]
  end.
  cbn [mbind result_bind]. intros [= <-]. exists m, token. by split_and!.
Qed.

End Vocabulary.

(** When [parse_vocab_line] returns an entry, the first token of the
    term as the line has it, read before the parenthetical is moved into
    the notes and with trailing parentheses removed, contains a diacritic
    or matches the infinitive pattern; when that token holds no
    parenthesis, it is the first token of the croatian field of the
    entry, which then looks Croatian. *)
Theorem vocab_first_token_looks_croatian (rt : Runtime) line e :
  parse_vocab_line line = Ok (Some e) →
  ∃ m token,
    re_match false VOCAB_FULL_RE (strip line) = Some m
    ∧ index0 (split (strip (group m 1))) = Ok token
    ∧ looks_croatian (rstrip_chars (u "()") token) = true
    ∧ ((∀ c, c ∈ token → c ∉ u "()") →
       index0 (split (v_croatian e)) = Ok token
       ∧ looks_croatian token = true).
Proof.
  intros (m & token & Hm & Htok & Hlooks & Hcro)%parse_vocab_line_inv.
  exists m, token. split_and!; [done..|]. intros Hplain.
  rewrite rstrip_chars_none in Hlooks by done. split; [|done].
  rewrite Hcro. set (term := strip (group m 1)) in *.
  destruct (re_search false PAREN_RE term) as [pm|] eqn:Hpm; [|done].
  apply paren_search_start in Hpm.
  apply index0_split in Htok as [Hfirst Hne].
  apply index0_split. split; [|done].
  rewrite first_token_strip.
  rewrite (first_token_take _ _ _ Hpm); [done|done|].
  rewrite Hfirst. intros Hin%Hplain. apply Hin. by left.
Qed.

Section ExampleLines.
Context {rt : Runtime}.

(** ** Example lines *)

(** What [parse_example_line] has checked when it returns a pair. *)
Lemma parse_example_line_checks line e :
  parse_example_line line = Some e →
  5 ≤ length (rstrip_chars (u ".!?") (e_croatian e))
  ∧ length (e_croatian e) ≤ 150 ∧ length (e_english e) ≤ 150
  ∧ (has_diacritic (e_croatian e) = true
     ∨ found false CAPITALISED_RE (e_croatian e) = true)
  ∧ matches false ENGLISH_START_RE (e_croatian e) = false.
Proof.
  unfold parse_example_line.
  destruct (negb (nonempty (strip line)) || _); [done|].
  destruct (negb (found false SENTENCE_END_RE (strip line))); [done|].
  destruct (re_match false EXAMPLE_LINE_RE (strip line)) as [m|]; [|done].
  destruct (length _ <? 5) eqn:Hlen; [done|]. apply Nat.ltb_ge in Hlen.
  destruct (150 <? length (strip (group m 1))) eqn:H1; [done|].
  destruct (150 <? length (strip (group m 2))) eqn:H2; [done|].
  apply Nat.ltb_ge in H1, H2. cbn [orb].
  destruct (has_diacritic _ || found _ _ _) eqn:Hword; [|done].
  apply orb_true_iff in Hword. cbn [negb].
  destruct (matches false ENGLISH_START_RE _) eqn:Hstart; [done|].
  intros [= <-]. simpl. by split_and!.
Qed.

End ExampleLines.

Section Totality.
Context {rt : Runtime}.

(** ** The exceptions of the parser *)

(** A letter of the vocabulary pattern is no blank. *)
Lemma letter_not_space c : set_has false LETTER c = true → isspace c = false.
Proof.
  let items := eval vm_compute in LETTER in change LETTER with items.
  unfold set_has, isspace. simpl.
  rewrite !orb_true_iff, !andb_true_iff, !N.leb_le, !N.eqb_eq.
  intros H. apply not_true_iff_false.
  rewrite !orb_true_iff, !andb_true_iff, !N.leb_le, !N.eqb_eq. lia.
Qed.

(** The term of a vocabulary line starts with a letter. *)
Lemma vocab_term_letter s m :
  re_match false VOCAB_FULL_RE s = Some m →
  ∃ c rest, group m 1 = c :: rest ∧ set_has false LETTER c = true.
Proof.
  intros (cur' & Hm & Hsub & Hst & Hen)%re_match_sound.
  let items := eval vm_compute in LETTER in change LETTER with items.
  normalise_pattern VOCAB_FULL_RE Hm. invert_matching.
  repeat match goal with
  | H : advance (start_of _) = Some _ |- _ =>
    apply advance_start in H as (? & ? & ->)
  end.
  repeat match goal with
  | H : matching _ (Rep _ _ _ (In [CSpace])) _ _ _ _ |- _ =>
    apply matching_no_groups in H; [|done]
  | H : matching _ (Alt _ _) _ _ _ _ |- _ =>
    apply matching_no_groups in H; [|done]
  end.
  destruct m as [subj st en gs]; simpl in *. subst.
  match goal with
  | H1 : matching _ (Rep 0 (Some 50) false _) (Cursor 1 _ ?rest) _ ?cur4 _,
    H2 : matching _ (Rep 0 (Some 1) true _) ?cur4 _ ?cur2 _,
    H3 : set_has false _ ?c = true |- _ =>
    assert (cursor_at (c :: rest) 1 (Cursor 1 (Some c) rest)) as Hc1
      by (unfold cursor_at; simpl; split_and!; [done|done|lia]);
    destruct (matching_cursor _ _ _ _ _ _ _ _ H1 Hc1) as (j2 & Hj2 & Hc2);
    destruct (matching_cursor _ _ _ _ _ _ _ _ H2 Hc2) as (j3 & Hj3 & (Hp3 & _));
    exists c, (take (j3 - 1) rest); split; [|done]
  end.
  cbn [span_of Nat.eqb]. rewrite Hp3. unfold slice.
  destruct j3 as [|j3]; [lia|]. simpl. by rewrite !Nat.sub_0_r.
Qed.

Lemma vocab_term_token s m :
  re_match false VOCAB_FULL_RE s = Some m →
  ∃ token, index0 (split (strip (group m 1))) = Ok token.
Proof.
  intros (c & rest & Hg & Hc%letter_not_space)%vocab_term_letter.
  exists (first_token (group m 1)). apply index0_split.
  rewrite first_token_strip. split; [done|].
  rewrite Hg. unfold first_token. simpl. rewrite Hc. simpl. by rewrite Hc.
Qed.

(** A parenthetical that was found is not empty. *)
Lemma paren_note_nonempty s pm :
  re_search false PAREN_RE s = Some pm → nonempty (group pm 0) = true.
Proof.
  intros Hpm. pose proof (paren_search_start _ _ Hpm) as Hstart.
  apply re_search_sound in Hpm as (cur & cur' & Hcur & Hm & Hsub & Hen).
  destruct (matching_cursor _ _ _ _ _ _ _ _ Hm Hcur) as (j & Hj & (Hp & _ & Hlen)).
  assert (m_start pm < j) as Hlt.
  { normalise_pattern PAREN_RE Hm. invert_matching.
    match goal with
    | Ha : advance cur = Some _,
      H1 : matching _ (Rep _ _ _ _) _ _ _ _ |- _ =>
      destruct (cursor_at_advance _ _ _ _ _ Hcur Ha) as [Hc1 _];
      destruct (matching_cursor _ _ _ _ _ _ _ _ H1 Hc1) as (j1 & Hj1 & Hc2)
    end.
    repeat match goal with
    | Ha : advance _ = Some (_, cur'), Hc : cursor_at _ _ _ |- _ =>
      destruct (cursor_at_advance _ _ _ _ _ Hc Ha) as [(Hp' & _) _]; lia
    end. }
  unfold group; simpl. rewrite Hsub, Hen, Hp. unfold slice.
  rewrite (drop_S _ _ _ Hstart).
  destruct (j - m_start pm) as [|d] eqn:Hd; [lia|done].
Qed.

(** [parse_vocab_line] raises nothing: the lists it indexes are not
    empty. *)
Lemma parse_vocab_line_total line : ∃ r, parse_vocab_line line = Ok r.
Proof.
  unfold parse_vocab_line.
  destruct (negb (nonempty (strip line)) || _); [by eexists|].
  destruct (endswith (strip line) (u ":") || _); [by eexists|].
  destruct (re_match false VOCAB_FULL_RE (strip line)) as [m|] eqn:Hm;
    [|by eexists].
  destruct (vocab_term_token _ _ Hm) as (token & Htok). rewrite Htok.
  cbn [mbind result_bind].
  destruct (negb (looks_croatian _)); [by eexists|].
  destruct (matches false CONTINUATION_RE _); [by eexists|].
  destruct (re_search false PAREN_RE (strip (group m 1))) as [pm|] eqn:Hpm.
  - rewrite (paren_note_nonempty _ _ Hpm). cbn [mbind result_bind]. by eexists.
  - cbn [nonempty]. rewrite Htok. cbn [mbind result_bind]. by eexists.
Qed.

Lemma content_loop_total fuel : ∀ lines st,
  ∃ st', content_loop fuel lines st = Ok st'.
Proof.
  induction fuel as [|fuel IH]; intros lines st; [by eexists|].
  destruct lines as [|line rest]; [by eexists|]. cbn [content_loop].
  destruct (matches false EXERCISE_RE (strip line)).
  { destruct (parse_exercise_block (line :: rest)). apply IH. }
  destruct (matches false SPI_RE (strip line)).
  { destruct (spi_loop [] rest). apply IH. }
  destruct (matches false SEPARATOR_RE (strip line)); [apply IH|].
  destruct (matches true TIP_RE (strip line)).
  { destruct (tip_loop [strip line] rest). apply IH. }
  destruct (in_regional st); [apply IH|].
  destruct (parse_example_line line); [apply IH|].
  destruct (parse_vocab_line_total line) as (r & ->). cbn [mbind result_bind].
  destruct r; apply IH.
Qed.

Lemma parse_section_content_total sec :
  ∃ content, parse_section_content sec = Ok content.
Proof.
  unfold parse_section_content.
  destruct (content_loop_total (length (strip_footers (sec_lines sec)))
              (strip_footers (sec_lines sec)) scan0) as (st & ->).
  by eexists.
Qed.

Lemma route_total acc sec : ∃ acc', route acc sec = Ok acc'.
Proof.
  unfold route. destruct (parse_section_content_total sec) as (content & ->).
  destruct (str_eqb _ _); [by eexists|].
  destruct (matches false APPENDIX_SID_RE _); [by eexists|].
  destruct (matches false LIST_SID_RE _); by eexists.
Qed.

Lemma route_all_total sections : ∀ acc, ∃ acc', route_all acc sections = Ok acc'.
Proof.
  induction sections as [|sec rest IH]; intros acc; [by eexists|]. simpl.
  destruct (route_total acc sec) as (acc1 & ->). apply IH.
Qed.

Lemma keys_of_total {A} (key : A → result Z) (l : list A) :
  Forall (λ x, ∃ k, key x = Ok k) l → ∃ kl, keys_of key l = Ok kl.
Proof.
  induction 1 as [|x l (k & Hk) _ (kl & IH)]; [by eexists|].
  simpl. rewrite Hk, IH. by eexists.
Qed.

Lemma keys_of_raises {A} (key : A → result Z) (l : list A) e :
  keys_of key l = Raise e → ∃ x, x ∈ l ∧ key x = Raise e.
Proof.
  induction l as [|x l IH]; [done|]. simpl.
  destruct (key x) as [k|e'] eqn:Hk; simpl.
  - destruct (keys_of key l) as [kl|e']; [done|]. simpl.
    intros [= ->]. destruct (IH eq_refl) as (y & Hy & Hky).
    exists y. split; [by right|done].
  - intros [= ->]. exists x. split; [left|done].
Qed.

Lemma py_int_raises s e : py_int s = Raise e → e = ValueError.
Proof.
  unfold py_int.
  destruct (match drop_while int_space s with [] => _ | c :: t' => _ end)
    as [negative t].
  destruct (int_scan 0 0 true t) as [[[v count] rest]|]; [|by intros [= <-]].
  destruct (nonempty _); [by intros [= <-]|].
  destruct (_ && _); [by intros [= <-]|done].
Qed.

End Totality.

(** Parsing the content of a section raises nothing: [parse_vocab_line]
    returns on every line, its two [split()[0]] finding a token each time
    they are reached, and so does [parse_section_content] on every
    section. *)
Theorem content_parsing_returns (rt : Runtime) :
  (∀ line, ∃ r, parse_vocab_line line = Ok r)
  ∧ (∀ sec, ∃ content, parse_section_content sec = Ok content).
Proof.
  split; [apply parse_vocab_line_total|apply parse_section_content_total].
Qed.

(** [build_output] returns a document when [int] reads the ids of all
    sections routed to the lessons; otherwise it raises the [ValueError]
    of [int] on one of them, and nothing else. *)
Theorem build_output_returns (rt : Runtime) sections toc :
  (Forall (λ s, is_lesson s = true → ∃ k, py_int (sec_id s) = Ok k) sections →
   ∃ out, build_output sections toc = Ok out)
  ∧ (∀ e, build_output sections toc = Raise e →
     e = ValueError
     ∧ ∃ s, s ∈ sections ∧ is_lesson s = true
            ∧ py_int (sec_id s) = Raise ValueError).
Proof.
  unfold build_output.
  destruct (route_all_total sections
              {| lessons := []; appendices := []; lists := [];
                 core_dictionary := [] |}) as (acc & Hacc).
  rewrite Hacc. cbn [mbind result_bind].
  apply route_all_headings in Hacc as (Hl & _ & _). simpl in Hl.
  assert (∀ x, x ∈ lessons acc →
    ∃ s, s ∈ sections ∧ is_lesson s = true ∧ l_id x = sec_id s) as Hfrom.
  { intros x Hx.
    assert (lesson_heading x ∈ lesson_heading <$> lessons acc) as Hin
      by by apply list_elem_of_fmap_2.
    rewrite Hl in Hin. apply in_fmap_filter in Hin as (s & Hs & Hls & Heq).
    exists s. split_and!; [done..|]. by injection Heq as -> _ _. }
  unfold sort_by_key. split.
  - intros Hall.
    destruct (keys_of_total (λ x, py_int (l_id x)) (lessons acc)) as (kl & ->).
    + apply Forall_forall. intros x (s & Hs & Hls & ->)%Hfrom.
      rewrite Forall_forall in Hall. by apply Hall.
    + cbn [mbind result_bind]. by eexists.
  - intros e.
    destruct (keys_of _ (lessons acc)) as [kl|e'] eqn:Hkeys; [done|].
    cbn [mbind result_bind]. intros [= ->].
    apply keys_of_raises in Hkeys as (x & Hx & Hkx).
    pose proof (py_int_raises _ _ Hkx) as ->. split; [done|].
    apply Hfrom in Hx as (s & Hs & Hls & Heq). exists s. by rewrite <- Heq.
Qed.

(** * Further properties *)

Section Topics.
Context {rt : Runtime}.

(** ** Topic tags *)

Lemma keyword_tags_distinct : NoDup (keyword_map.*2).
Proof. apply (bool_decide_unpack _). by vm_compute. Qed.

(** The loop over a table with distinct tags never meets a tag it has
    added. *)
Lemma topics_loop combined (table : list (regex * pystr)) : ∀ topics,
  NoDup (topics ++ table.*2) →
  foldl (λ topics '(pattern, tag),
           if found false pattern combined && negb (bool_decide (tag ∈ topics))
           then topics ++ [tag] else topics) topics table
  = topics ++ (filter (λ pt, found false pt.1 combined = true) table).*2.
Proof.
  induction table as [|[pattern tag] table IH]; intros topics Hnd; simpl.
  - by rewrite app_nil_r.
  - rewrite fmap_cons in Hnd. simpl in Hnd.
    assert (tag ∉ topics) as Hnew.
    { apply NoDup_app in Hnd as (_ & Hdis & _). intros Hin.
      apply (Hdis _ Hin). by left. }
    rewrite (bool_decide_eq_false_2 _ Hnew), andb_true_r.
    rewrite filter_cons. simpl.
    destruct (found false pattern combined) eqn:Hf.
    + rewrite decide_True by done. rewrite IH.
      * by rewrite <- app_assoc.
      * rewrite <- app_assoc. simpl. done.
    + rewrite decide_False by done. apply IH.
      rewrite (cons_middle tag), app_assoc in Hnd.
      apply NoDup_app in Hnd as (Hnd1 & Hdis & Hnd2).
      apply NoDup_app in Hnd1 as (Hnd1 & _ & _).
      apply NoDup_app. split_and!; [done| |done].
      intros x Hx. apply Hdis. apply elem_of_app. by left.
Qed.

End Topics.

(** [generate_topics] returns the first ten of the tags whose pattern is
    found in the lower-cased title and text, in the order of the table;
    no tag comes twice. *)
Theorem generate_topics_tags (rt : Runtime) title content_text :
  generate_topics title content_text
  = take 10 (found_tags (str_lower (title ++ u " " ++ content_text)))
  ∧ NoDup (generate_topics title content_text)
  ∧ length (generate_topics title content_text) ≤ 10.
Proof.
  assert (generate_topics title content_text
          = take 10 (found_tags (str_lower (title ++ u " " ++ content_text))))
    as Heq.
  { unfold generate_topics, found_tags.
    by rewrite (topics_loop _ keyword_map []) by apply keyword_tags_distinct. }
  split_and!; [done| |].
  - rewrite Heq. eapply sublist_NoDup; [|apply sublist_take].
    eapply sublist_NoDup; [apply keyword_tags_distinct|].
    unfold found_tags. apply fmap_sublist, sublist_filter.
  - rewrite Heq, length_take. lia.
Qed.

Section Texts.
Context {rt : Runtime}.

(** ** The text of a match *)

Lemma advance_text cur c cur' :
  advance cur = Some (c, cur') →
  c_rest cur = [c] ++ c_rest cur' ∧ c_pos cur' = c_pos cur + 1.
Proof.
  unfold advance. destruct (c_rest cur) as [|c' rest]; [done|].
  intros [= -> <-]. simpl. split; [done|lia].
Qed.

Lemma repeats_spells ic r lo hi :
  (∀ cur gs cur' gs', matching ic r cur gs cur' gs' →
     ∃ w, c_rest cur = w ++ c_rest cur'
          ∧ c_pos cur' = c_pos cur + length w ∧ spells ic r w) →
  ∀ n cur gs cur' gs',
    repeats (matching ic r) lo hi n cur gs cur' gs' →
    match hi with Some h => n ≤ h | None => True end →
    ∃ ws, c_rest cur = concat ws ++ c_rest cur'
          ∧ c_pos cur' = c_pos cur + length (concat ws)
          ∧ Forall (spells ic r) ws ∧ lo ≤ n + length ws
          ∧ match hi with Some h => n + length ws ≤ h | None => True end.
Proof.
  intros Hr n cur gs cur' gs' Hrep.
  induction Hrep as [n cur gs Hlo|n cur gs cur1 gs1 cur' gs' Hhi Hb _ IH];
    intros Hn.
  - exists []. simpl. split_and!; [done|lia|done|lia|].
    destruct hi; [lia|done].
  - destruct (Hr _ _ _ _ Hb) as (w & Hw & Hp & Hs).
    destruct IH as (ws & Hws & Hps & Hall & Hlo & Hhi').
    { destruct hi as [h|]; [|done]. simpl in Hhi.
      apply Nat.ltb_lt in Hhi. lia. }
    exists (w :: ws). simpl. rewrite length_app. split_and!.
    + by rewrite Hw, Hws, app_assoc.
    + lia.
    + by constructor.
    + lia.
    + destruct hi; [lia|done].
Qed.

(** A match passes over a text the pattern spells. *)
Lemma matching_spells ic r : ∀ cur gs cur' gs',
  matching ic r cur gs cur' gs' →
  ∃ w, c_rest cur = w ++ c_rest cur'
       ∧ c_pos cur' = c_pos cur + length w ∧ spells ic r w.
Proof.
  induction r as [|x| |items|items|r1 IH1 r2 IH2|r1 IH1 r2 IH2
                 |lo hi greedy r IH|n r IH| | |];
    intros cur gs cur' gs' Hm; inversion Hm; subst; simpl;
    try (exists []; simpl; split_and!; [done|lia|done]);
    try (match goal with Ha : advance _ = Some (?c, _) |- _ =>
           apply advance_text in Ha as [Hrest Hpos]; exists [c];
           split_and!; [done|simpl; lia|by exists c] end).
  - match goal with H1 : matching _ r1 _ _ _ _, H2 : matching _ r2 _ _ _ _ |- _ =>
      destruct (IH1 _ _ _ _ H1) as (w1 & Hw1 & Hp1 & Hs1);
      destruct (IH2 _ _ _ _ H2) as (w2 & Hw2 & Hp2 & Hs2)
    end.
    exists (w1 ++ w2). rewrite length_app. split_and!.
    + by rewrite Hw1, Hw2, app_assoc.
    + lia.
    + by exists w1, w2.
  - match goal with H1 : matching _ r1 _ _ _ _ |- _ =>
      destruct (IH1 _ _ _ _ H1) as (w1 & Hw1 & Hp1 & Hs1) end.
    exists w1. split_and!; [done|done|by left].
  - match goal with H2 : matching _ r2 _ _ _ _ |- _ =>
      destruct (IH2 _ _ _ _ H2) as (w2 & Hw2 & Hp2 & Hs2) end.
    exists w2. split_and!; [done|done|by right].
  - match goal with H1 : repeats _ _ _ _ _ _ _ _ |- _ =>
      destruct (repeats_spells _ _ _ _ IH _ _ _ _ _ H1)
        as (ws & Hws & Hps & Hall & Hlo & Hhi) end.
    { destruct hi; [lia|done]. }
    exists (concat ws). split_and!; [done|done|]. by exists ws.
  - match goal with H1 : matching _ r _ _ _ _ |- _ =>
      exact (IH _ _ _ _ H1) end.
Qed.

(** The same along a subject: the text is the slice between the two
    cursors. *)
Lemma matching_text ic r s i cur gs cur' gs' :
  matching ic r cur gs cur' gs' → cursor_at s i cur →
  ∃ w, spells ic r w ∧ cursor_at s (i + length w) cur'
       ∧ drop i s = w ++ drop (i + length w) s.
Proof.
  intros (w & Hw & Hp & Hs)%matching_spells (Hpos & Hrest & Hlen).
  assert (drop (i + length w) s = c_rest cur') as Hdrop.
  { rewrite <- drop_drop, <- Hrest, Hw.
    by rewrite drop_app_length. }
  exists w. split_and!; [done| |by rewrite Hdrop, <- Hw].
  unfold cursor_at. split_and!; [lia|done|].
  assert (length (drop i s) = length w + length (c_rest cur')) as Hl
    by by rewrite <- Hrest, Hw, length_app.
  rewrite length_drop in Hl. lia.
Qed.

Lemma slice_text {A} (s w rest : list A) i :
  drop i s = w ++ rest → slice i (i + length w) s = w.
Proof.
  intros H. unfold slice. rewrite H.
  replace (i + length w - i) with (length w) by lia.
  by rewrite take_app_length.
Qed.

(** A literal word spells itself. *)
Lemma spells_word (w0 w : pystr) :
  spells false (foldr (λ c r, Cat (Lit c) r) Eps w0) w → w = w0.
Proof.
  revert w. induction w0 as [|x w0 IH]; intros w; simpl; [done|].
  intros (w1 & w2 & -> & (c & -> & Hc) & Hw2). unfold lit_has in Hc.
  simpl in Hc. apply N.eqb_eq in Hc as ->. simpl. f_equal. by apply IH.
Qed.

Lemma spells_lit (word : string) w : spells false (lit word) w → w = u word.
Proof. apply spells_word. Qed.

(** One of several alternatives. *)
Lemma spells_foldl_alt ic r rs w :
  spells ic (foldl Alt r rs) w → Exists (λ r', spells ic r' w) (r :: rs).
Proof.
  revert r. induction rs as [|r' rs IH]; intros r; simpl.
  - intros H. by left.
  - intros [H|H]%IH%Exists_cons.
    + simpl in H. destruct H as [H|H]; [by left|]. right. by left.
    + right. by right.
Qed.

Lemma spells_alts ic rs w :
  rs ≠ [] → spells ic (alts rs) w → Exists (λ r', spells ic r' w) rs.
Proof. destruct rs as [|r rs]; [done|]. intros _. apply spells_foldl_alt. Qed.

Lemma spells_alts_words (words : list string) w :
  words ≠ [] → spells false (alts (lit <$> words)) w → w ∈ u <$> words.
Proof.
  intros Hne (r & Hr & Hw)%spells_alts%Exists_exists;
    [|by destruct words].
  apply list_elem_of_fmap in Hr as (word & -> & Hword).
  apply spells_lit in Hw as ->. by apply list_elem_of_fmap_2.
Qed.

(** A run of characters of one class. *)
Lemma spells_run ic lo hi greedy r (p : char → Prop) w :
  (∀ w', spells ic r w' → ∃ c, w' = [c] ∧ p c) →
  spells ic (Rep lo hi greedy r) w →
  Forall p w ∧ lo ≤ length w
  ∧ match hi with Some h => length w ≤ h | None => True end.
Proof.
  intros Hr (ws & -> & Hall & Hlo & Hhi).
  assert (Forall p (concat ws) ∧ length (concat ws) = length ws) as [H1 H2].
  { clear Hlo Hhi. induction Hall as [|w' ws Hw' _ [IH1 IH2]]; [done|].
    destruct (Hr _ Hw') as (c & -> & Hc). simpl. split; [by constructor|lia]. }
  rewrite H2. done.
Qed.

Lemma set_has_chars (word : string) c :
  set_has false (chars word) c = true ↔ c ∈ u word.
Proof.
  unfold set_has, chars. simpl. induction (u word) as [|x w IH]; simpl.
  - split; [done|]. by intros ?%elem_of_nil.
  - rewrite orb_true_iff, IH, N.eqb_eq, elem_of_cons. done.
Qed.

Lemma set_has_not_chars (word : string) c :
  set_has false (chars word) c = false ↔ c ∉ u word.
Proof. rewrite <- set_has_chars. by destruct (set_has false (chars word) c). Qed.

Lemma spells_not_in_run lo hi greedy (word : string) w :
  spells false (Rep lo hi greedy (NotIn (chars word))) w →
  Forall (λ c, c ∉ u word) w ∧ lo ≤ length w
  ∧ match hi with Some h => length w ≤ h | None => True end.
Proof.
  apply spells_run. intros w' (c & -> & Hc). exists c.
  split; [done|]. by apply set_has_not_chars.
Qed.

Lemma spells_in_run lo hi greedy items w :
  spells false (Rep lo hi greedy (In items)) w →
  Forall (λ c, set_has false items c = true) w ∧ lo ≤ length w
  ∧ match hi with Some h => length w ≤ h | None => True end.
Proof. apply spells_run. intros w' (c & -> & Hc). by exists c. Qed.

Lemma spells_space_run lo hi greedy w :
  spells false (Rep lo hi greedy Space) w →
  Forall (λ c, isspace c = true) w ∧ lo ≤ length w
  ∧ match hi with Some h => length w ≤ h | None => True end.
Proof.
  apply spells_run. intros w' (c & -> & Hc). exists c. split; [done|].
  unfold set_has in Hc. simpl in Hc. by rewrite orb_false_r in Hc.
Qed.

Lemma spells_any_run lo hi greedy w :
  spells false (Rep lo hi greedy AnyChar) w →
  Forall (λ c, c ≠ 10%N) w ∧ lo ≤ length w
  ∧ match hi with Some h => length w ≤ h | None => True end.
Proof. apply spells_run. intros w' (c & -> & Hc). by exists c. Qed.

Lemma spells_opt ic r w :
  spells ic (Opt r) w → w = [] ∨ spells ic r w.
Proof.
  intros (ws & -> & Hall & _ & Hhi).
  destruct Hall as [|w' ws Hw' Hall]; [by left|].
  destruct ws; [|simpl in Hhi; lia]. right. simpl. by rewrite app_nil_r.
Qed.

Lemma nonempty_length {A} (l : list A) : 1 ≤ length l → l ≠ [].
Proof. destruct l; simpl; [lia|done]. Qed.

End Texts.

Section Stripping.
Context {rt : Runtime}.

(** ** Stripped strings *)

Lemma last_rev {A} (l : list A) : last (rev l) = head l.
Proof. rewrite rev_alt. apply last_reverse. Qed.

Lemma head_rev {A} (l : list A) : head (rev l) = last l.
Proof. rewrite rev_alt. apply head_reverse. Qed.

Lemma rstrip_last s :
  match last (rstrip s) with Some c => isspace c = false | None => True end.
Proof.
  unfold rstrip. rewrite last_rev.
  pose proof (drop_while_head isspace (rev s)) as H.
  by destruct (drop_while isspace (rev s)).
Qed.

Lemma strip_last s :
  match last (strip s) with Some c => isspace c = false | None => True end.
Proof. apply rstrip_last. Qed.

Lemma rstrip_fixed s :
  match last s with Some c => isspace c = false | None => True end →
  rstrip s = s.
Proof.
  intros H. unfold rstrip. rewrite <- head_rev in H.
  rewrite drop_while_none; [apply rev_involutive|].
  by destruct (rev s).
Qed.

Lemma strip_head s :
  match strip s with c :: _ => isspace c = false | [] => True end.
Proof.
  unfold strip. destruct (rstrip_split (lstrip s)) as (ws & Heq & _).
  pose proof (drop_while_head isspace s) as H. fold (lstrip s) in H.
  destruct (rstrip (lstrip s)) as [|c t]; [done|].
  rewrite Heq in H. done.
Qed.

(** A string that starts and ends with a character that is no blank is
    its own stripped form. *)
Lemma strip_fixed s :
  match s with c :: _ => isspace c = false | [] => True end →
  match last s with Some c => isspace c = false | None => True end →
  strip s = s.
Proof.
  intros Hh Hl. unfold strip, lstrip. rewrite drop_while_none by done.
  by apply rstrip_fixed.
Qed.

Lemma strip_idem s : strip (strip s) = strip s.
Proof. apply strip_fixed; [apply strip_head|apply strip_last]. Qed.

Lemma strip_nonempty_ends s :
  strip s ≠ [] →
  ∃ c t, strip s = c :: t ∧ isspace c = false
         ∧ ∃ d, last (strip s) = Some d ∧ isspace d = false.
Proof.
  intros Hne. pose proof (strip_head s) as Hh. pose proof (strip_last s) as Hl.
  destruct (strip s) as [|c t] eqn:Hs; [done|].
  exists c, t. split_and!; [done..|].
  destruct (last (c :: t)) as [d|] eqn:Hd; [by exists d|].
  by apply last_None in Hd.
Qed.

End Stripping.

Section ExamplePairs.
Context {rt : Runtime}.

(** ** The two parts of an example line *)

Lemma terminator_not_space c : c ∈ u ".!?" → isspace c = false.
Proof.
  intros Hc. vm_compute in Hc.
  repeat (apply elem_of_cons in Hc as [->|Hc]; [by vm_compute|]).
  by apply elem_of_nil in Hc.
Qed.

Lemma capital_or_paren_not_space c :
  set_has false (rng "A" "Z" :: chars "(") c = true → isspace c = false.
Proof.
  let items := eval vm_compute in (rng "A" "Z" :: chars "(") in
    change (rng "A" "Z" :: chars "(") with items.
  unfold set_has, isspace. simpl.
  rewrite !orb_true_iff, !andb_true_iff, !N.leb_le, !N.eqb_eq.
  intros H. apply not_true_iff_false.
  rewrite !orb_true_iff, !andb_true_iff, !N.leb_le, !N.eqb_eq. lia.
Qed.

Lemma at_eos_stripped line i cur :
  cursor_at (strip line) i cur → at_eos cur = true → c_rest cur = [].
Proof.
  intros (_ & Hrest & _). unfold at_eos.
  destruct (c_rest cur) as [|c [|c' t]] eqn:Hr; [done| |done].
  intros ->%N.eqb_eq. pose proof (strip_last line) as Hl.
  assert (last (strip line) = Some 10%N) as Hlast.
  { rewrite <- (take_drop i (strip line)), <- Hrest. apply last_snoc. }
  by rewrite Hlast in Hl.
Qed.

Lemma slice_middle {A} (s pre w post : list A) a b :
  s = pre ++ w ++ post → a = length pre → b = a + length w → slice a b s = w.
Proof.
  intros -> -> ->. unfold slice. rewrite drop_app_length.
  replace (length pre + length w - length pre) with (length w) by lia.
  by rewrite take_app_length.
Qed.

(** What the pattern of an example line reads on a stripped line. *)
Lemma example_line_parts line m :
  re_match false EXAMPLE_LINE_RE (strip line) = Some m →
  ∃ body1 p1 ws c2 body2 p2 ws2 mark,
    strip line = group m 1 ++ ws ++ group m 2
    ∧ group m 1 = body1 ++ [p1]
    ∧ group m 2 = c2 :: body2 ++ [p2] ++ ws2 ++ mark
    ∧ body1 ≠ [] ∧ Forall (λ c, c ∉ u ".!?") body1 ∧ p1 ∈ u ".!?"
    ∧ ws ≠ [] ∧ Forall (λ c, isspace c = true) ws
    ∧ set_has false (rng "A" "Z" :: chars "(") c2 = true
    ∧ body2 ≠ [] ∧ Forall (λ c, c ∉ u ".!?") body2 ∧ p2 ∈ u ".!?"
    ∧ Forall (λ c, isspace c = true) ws2 ∧ (mark = [] ∨ mark = u "®").
Proof.
  intros (cur' & Hm & Hsub & Hst & Hen)%re_match_sound.
  destruct (matching_cursor _ _ _ _ _ _ _ _ Hm (cursor_at_start _))
    as (j & _ & Hend).
  unfold EXAMPLE_LINE_RE in Hm. invert_matching.
  apply (at_eos_stripped _ _ _ Hend) in H2.
  repeat match goal with
  | H : matching _ ?r _ _ _ _ |- _ =>
    let H' := fresh in
    pose proof H as H'; apply matching_no_groups in H'; [|reflexivity];
    apply matching_spells in H as (? & ? & ? & ?)
  | H : advance _ = Some _ |- _ => apply advance_text in H as [? ?]
  end.
  cbn [start_of c_rest c_pos] in *. subst.
  match goal with
  | Hb1 : strip line = ?body1 ++ c_rest ?ca, Sb1 : spells _ _ ?body1,
    Hp1 : c_rest ?ca = [?p1] ++ c_rest ?cb,
    Hws : c_rest ?cb = ?ws ++ c_rest ?cc, Sws : spells _ _ ?ws,
    Hc2 : c_rest ?cc = [?c2] ++ c_rest ?cd,
    Hb2 : c_rest ?cd = ?body2 ++ c_rest ?ce, Sb2 : spells _ _ ?body2,
    Hp2 : c_rest ?ce = [?p2] ++ c_rest ?cf,
    Hws2 : c_rest ?cf = ?ws2 ++ c_rest ?cg, Sws2 : spells _ _ ?ws2,
    Hmk : c_rest ?cg = ?mark ++ c_rest cur', Smk : spells _ _ ?mark,
    Hgs : _ = m_groups m |- _ =>
    exists body1, p1, ws, c2, body2, p2, ws2, mark;
    assert (strip line = body1 ++ [p1] ++ ws ++ [c2] ++ body2 ++ [p2]
                           ++ ws2 ++ mark ++ []) as Hs by congruence;
    rewrite app_nil_r in Hs;
    assert (group m 1 = body1 ++ [p1]) as Hg1 by
      (unfold group; rewrite <- Hgs, Hsub; cbn [m_groups span_of Nat.eqb];
       apply (slice_middle _ [] (body1 ++ [p1])
                (ws ++ [c2] ++ body2 ++ [p2] ++ ws2 ++ mark));
       [rewrite Hs; simpl; by rewrite <- app_assoc|done
       |rewrite length_app; simpl; lia]);
    assert (group m 2 = c2 :: body2 ++ [p2] ++ ws2 ++ mark) as Hg2 by
      (unfold group; rewrite <- Hgs, Hsub; cbn [m_groups span_of Nat.eqb];
       apply (slice_middle _ (body1 ++ [p1] ++ ws)
                (c2 :: body2 ++ [p2] ++ ws2 ++ mark) []);
       [rewrite Hs, app_nil_r; by rewrite <- !app_assoc
       |rewrite !length_app; simpl; lia
       |simpl; rewrite !length_app; simpl; rewrite !length_app; lia])
  end.
  repeat match goal with
  | H : spells _ (Plus (NotIn _)) _ |- _ =>
    apply spells_not_in_run in H as (? & ?%nonempty_length & _)
  | H : spells _ (Plus Space) _ |- _ =>
    apply spells_space_run in H as (? & ?%nonempty_length & _)
  | H : spells _ (Star Space) _ |- _ =>
    apply spells_space_run in H as (? & _)
  | H : spells _ (Opt (lit _)) _ |- _ =>
    apply spells_opt in H as [?|?%spells_lit]
  | H : set_has false (chars _) _ = true |- _ => apply set_has_chars in H
  end; (split_and!; [|done..|by auto]);
    rewrite Hg1, Hg2, Hs; by rewrite <- !app_assoc.
Qed.

Lemma parse_example_line_inv line e :
  parse_example_line line = Some e →
  ∃ m, re_match false EXAMPLE_LINE_RE (strip line) = Some m
       ∧ e_croatian e = strip (group m 1) ∧ e_english e = strip (group m 2).
Proof.
  unfold parse_example_line.
  destruct (negb (nonempty (strip line)) || _); [done|].
  destruct (negb (found false SENTENCE_END_RE (strip line))); [done|].
  destruct (re_match false EXAMPLE_LINE_RE (strip line)) as [m|]; [|done].
  destruct (length _ <? 5); [done|].
  destruct (_ || _); [done|]. destruct (negb _); [done|].
  destruct (matches false ENGLISH_START_RE _); [done|].
  intros [= <-]. by exists m.
Qed.

Lemma capital_or_paren c :
  set_has false (rng "A" "Z" :: chars "(") c = true →
  (ch "A" ≤ c ∧ c ≤ ch "Z" ∨ c = ch "(")%N.
Proof.
  let items := eval vm_compute in (rng "A" "Z" :: chars "(") in
    change (rng "A" "Z" :: chars "(") with items.
  let a := eval vm_compute in (ch "A") in change (ch "A") with a.
  let z := eval vm_compute in (ch "Z") in change (ch "Z") with z.
  let p := eval vm_compute in (ch "(") in change (ch "(") with p.
  unfold set_has. simpl.
  rewrite !orb_true_iff, !andb_true_iff, !N.leb_le, !N.eqb_eq. lia.
Qed.

End ExamplePairs.

(** An example line is its two sentences with the blanks between them,
    nothing lost: the first part runs up to the first of the characters
    [. ! ?], the second part starts with a capital letter or a bracket and
    has its one such character at its end, or before a closing regional
    marker. *)
Theorem example_pair_decomposition (rt : Runtime) line e :
  parse_example_line line = Some e →
  ∃ ws,
    strip line = e_croatian e ++ ws ++ e_english e
    ∧ ws ≠ [] ∧ Forall (λ c, isspace c = true) ws
    ∧ (∃ body p, e_croatian e = body ++ [p] ∧ body ≠ []
         ∧ Forall (λ c, c ∉ u ".!?") body ∧ p ∈ u ".!?")
    ∧ (∃ c body p ws2 mark,
         e_english e = c :: body ++ [p] ++ ws2 ++ mark
         ∧ (ch "A" ≤ c ∧ c ≤ ch "Z" ∨ c = ch "(")%N ∧ body ≠ []
         ∧ Forall (λ c, c ∉ u ".!?") body ∧ p ∈ u ".!?"
         ∧ Forall (λ c, isspace c = true) ws2
         ∧ (mark = [] ∨ mark = u "®")).
Proof.
  intros (m & Hm & Hcro & Heng)%parse_example_line_inv.
  destruct (example_line_parts _ _ Hm)
    as (body1 & p1 & ws & c2 & body2 & p2 & ws2 & mark & Hs & Hg1 & Hg2
        & Hb1 & Hn1 & Hp1 & Hws & Hsp & Hc2 & Hb2 & Hn2 & Hp2 & Hsp2 & Hmark).
  assert (strip (group m 1) = group m 1) as Hfix1.
  { apply strip_fixed.
    - pose proof (strip_head line) as Hh. rewrite Hs, Hg1 in Hh.
      rewrite Hg1. by destruct body1.
    - rewrite Hg1, last_snoc. by apply terminator_not_space. }
  assert (strip (group m 2) = group m 2) as Hfix2.
  { apply strip_fixed.
    - rewrite Hg2. by apply capital_or_paren_not_space.
    - pose proof (strip_last line) as Hl. rewrite Hs, !last_app in Hl.
      rewrite Hg2 in *. simpl in *.
      by destruct (last (c2 :: body2 ++ p2 :: ws2 ++ mark)). }
  rewrite Hcro, Heng, Hfix1, Hfix2. exists ws. split_and!; [done..| |].
  - by exists body1, p1.
  - exists c2, body2, p2, ws2, mark.
    split_and!; [done|by apply capital_or_paren|done..].
Qed.

Section VocabularyFields.
Context {rt : Runtime}.

(** ** The fields of a vocabulary entry *)

(** All that [parse_vocab_line] has computed when it returns an entry. *)
Lemma parse_vocab_line_fields line e :
  parse_vocab_line line = Ok (Some e) →
  ∃ m,
    re_match false VOCAB_FULL_RE (strip line) = Some m
    ∧ let croatian_raw := strip (group m 1) in
      let english_raw := strip (group m 2) in
      let paren_m := re_search false PAREN_RE croatian_raw in
      let paren_note := match paren_m with Some pm => group pm 0 | None => [] end in
      let marked := contains english_raw REGIONAL_MARKER in
      v_croatian e =
        match paren_m with
        | Some pm => strip (take (m_start pm) croatian_raw)
        | None => croatian_raw
        end
      ∧ v_english e =
          rstrip_chars (u ".,")
            (if marked then strip (replace REGIONAL_MARKER [] english_raw)
             else english_raw)
      ∧ v_notes e =
          join (u " ") (filter (λ p, nonempty p)
                          [paren_note; if marked then u "®" else []])
      ∧ v_type e =
          (if nonempty paren_note
              || matches true CROATIAN_INF_RE (first_token (v_croatian e))
           then u "verb" else []).
Proof.
  unfold parse_vocab_line.
  destruct (negb (nonempty (strip line)) || _); [done|].
  destruct (endswith (strip line) (u ":") || _); [done|].
  destruct (re_match false VOCAB_FULL_RE (strip line)) as [m|]; [|done].
  destruct (index0 (split (strip (group m 1)))) as [token|err]; [|done].
  cbn [mbind result_bind].
  destruct (negb (looks_croatian _)); [done|].
  destruct (matches false CONTINUATION_RE (strip (group m 2))); [done|].
  set (paren_note := match re_search false PAREN_RE (strip (group m 1)) with
                     | Some pm => group pm 0 | None => [] end).
  destruct (nonempty paren_note) eqn:Hnote; cbn [mbind result_bind].
  - intros [= <-]. exists m. cbv zeta. fold paren_note.
    cbn [v_croatian v_english v_notes v_type]. rewrite Hnote.
    by split_and!.
  - match goal with
    | |- (index0 ?l ≫= _) ≫= _ = _ → _ =>
      destruct (index0 l) as [token'|err] eqn:Htoken; [|done]
    end.
    cbn [mbind result_bind]. intros [= <-]. exists m. cbv zeta.
    fold paren_note. cbn [v_croatian v_english v_notes v_type]. rewrite Hnote.
    apply index0_split in Htoken as [<- _]. by split_and!.
Qed.

Lemma rstrip_prefix s : rstrip s `prefix_of` s.
Proof. destruct (rstrip_split s) as (ws & Heq & _). by exists ws. Qed.

Lemma strip_letter_prefix c t :
  isspace c = false → strip (c :: t) `prefix_of` c :: t ∧ head (strip (c :: t)) = Some c.
Proof.
  intros Hc. unfold strip, lstrip. simpl. rewrite Hc.
  split; [apply rstrip_prefix|].
  destruct (rstrip_split (c :: t)) as (ws & Heq & Hws).
  destruct (rstrip (c :: t)) as [|c' t'] eqn:Hr.
  - simpl in Heq. subst ws. apply Forall_cons in Hws as [Hc' _]. congruence.
  - simpl in Heq. by injection Heq as <- _.
Qed.

Lemma letter_ranges c : set_has false LETTER c = true → is_letter c.
Proof.
  unfold LETTER, set_has, is_letter. cbn [andb app existsb]. fold (chars "čćđšžČĆĐŠŽ").
  rewrite !orb_true_iff. intros [H|[H|H]].
  - left. unfold rng in H. simpl in H.
    by apply andb_true_iff in H as [?%N.leb_le ?%N.leb_le].
  - right; left. unfold rng in H. simpl in H.
    by apply andb_true_iff in H as [?%N.leb_le ?%N.leb_le].
  - right; right. by apply set_has_chars.
Qed.

End VocabularyFields.

(** The croatian field of a vocabulary entry is the beginning of the
    stripped line, and it begins with a letter: it is never empty and
    never starts with a bracket or a blank. *)
Theorem vocab_croatian_prefix (rt : Runtime) line e :
  parse_vocab_line line = Ok (Some e) →
  v_croatian e `prefix_of` strip line
  ∧ ∃ c rest, v_croatian e = c :: rest ∧ is_letter c.
Proof.
  intros (m & Hm & Hcro & _)%parse_vocab_line_fields. cbv zeta in Hcro.
  destruct (vocab_term_letter _ _ Hm) as (c & t & Hg & Hc).
  pose proof (letter_not_space _ Hc) as Hsp.
  assert (group m 1 `prefix_of` strip line) as Hpre.
  { apply re_match_sound in Hm as (cur' & Hmt & Hsub & _).
    unfold VOCAB_FULL_RE in Hmt. invert_matching.
    match goal with
    | Hgs : _ = m_groups m,
      H2 : matching _ (Plus Space) _ _ _ _,
      H3 : matching _ (Alt _ _) _ _ _ _ |- _ =>
      apply matching_no_groups in H2; [|done];
      apply matching_no_groups in H3; [|done]; subst;
      unfold group; rewrite <- Hgs, Hsub; cbn [m_groups span_of Nat.eqb]
    end.
    unfold slice. simpl. rewrite Nat.sub_0_r. apply prefix_take. }
  rewrite Hg in Hpre.
  destruct (strip_letter_prefix c t Hsp) as [Hraw Hhead].
  rewrite <- Hg in Hraw, Hhead.
  assert (∃ t', strip (group m 1) = c :: t') as (t' & Hraw').
  { destruct (strip (group m 1)); [done|]. injection Hhead as ->. by eexists. }
  rewrite Hg in Hraw.
  destruct (re_search false PAREN_RE (strip (group m 1))) as [pm|] eqn:Hpm.
  - pose proof (paren_search_start _ _ Hpm) as Hstart.
    rewrite Hraw' in Hstart.
    destruct (m_start pm) as [|k] eqn:Hk.
    { simpl in Hstart. injection Hstart as ->. by vm_compute in Hc. }
    rewrite Hraw' in Hcro. rewrite Hcro. cbn [take].
    destruct (strip_letter_prefix c (take k t') Hsp) as [Hp2 Hh2].
    split.
    + etrans; [apply Hp2|]. etrans; [|apply Hpre]. etrans; [|apply Hraw].
      rewrite <- Hg, Hraw'. apply (prefix_take (c :: t') (S k)).
    + destruct (strip (c :: take k t')) as [|c' r]; [done|].
      injection Hh2 as ->. exists c, r. split; [done|]. by apply letter_ranges.
  - rewrite Hraw' in Hcro. rewrite Hcro. split.
    + rewrite <- Hraw', Hg. etrans; [apply Hraw|done].
    + exists c, t'. split; [done|]. by apply letter_ranges.
Qed.

Section SingleCharacters.
Context {rt : Runtime}.

(** ** A needle of one character *)

Lemma startswith_nil s : startswith s [] = true.
Proof. by destruct s. Qed.

Lemma contains_single s c : contains s [c] = bool_decide (c ∈ s).
Proof.
  induction s as [|x s IH]; [done|]. cbn [contains startswith].
  rewrite IH, startswith_nil, andb_true_r. destruct (N.eqb_spec c x) as [->|Hne]; simpl.
  - symmetry. apply bool_decide_eq_true_2. by left.
  - apply bool_decide_ext. rewrite elem_of_cons.
    split; [by right|by intros [?|?]].
Qed.

Lemma replace_single s c :
  replace [c] [] s = filter (λ x, x ≠ c) s.
Proof.
  unfold replace. induction s as [|x s IH]; [done|].
  cbn [replace_from startswith length pred app].
  rewrite startswith_nil, andb_true_r, filter_cons.
  destruct (N.eqb_spec c x) as [->|Hne].
  - by rewrite decide_False by (intros Hx; by apply Hx).
  - rewrite decide_True by (by intros ->). by f_equal.
Qed.

Lemma rstrip_chars_last chars s :
  match last (rstrip_chars chars s) with
  | Some c => c ∉ chars | None => True end.
Proof.
  unfold rstrip_chars. rewrite last_rev.
  pose proof (drop_while_head (λ c, mem c chars) (rev s)) as H.
  destruct (drop_while _ (rev s)) as [|c t]; [done|]. simpl.
  unfold mem in H. by apply bool_decide_eq_false in H.
Qed.

Lemma rstrip_chars_prefix chars s : rstrip_chars chars s `prefix_of` s.
Proof.
  unfold rstrip_chars.
  exists (rev (take_while (λ c, mem c chars) (rev s))).
  rewrite <- rev_app_distr, take_drop_while. by rewrite rev_involutive.
Qed.

Lemma strip_elem c s : c ∈ strip s → c ∈ s.
Proof.
  unfold strip, lstrip. intros Hc.
  rewrite <- (take_drop_while isspace s). apply elem_of_app. right.
  destruct (rstrip_prefix (drop_while isspace s)) as (ws & Heq).
  rewrite Heq. apply elem_of_app. by left.
Qed.

Lemma rstrip_chars_elem chars c s : c ∈ rstrip_chars chars s → c ∈ s.
Proof.
  intros Hc. destruct (rstrip_chars_prefix chars s) as (ws & Heq).
  rewrite Heq. apply elem_of_app. by left.
Qed.

End SingleCharacters.

Section VocabularyParts.
Context {rt : Runtime}.

Lemma gloss_start_not_space w :
  spells false
    (In (rng "a" "z" :: chars "®") ⋅ Star (NotIn (chars ".!?"))
     ||| In [rng "A" "Z"]
         ⋅ Rep 1 (Some 100) true (In (rng "a" "z" :: chars " ,;:-®()/")))%re w →
  ∃ c t, w = c :: t ∧ isspace c = false.
Proof.
  assert (∀ c, set_has false (rng "a" "z" :: chars "®") c = true
               ∨ set_has false [rng "A" "Z"] c = true → isspace c = false)
    as Hclass.
  { intros c.
    let items := eval vm_compute in (rng "a" "z" :: chars "®") in
      change (rng "a" "z" :: chars "®") with items.
    let items := eval vm_compute in [rng "A" "Z"] in
      change [rng "A" "Z"] with items.
    unfold set_has, isspace. simpl.
    rewrite !orb_true_iff, !andb_true_iff, !N.leb_le, !N.eqb_eq.
    intros H. apply not_true_iff_false.
    rewrite !orb_true_iff, !andb_true_iff, !N.leb_le, !N.eqb_eq. lia. }
  intros [(w1 & w2 & -> & (c & -> & Hc) & _)|(w1 & w2 & -> & (c & -> & Hc) & _)];
    exists c, w2; (split; [done|]); apply Hclass; auto.
Qed.

End VocabularyParts.

Section Filters.
Lemma filter_id {A} (P : A → Prop) `{∀ x, Decision (P x)} (l : list A) :
  Forall P l → filter P l = l.
Proof.
  induction 1 as [|x l Hx _ IH]; [done|].
  by rewrite filter_cons, decide_True, IH.
Qed.
End Filters.

Section Completeness.
Context {rt : Runtime}.

(** ** What the matcher does not miss *)

Lemma spells_consumes ic r : ∀ w,
  consumes r = true → spells ic r w → w ≠ [].
Proof.
  induction r as [|x| |items|items|r1 IH1 r2 IH2|r1 IH1 r2 IH2
                 |lo hi greedy r IH|n r IH| | |]; intros w; simpl; try done.
  - by intros _ (c & -> & _).
  - by intros _ (c & -> & _).
  - by intros _ (c & -> & _).
  - by intros _ (c & -> & _).
  - intros [H|H]%orb_true_iff (w1 & w2 & -> & H1 & H2) [Hw1 Hw2]%app_eq_nil.
    + by eapply IH1.
    + by eapply IH2.
  - intros [H1 H2]%andb_true_iff [H|H]; [by apply IH1|by apply IH2].
  - intros [Hlo Hr]%andb_true_iff (ws & -> & Hall & Hlen & _).
    apply Nat.ltb_lt in Hlo.
    destruct Hall as [|w ws Hw _]; [simpl in Hlen; lia|]. simpl.
    intros [Hnil _]%app_eq_nil. by eapply IH.
  - apply IH.
Qed.

Lemma matching_consumes ic r cur gs cur' gs' :
  consumes r = true → matching ic r cur gs cur' gs' →
  length (c_rest cur') < length (c_rest cur).
Proof.
  intros Hr (w & Hw & _ & Hs)%matching_spells.
  apply (spells_consumes _ _ _ Hr) in Hs. rewrite Hw, length_app.
  destruct w; [done|simpl; lia].
Qed.

Lemma rounds_complete body rel lo hi greedy (k : conts) :
  complete_for body rel →
  (∀ cur gs cur' gs', rel cur gs cur' gs' →
     length (c_rest cur') < length (c_rest cur)) →
  ∀ fuel n cur gs,
    length (c_rest cur) ≤ fuel →
    rounds body lo hi greedy k fuel n cur gs = None →
    ∀ cur' gs', repeats rel lo hi n cur gs cur' gs' → k cur' gs' = None.
Proof.
  intros Hbody Hless.
  induction fuel as [|fuel IH]; intros n cur gs Hfuel Hnone cur' gs' Hrep.
  - destruct Hrep as [n cur gs Hlo|n cur gs cur1 gs1 cur' gs' _ Hrel _].
    + apply Nat.leb_le in Hlo. simpl in Hnone. rewrite Hlo in Hnone.
      by destruct greedy, (k cur gs).
    + apply Hless in Hrel. lia.
  - assert ((if lo <=? n then k cur gs else None) = None
            ∧ (if below n hi
               then body cur gs
                      (λ cur' gs', rounds body lo hi greedy k fuel (S n) cur' gs')
               else None) = None) as [Hstop Hmore].
    { simpl in Hnone. destruct greedy.
      - destruct (if below n hi then _ else None); [done|]. by split.
      - destruct (if lo <=? n then _ else None); [done|]. by split. }
    destruct Hrep as [n cur gs Hlo|n cur gs cur1 gs1 cur' gs' Hbelow Hrel Hrep].
    + apply Nat.leb_le in Hlo. by rewrite Hlo in Hstop.
    + rewrite Hbelow in Hmore.
      pose proof (Hbody _ _ _ Hmore _ _ Hrel) as Hnext. simpl in Hnext.
      apply (IH (S n) cur1 gs1); [|done|done].
      apply Hless in Hrel. lia.
Qed.

Lemma one_complete (p : char → bool) cur gs (k : conts) c cur' :
  one p cur gs k = None → advance cur = Some (c, cur') → p c = true →
  k cur' gs = None.
Proof. unfold one. intros H Ha Hp. by rewrite Ha, Hp in H. Qed.

(** The matcher misses no match of a pattern of the program: where it
    fails, the continuation fails at every match. *)
Lemma exec_complete ic r :
  productive r = true → complete_for (exec ic r) (matching ic r).
Proof.
  induction r as [|x| |items|items|r1 IH1 r2 IH2|r1 IH1 r2 IH2
                 |lo hi greedy r IH|n r IH| | |];
    intros Hr cur gs k Hnone cur' gs' Hm; simpl in Hnone, Hr.
  - by inversion Hm; subst.
  - inversion Hm; subst. by eapply one_complete.
  - inversion Hm; subst. eapply one_complete; [done..|]. by apply negb_true_iff, N.eqb_neq.
  - inversion Hm; subst. by eapply one_complete.
  - inversion Hm; subst. eapply one_complete; [done..|]. by apply negb_true_iff.
  - apply andb_true_iff in Hr as [Hr1 Hr2]. inversion Hm; subst.
    match goal with
    | H1 : matching ic r1 cur gs ?c1 ?g1, H2 : matching ic r2 ?c1 ?g1 cur' gs' |- _ =>
      apply (IH2 Hr2 c1 g1 k); [|exact H2];
      exact (IH1 Hr1 cur gs _ Hnone c1 g1 H1)
    end.
  - apply andb_true_iff in Hr as [Hr1 Hr2].
    destruct (exec ic r1 cur gs k) eqn:H1; [done|].
    inversion Hm; subst.
    + match goal with H : matching ic r1 _ _ _ _ |- _ =>
        exact (IH1 Hr1 cur gs k H1 cur' gs' H) end.
    + match goal with H : matching ic r2 _ _ _ _ |- _ =>
        exact (IH2 Hr2 cur gs k Hnone cur' gs' H) end.
  - apply andb_true_iff in Hr as [Hc Hp]. inversion Hm; subst.
    match goal with H : repeats _ _ _ _ _ _ _ _ |- _ =>
      apply (rounds_complete (exec ic r) (matching ic r) lo hi greedy k
               (IH Hp) (λ c g c' g', matching_consumes ic r c g c' g' Hc)
               (length (c_rest cur)) 0 cur gs (Nat.le_refl _) Hnone cur' gs' H)
    end.
  - inversion Hm; subst.
    match goal with H : matching ic r _ _ _ _ |- _ =>
      exact (IH Hr cur gs _ Hnone cur' _ H) end.
  - inversion Hm; subst.
    match goal with H : c_pos _ = 0 |- _ => rewrite H in Hnone end. done.
  - inversion Hm; subst.
    match goal with H : at_eos _ = true |- _ => rewrite H in Hnone end. done.
  - inversion Hm; subst.
    match goal with H : at_boundary _ = true |- _ => rewrite H in Hnone end.
    done.
Qed.

End Completeness.

Section LazyRuns.
Context {rt : Runtime}.

(** ** The first stop of a lazy repetition *)

(** A lazy repetition of one character of a class stops at the first
    round where the continuation accepts: it has failed at every round
    before, where the repetition could stop. *)
Lemma rounds_lazy_first body (p : char → bool) lo hi (k : conts) :
  (∀ cur gs k, body cur gs k = one p cur gs k) →
  ∀ fuel n cur gs res,
    rounds body lo hi false k fuel n cur gs = Some res →
    ∃ run cur',
      c_rest cur = run ++ c_rest cur'
      ∧ c_pos cur' = c_pos cur + length run
      ∧ Forall (λ c, p c = true) run
      ∧ match hi with
        | Some h => run = [] ∨ n + length run ≤ h
        | None => True
        end
      ∧ k cur' gs = Some res
      ∧ ∀ i, i < length run → lo ≤ n + i →
          ∃ cur_i, c_pos cur_i = c_pos cur + i
                   ∧ c_rest cur_i = drop i (c_rest cur)
                   ∧ k cur_i gs = None.
Proof.
  intros Hbody.
  assert (∀ n cur gs res,
            (if lo <=? n then k cur gs else None) = Some res →
            ∃ run cur',
              c_rest cur = run ++ c_rest cur'
              ∧ c_pos cur' = c_pos cur + length run
              ∧ Forall (λ c, p c = true) run
              ∧ match hi with
                | Some h => run = [] ∨ n + length run ≤ h
                | None => True
                end
              ∧ k cur' gs = Some res
              ∧ ∀ i, i < length run → lo ≤ n + i →
                  ∃ cur_i, c_pos cur_i = c_pos cur + i
                           ∧ c_rest cur_i = drop i (c_rest cur)
                           ∧ k cur_i gs = None) as Hstop.
  { intros n cur gs res. destruct (lo <=? n); [|done]. intros Hk.
    exists [], cur. simpl.
    split_and!; [done|lia|done|destruct hi; auto|done|intros; lia]. }
  induction fuel as [|fuel IH]; intros n cur gs res; simpl.
  - destruct (if lo <=? n then k cur gs else None) as [res0|] eqn:Hs; [|done].
    intros [= ->]. by apply Hstop.
  - destruct (if lo <=? n then k cur gs else None) as [res0|] eqn:Hs.
    { intros [= ->]. by apply Hstop. }
    destruct (below n hi) eqn:Hbelow; [|done].
    rewrite Hbody. intros (c & cur1 & Ha & Hc & Hnext)%one_sound.
    apply IH in Hnext as (run & cur' & Hr & Hp & Hall & Hhi & Hk & Hfirst).
    unfold advance in Ha. destruct (c_rest cur) as [|c0 rest0] eqn:Hrest; [done|].
    injection Ha as -> <-. simpl in *.
    exists (c :: run), cur'. simpl.
    split_and!; [by rewrite Hr|lia|by constructor| |done|].
    + destruct hi as [h|]; [|done]. right. unfold below in Hbelow.
      apply Nat.ltb_lt in Hbelow. destruct Hhi as [->|Hhi]; simpl; lia.
    + intros [|i] Hi Hlo.
      * exists cur. rewrite Nat.add_0_r in *. split_and!; [lia|by rewrite Hrest|].
        apply Nat.leb_le in Hlo. by rewrite Hlo in Hs.
      * destruct (Hfirst i) as (cur_i & Hpi & Hri & Hki); [lia|lia|].
        exists cur_i. split_and!; [lia|done|done].
Qed.

End LazyRuns.

Section Building.
Context {rt : Runtime}.

(** ** A match for every text a pattern spells *)

Lemma repeats_spelled ic r lo hi rest :
  (∀ w cur gs rest, spells ic r w → c_rest cur = w ++ rest →
     ∃ cur' gs', matching ic r cur gs cur' gs' ∧ c_rest cur' = rest) →
  ∀ ws, Forall (spells ic r) ws →
  ∀ n cur gs,
    c_rest cur = concat ws ++ rest → lo ≤ n + length ws →
    match hi with Some h => n + length ws ≤ h | None => True end →
    ∃ cur' gs', repeats (matching ic r) lo hi n cur gs cur' gs'
                ∧ c_rest cur' = rest.
Proof.
  intros Hr ws Hall.
  induction Hall as [|w ws Hw _ IH]; intros n cur gs Hrest Hlo Hhi; simpl in *.
  - exists cur, gs. split; [|done]. apply repeats_stop. lia.
  - rewrite <- app_assoc in Hrest.
    destruct (Hr w cur gs _ Hw Hrest) as (cur1 & gs1 & Hm & Hrest1).
    destruct (IH (S n) cur1 gs1 Hrest1) as (cur' & gs' & Hrep & Hrest');
      [lia|destruct hi; [lia|done]|].
    exists cur', gs'. split; [|done].
    eapply repeats_more; [|done|done].
    unfold below. destruct hi as [h|]; [|done]. apply Nat.ltb_lt. lia.
Qed.

(** Where the subject goes on with a text the pattern spells, the
    pattern has a match that reads this text. *)
Lemma spells_matching ic r :
  anchor_free r = true →
  ∀ w cur gs rest,
    spells ic r w → c_rest cur = w ++ rest →
    ∃ cur' gs', matching ic r cur gs cur' gs' ∧ c_rest cur' = rest.
Proof.
  assert (∀ c cur rest, c_rest cur = [c] ++ rest →
            advance cur = Some (c, Cursor (S (c_pos cur)) (Some c) rest))
    as Hadv.
  { intros c cur rest Hr. unfold advance. by rewrite Hr. }
  induction r as [|x| |items|items|r1 IH1 r2 IH2|r1 IH1 r2 IH2
                 |lo hi greedy r IH|n r IH| | |];
    intros Hr w cur gs rest; simpl in Hr; try done; simpl.
  - intros -> Hrest. exists cur, gs. split; [constructor|done].
  - intros (c & -> & Hc) Hrest%Hadv. eexists _, gs.
    split; [by econstructor|done].
  - intros (c & -> & Hc) Hrest%Hadv. eexists _, gs.
    split; [by econstructor|done].
  - intros (c & -> & Hc) Hrest%Hadv. eexists _, gs.
    split; [by econstructor|done].
  - intros (c & -> & Hc) Hrest%Hadv. eexists _, gs.
    split; [by econstructor|done].
  - apply andb_true_iff in Hr as [Hr1 Hr2].
    intros (w1 & w2 & -> & H1 & H2) Hrest. rewrite <- app_assoc in Hrest.
    destruct (IH1 Hr1 _ _ gs _ H1 Hrest) as (cur1 & gs1 & Hm1 & Hrest1).
    destruct (IH2 Hr2 _ _ gs1 _ H2 Hrest1) as (cur' & gs' & Hm2 & Hrest').
    exists cur', gs'. split; [by econstructor|done].
  - apply andb_true_iff in Hr as [Hr1 Hr2]. intros [H|H] Hrest.
    + destruct (IH1 Hr1 _ _ gs _ H Hrest) as (cur' & gs' & Hm & Hrest').
      exists cur', gs'. split; [by apply matching_alt_l|done].
    + destruct (IH2 Hr2 _ _ gs _ H Hrest) as (cur' & gs' & Hm & Hrest').
      exists cur', gs'. split; [by apply matching_alt_r|done].
  - intros (ws & -> & Hall & Hlo & Hhi) Hrest.
    destruct (repeats_spelled ic r lo hi rest (IH Hr) ws Hall 0 cur gs Hrest)
      as (cur' & gs' & Hrep & Hrest'); [lia|done|].
    exists cur', gs'. split; [by constructor|done].
  - intros Hw Hrest.
    destruct (IH Hr _ _ gs _ Hw Hrest) as (cur' & gs' & Hm & Hrest').
    eexists cur', _. split; [by constructor|done].
Qed.

(** A run of characters of a class is spelled by the repetition of the
    class. *)
Lemma spells_run_of ic lo hi greedy r (p : char → Prop) (run : pystr) :
  (∀ c, p c → spells ic r [c]) → Forall p run →
  lo ≤ length run →
  match hi with Some h => length run ≤ h | None => True end →
  spells ic (Rep lo hi greedy r) run.
Proof.
  intros Hr Hall Hlo Hhi. simpl. exists ((λ c, [c]) <$> run).
  rewrite length_fmap. split_and!; [|by apply Forall_fmap, (Forall_impl _ _ _ Hall)|done..].
  clear. induction run as [|c run IH]; [done|]. rewrite fmap_cons. simpl. by f_equal.
Qed.

End Building.

Section ParenSearch.
Context {rt : Runtime}.

(** ** The search of the parenthetical *)

(** The rounds of a greedy repetition of one character of a class, at a
    run of such characters that a character outside the class ends: all
    of the run is taken when the continuation accepts there. *)
Lemma rounds_greedy_run body (p : char → bool) lo k res gs (run : pystr) x rest :
  (∀ cur gs k, body cur gs k = one p cur gs k) →
  Forall (λ c, p c = true) run → p x = false →
  ∀ fuel n cur,
    c_rest cur = run ++ x :: rest → length run ≤ fuel → lo ≤ n + length run →
    (∀ cur', c_pos cur' = c_pos cur + length run → c_rest cur' = x :: rest →
       k cur' gs = Some res) →
    rounds body lo None true k fuel n cur gs = Some res.
Proof.
  intros Hbody Hrun Hx.
  induction Hrun as [|c run Hc _ IH]; intros fuel n cur Hr Hf Hlo Hk.
  - simpl in *. assert (k cur gs = Some res) as Hres by (apply Hk; [lia|done]).
    assert ((lo <=? n) = true) as Hle by (apply Nat.leb_le; lia).
    destruct fuel as [|fuel]; simpl.
    + by rewrite Hle, Hres.
    + rewrite Hbody. unfold one, advance. by rewrite Hr, Hx, Hle, Hres.
  - destruct fuel as [|fuel]; [simpl in Hf; lia|]. simpl.
    rewrite Hbody. unfold one at 1, advance. rewrite Hr. simpl. rewrite Hc.
    rewrite (IH fuel (S n) (Cursor (S (c_pos cur)) (Some c) (run ++ x :: rest)));
      [done|done|simpl in Hf; lia|simpl in Hlo; lia|].
    intros cur' Hp Hr'. apply Hk; [simpl in *; lia|done].
Qed.

(** The pattern of the parenthetical matches where a parenthetical
    stands, and takes it whole. *)
Lemma paren_match_here s cur (body rest : pystr) :
  c_rest cur = ch "(" :: body ++ ch ")" :: rest →
  body ≠ [] → Forall (λ c, c ∉ u ")") body →
  match_at false PAREN_RE s cur
  = Some (RMatch s (c_pos cur) (c_pos cur + length body + 2)
            [(1, (S (c_pos cur), S (c_pos cur) + length body))]).
Proof.
  intros Hr Hne Hbody. unfold match_at.
  let r := eval vm_compute in PAREN_RE in change PAREN_RE with r.
  cbn [exec]. unfold one at 1, advance. rewrite Hr.
  change (lit_has false 40 (ch "(")) with true. cbv iota beta.
  cbn [c_rest c_pos].
  rewrite (rounds_greedy_run _ (λ c, negb (set_has false (chars ")") c))
             1 _ (Cursor (c_pos cur + length body + 2) (Some 41%N) rest,
                  [(1, (S (c_pos cur), S (c_pos cur) + length body))])
             [] body (ch ")") rest);
    [cbn [c_pos]; reflexivity|reflexivity| |reflexivity|reflexivity
    |rewrite length_app; simpl; lia
    |destruct body; [done|simpl; lia]|].
  - eapply Forall_impl; [exact Hbody|]. intros c Hc. simpl.
    apply negb_true_iff. by apply set_has_not_chars.
  - intros cur' Hp Hr'. simpl in Hp. unfold one, advance. rewrite Hr'.
    change (lit_has false 41 (ch ")")) with true. cbv iota beta.
    cbn [c_pos]. rewrite Hp. do 2 f_equal. f_equal. lia.
Qed.

(** It matches nowhere else. *)
Lemma paren_match_other s cur :
  (∀ rest, c_rest cur ≠ ch "(" :: rest) →
  match_at false PAREN_RE s cur = None.
Proof.
  intros Hr. unfold match_at.
  let r := eval vm_compute in PAREN_RE in change PAREN_RE with r.
  cbn [exec]. unfold one at 1, advance. destruct (c_rest cur) as [|c rest]; [done|].
  unfold lit_has. cbn [andb]. destruct (N.eqb_spec c 40) as [->|Hne]; [|done].
  by destruct (Hr rest).
Qed.

Lemma paren_search_from s (pre : pystr) : ∀ fuel cur,
  Forall (λ c, c ≠ ch "(") pre →
  (∀ tail, c_rest cur = pre ++ tail → length pre ≤ fuel →
     search_from false PAREN_RE s fuel cur
     = search_from false PAREN_RE s (fuel - length pre)
         (Cursor (c_pos cur + length pre)
            (from_option Some (c_prev cur) (last pre)) tail)).
Proof.
  induction pre as [|c pre IH]; intros fuel cur Hpre tail Hr Hf.
  - simpl in *. rewrite Nat.sub_0_r, Nat.add_0_r. by destruct cur; simpl in *; subst.
  - apply Forall_cons in Hpre as [Hc Hpre]. simpl in Hf.
    destruct fuel as [|fuel]; [lia|]. cbn [search_from].
    rewrite paren_match_other by (intros rest; rewrite Hr; simpl; congruence).
    unfold advance. rewrite Hr. simpl.
    rewrite (IH fuel _ Hpre tail); [|done|lia]. simpl.
    f_equal. f_equal; [simpl; lia|]. destruct pre as [|c' pre']; [done|].
    rewrite last_cons_cons.
    destruct (last (c' :: pre')) eqn:Hlast; [done|]. by apply last_None in Hlast.
Qed.

(** The search finds the first parenthetical: after a text without an
    opening parenthesis, it is the parenthetical that stands there. *)
Lemma paren_search_found (pre body rest : pystr) :
  Forall (λ c, c ≠ ch "(") pre → body ≠ [] → Forall (λ c, c ∉ u ")") body →
  ∃ pm, re_search false PAREN_RE (pre ++ u "(" ++ body ++ u ")" ++ rest) = Some pm
        ∧ m_start pm = length pre ∧ group pm 0 = u "(" ++ body ++ u ")".
Proof.
  intros Hpre Hne Hbody. unfold re_search.
  set (s := pre ++ u "(" ++ body ++ u ")" ++ rest).
  rewrite (paren_search_from s pre _ _ Hpre (u "(" ++ body ++ u ")" ++ rest));
    [|done|unfold s; rewrite length_app; lia].
  destruct (length s - length pre) as [|fuel] eqn:Hfuel; cbn [search_from];
    erewrite paren_match_here by (simpl; done || reflexivity).
  all: eexists; split; [reflexivity|]; cbn [m_start m_end c_pos start_of];
    split; [lia|]; unfold group; cbn [m_start m_end m_subject].
  all: apply (slice_middle s pre (u "(" ++ body ++ u ")") rest);
    [unfold s; by rewrite <- !app_assoc|lia|rewrite !length_app; simpl; lia].
Qed.

(** A text without an opening parenthesis has no parenthetical. *)
Lemma paren_search_none (s : pystr) :
  Forall (λ c, c ≠ ch "(") s → re_search false PAREN_RE s = None.
Proof.
  intros Hs. unfold re_search.
  rewrite (paren_search_from s s _ _ Hs []);
    [|by rewrite app_nil_r|done].
  rewrite Nat.sub_diag. cbn [search_from].
  by rewrite paren_match_other.
Qed.

End ParenSearch.

Section VocabularyShapes.
Context {rt : Runtime}.

(** ** The parts of the vocabulary pattern *)

Ltac class_cases :=
  unfold set_has, is_letter; simpl;
  rewrite ?orb_true_iff, ?andb_true_iff, ?N.leb_le, ?N.eqb_eq, ?orb_false_r;
  rewrite ?elem_of_cons, ?elem_of_nil.

Lemma letter_class c : set_has false LETTER c = true ↔ is_letter c.
Proof.
  unfold is_letter.
  let items := eval vm_compute in LETTER in change LETTER with items.
  let w := eval vm_compute in (u "čćđšžČĆĐŠŽ") in change (u "čćđšžČĆĐŠŽ") with w.
  class_cases. change (ch "a") with 97%N. change (ch "z") with 122%N.
  change (ch "A") with 65%N. change (ch "Z") with 90%N.
  split; intros H; destruct_or!; try done; lia.
Qed.

Lemma set_has_app items1 items2 c :
  set_has false (items1 ++ items2) c
  = set_has false items1 c || set_has false items2 c.
Proof. unfold set_has. simpl. apply existsb_app. Qed.

Lemma term_class c :
  set_has false (LETTER ++ chars "-/ ") c = true
  ↔ is_letter c ∨ c ∈ u "-/ ".
Proof. by rewrite set_has_app, orb_true_iff, letter_class, set_has_chars. Qed.

Lemma small_class (word : string) c :
  set_has false (rng "a" "z" :: chars word) c = true
  ↔ (ch "a" ≤ c ∧ c ≤ ch "z")%N ∨ c ∈ u word.
Proof.
  rewrite (set_has_app [rng "a" "z"] (chars word)), orb_true_iff, set_has_chars.
  unfold set_has, rng. simpl. by rewrite orb_false_r, andb_true_iff, !N.leb_le.
Qed.

Lemma capital_class c :
  set_has false [rng "A" "Z"] c = true ↔ (ch "A" ≤ c ∧ c ≤ ch "Z")%N.
Proof.
  unfold set_has, rng. simpl. by rewrite orb_false_r, andb_true_iff, !N.leb_le.
Qed.

Lemma spells_word_self (w0 : pystr) :
  spells false (foldr (λ c r, Cat (Lit c) r) Eps w0) w0.
Proof.
  induction w0 as [|x w0 IH]; simpl; [done|].
  exists [x], w0. split_and!; [done| |done].
  exists x. split; [done|]. unfold lit_has. simpl. apply N.eqb_refl.
Qed.

Lemma note_spells w :
  spells false (Opt (lit "(" ⋅ Plus (NotIn (chars ")")) ⋅ lit ")")) w
  ↔ w = []
    ∨ ∃ body, w = u "(" ++ body ++ u ")" ∧ body ≠ []
              ∧ Forall (λ x, x ∉ u ")") body.
Proof.
  split.
  - intros [->|Hw]%spells_opt; [by left|]. right.
    destruct Hw as (w12 & w3 & -> & (w1 & w2 & -> & ->%spells_lit & Hw2)
                    & ->%spells_lit).
    change (spells false (Plus (NotIn (chars ")"))) w2) in Hw2.
    apply spells_not_in_run in Hw2 as (Hall & Hlen%nonempty_length & _).
    exists w2. by rewrite <- app_assoc.
  - unfold Opt. cbn [spells]. intros [->|(body & -> & Hne & Hall)].
    + exists []. split_and!; [done|constructor|simpl; lia|simpl; lia].
    + exists [u "(" ++ body ++ u ")"].
      split_and!; [by rewrite concat_cons, app_nil_r| |simpl; lia|simpl; lia].
      constructor; [|constructor]. cbn [spells].
      exists (u "(" ++ body), (u ")"). split_and!; [by rewrite <- app_assoc| |].
      * exists (u "("), body. split_and!; [done|apply spells_word_self|].
        apply (spells_run_of false 1 None true _ (λ x, x ∉ u ")"));
          [|done|destruct body; [done|simpl; lia]|done].
        intros c Hc. exists c. split; [done|]. by apply set_has_not_chars.
      * apply spells_word_self.
Qed.

Lemma blanks_spells w :
  spells false (Plus Space) w ↔ w ≠ [] ∧ Forall (λ x, isspace x = true) w.
Proof.
  split.
  - intros (Hall & Hlen%nonempty_length & _)%spells_space_run. by split.
  - intros [Hne Hall].
    apply (spells_run_of false 1 None true _ (λ x, isspace x = true));
      [|done|destruct w; [done|simpl; lia]|done].
    intros c Hc. exists c. split; [done|].
    unfold set_has. simpl. by rewrite orb_false_r.
Qed.

Lemma gloss_spells w :
  spells false
    (In (rng "a" "z" :: chars "®") ⋅ Star (NotIn (chars ".!?"))
     ||| In [rng "A" "Z"]
         ⋅ Rep 1 (Some 100) true (In (rng "a" "z" :: chars " ,;:-®()/")))%re w
  ↔ ∃ g t, w = g :: t
      ∧ ((((ch "a" ≤ g ∧ g ≤ ch "z")%N ∨ g = ch "®")
          ∧ Forall (λ x, x ∉ u ".!?") t)
         ∨ ((ch "A" ≤ g ∧ g ≤ ch "Z")%N
            ∧ 1 ≤ length t ∧ length t ≤ 100
            ∧ Forall (λ x, (ch "a" ≤ x ∧ x ≤ ch "z")%N
                           ∨ x ∈ u " ,;:-®()/") t)).
Proof.
  split.
  - intros [(w1 & w2 & -> & (g & -> & Hg) & Hw2)
           |(w1 & w2 & -> & (g & -> & Hg) & Hw2)]; exists g, w2; (split; [done|]).
    + left. apply small_class in Hg.
      change (spells false (Rep 0 None true (NotIn (chars ".!?"))) w2) in Hw2.
      apply spells_not_in_run in Hw2 as (Hall & _). split; [|done].
      destruct Hg as [Hg|Hg]; [by left|right].
      apply elem_of_cons in Hg as [->|Hg]; [done|]. by apply elem_of_nil in Hg.
    + right. apply capital_class in Hg.
      apply spells_in_run in Hw2 as (Hall & Hlo & Hhi). simpl in Hhi.
      destruct Hg. split_and!; [done..|]. eapply Forall_impl; [exact Hall|].
      intros x Hx. by apply small_class.
  - cbn [spells]. intros (g & t & -> & [[Hg Hall]|(Hg & Hlo & Hhi & Hall)]).
    + left. exists [g], t. split_and!; [done| |].
      * exists g. split; [done|]. apply small_class.
        destruct Hg as [Hg| ->]; [by left|right]. by left.
      * apply (spells_run_of false 0 None true _ (λ x, x ∉ u ".!?"));
          [|done|lia|done].
        intros c Hc. exists c. split; [done|]. by apply set_has_not_chars.
    + right. exists [g], t. split_and!; [done| |].
      * exists g. split; [done|]. by apply capital_class.
      * change (spells false (Rep 1 (Some 100) true
                                (In (rng "a" "z" :: chars " ,;:-®()/"))) t).
        apply (spells_run_of false 1 (Some 100) true _
                 (λ x, (ch "a" ≤ x ∧ x ≤ ch "z")%N ∨ x ∈ u " ,;:-®()/"));
          [|done..].
        intros c Hc. exists c. split; [done|]. by apply small_class.
Qed.

End VocabularyShapes.

Section VocabularySplit.
Context {rt : Runtime}.

(** ** The split the vocabulary pattern takes *)

Lemma exec_cat ic r1 r2 cur gs (k : conts) :
  exec ic (Cat r1 r2) cur gs k
  = exec ic r1 cur gs (λ cur' gs', exec ic r2 cur' gs' k).
Proof. done. Qed.

Lemma exec_grp ic n r cur gs (k : conts) :
  exec ic (Grp n r) cur gs k
  = exec ic r cur gs (λ cur' gs', k cur' ((n, (c_pos cur, c_pos cur')) :: gs')).
Proof. done. Qed.

Lemma exec_rep ic lo hi greedy r cur gs (k : conts) :
  exec ic (Rep lo hi greedy r) cur gs k
  = rounds (exec ic r) lo hi greedy k (length (c_rest cur)) 0 cur gs.
Proof. done. Qed.

Lemma exec_in ic items cur gs (k : conts) :
  exec ic (In items) cur gs k = one (set_has ic items) cur gs k.
Proof. done. Qed.

Lemma exec_bos ic cur gs (k : conts) :
  exec ic Bos cur gs k = if c_pos cur =? 0 then k cur gs else None.
Proof. done. Qed.

Lemma exec_eos ic cur gs (k : conts) :
  exec ic Eos cur gs k = if at_eos cur then k cur gs else None.
Proof. done. Qed.

Lemma at_eos_end line (pre : pystr) cur :
  strip line = pre ++ c_rest cur → at_eos cur = true → c_rest cur = [].
Proof.
  unfold at_eos. destruct (c_rest cur) as [|x [|y t]]; [done| |done].
  intros Hs ->%N.eqb_eq. pose proof (strip_last line) as Hl.
  by rewrite Hs, last_snoc in Hl.
Qed.

Lemma vocab_match_split line m :
  re_match false VOCAB_FULL_RE (strip line) = Some m →
  ∃ term note ws gloss,
    vocab_split (strip line) term note ws gloss
    ∧ group m 1 = term ++ note ∧ group m 2 = gloss
    ∧ ∀ term' note' ws' gloss',
        vocab_split (strip line) term' note' ws' gloss' →
        length term ≤ length term'.
Proof.
  unfold re_match, match_at. set (s := strip line).
  destruct (exec false VOCAB_FULL_RE (start_of s) [] _)
    as [[cur_end gs_end]|] eqn:He; [|done].
  intros [= <-]. unfold VOCAB_FULL_RE in He.
  rewrite !exec_cat, exec_bos in He.
  change (c_pos (start_of s) =? 0) with true in He. cbv iota beta in He.
  rewrite exec_grp, !exec_cat, exec_in in He.
  apply one_sound in He as (c & cur0 & Ha & Hc & He).
  rewrite exec_rep in He.
  apply (rounds_lazy_first _ (set_has false (LETTER ++ chars "-/ "))) in He
    as (run & curj & Hrun & Hposj & Hall & Hhi & Hk & Hfirst); [|done].
  apply exec_sound in Hk as (c1 & g1 & HmO & Hk). cbv beta in Hk.
  apply exec_sound in Hk as (c2 & g2 & HmS & Hk). cbv beta in Hk.
  apply exec_sound in Hk as (c3 & g3 & HmG & Hk). cbv beta in Hk.
  rewrite exec_eos in Hk. destruct (at_eos c3) eqn:Heos; [|done].
  injection Hk as <- <-.
  apply advance_start in Ha as (rest0 & Hs & ->).
  cbn [c_rest c_pos] in *.
  inversion HmG as [| | | | | | | | |? ? ? ? ? g' HmA| | |]; subst.
  pose proof HmO as N1; apply matching_no_groups in N1; [|reflexivity].
  pose proof HmS as N2; apply matching_no_groups in N2; [|reflexivity].
  pose proof HmA as N3; apply matching_no_groups in N3; [|reflexivity].
  subst.
  apply matching_spells in HmO as (wO & HrO & HpO & HsO).
  apply matching_spells in HmS as (wS & HrS & HpS & HsS).
  apply matching_spells in HmA as (wG & HrG & HpG & HsG).
  assert (s = (c :: run) ++ wO ++ wS ++ wG ++ c_rest c3) as Hs'.
  { rewrite Hs, HrO, HrS, HrG. done. }
  assert (c_rest c3 = []) as Hend.
  { apply (at_eos_end line ((c :: run) ++ wO ++ wS ++ wG)); [|done].
    fold s. rewrite Hs'. by rewrite <- !app_assoc. }
  rewrite Hend, app_nil_r in Hs'. clear Hs.
  exists (c :: run), wO, wS, wG. split_and!.
  - split_and!; [done| |by apply note_spells|by apply blanks_spells
                |by apply blanks_spells|by apply gloss_spells].
    exists c, run. split_and!; [done|by apply letter_class| |].
    + eapply Forall_impl; [exact Hall|]. intros x Hx. by apply term_class.
    + destruct Hhi as [->|Hhi]; simpl; lia.
  - unfold group. cbn [m_groups m_subject span_of Nat.eqb c_pos start_of].
    apply (slice_middle s [] ((c :: run) ++ wO) (wS ++ wG));
      [by rewrite Hs', <- !app_assoc|done|rewrite length_app; simpl; lia].
  - unfold group. cbn [m_groups m_subject span_of Nat.eqb c_pos start_of].
    apply (slice_middle s ((c :: run) ++ wO ++ wS) wG []);
      [by rewrite Hs', app_nil_r, <- !app_assoc
      |rewrite !length_app; simpl; lia|lia].
  - intros term' note' ws' gloss'
      (Heq & (c' & t' & -> & Hc' & Ht' & Hlen') & Hnote' & Hne' & Hws' & Hgloss').
    destruct (decide (length t' < length run)) as [Hlt|]; [exfalso|simpl; lia].
    destruct (Hfirst (length t') Hlt) as (cur_i & _ & Hri & Hnone); [lia|].
    assert (c_rest cur_i = note' ++ ws' ++ gloss') as Hri'.
    { rewrite Hri, HrO, HrS, HrG, Hend, app_nil_r.
      fold s in Heq. rewrite Hs' in Heq. simpl in Heq. injection Heq as _ Heq.
      rewrite Heq. apply drop_app_length. }
    destruct (spells_matching false
                (Opt (lit "(" ⋅ Plus (NotIn (chars ")")) ⋅ lit ")")) eq_refl
                note' cur_i [] (ws' ++ gloss'))
      as (d1 & h1 & Hm1 & Hr1); [by apply note_spells|done|].
    match type of Hm1 with matching _ ?r _ _ _ _ =>
      pose proof (exec_complete false r eq_refl _ _ _ Hnone _ _ Hm1) as Hn1 end.
    cbv beta in Hn1.
    destruct (spells_matching false (Plus Space) eq_refl
                ws' d1 ((1, (c_pos (start_of s), c_pos d1)) :: h1) gloss')
      as (d2 & h2 & Hm2 & Hr2); [by apply blanks_spells|done|].
    match type of Hm2 with matching _ ?r _ _ _ _ =>
      pose proof (exec_complete false r eq_refl _ _ _ Hn1 _ _ Hm2) as Hn2 end.
    cbv beta in Hn2.
    destruct (spells_matching false
                (Grp 2
                   (In (rng "a" "z" :: chars "®") ⋅ Star (NotIn (chars ".!?"))
                    ||| In [rng "A" "Z"]
                        ⋅ Rep 1 (Some 100) true
                            (In (rng "a" "z" :: chars " ,;:-®()/"))))
                eq_refl gloss' d2 h2 [])
      as (d3 & h3 & Hm3 & Hr3);
      [by apply gloss_spells|by rewrite app_nil_r|].
    match type of Hm3 with matching _ ?r _ _ _ _ =>
      pose proof (exec_complete false r eq_refl _ _ _ Hn2 _ _ Hm3) as Hn3 end.
    cbv beta in Hn3. rewrite exec_eos in Hn3. unfold at_eos in Hn3.
    by rewrite Hr3 in Hn3.
Qed.

End VocabularySplit.

Section VocabularyEntry.
Context {rt : Runtime}.

(** ** The entry of a vocabulary line *)

Lemma run_split_unique (p : char → Prop) (w w' g g' : pystr) x y :
  Forall p w → Forall p w' → ¬ p x → ¬ p y →
  w ++ x :: g = w' ++ y :: g' → w = w' ∧ x :: g = y :: g'.
Proof.
  intros Hw. revert w'. induction Hw as [|c w Hc _ IH]; intros w' Hw' Hx Hy.
  - destruct Hw' as [|c' w' Hc' _]; [done|]. simpl. by intros [= -> _].
  - destruct Hw' as [|c' w' Hc' Hw']; simpl.
    + by intros [= -> _].
    + intros [= -> Heq]. destruct (IH w' Hw' Hx Hy Heq) as [-> ?]. done.
Qed.

(** The split of a line is the only one with a term of its length. *)
Lemma vocab_split_unique s term note ws gloss term' note' ws' gloss' :
  vocab_split s term note ws gloss → vocab_split s term' note' ws' gloss' →
  length term' = length term →
  term' = term ∧ note' = note ∧ ws' = ws ∧ gloss' = gloss.
Proof.
  intros (Hs & _ & Hn & Hne & Hws & Hg) (Hs' & _ & Hn' & Hne' & Hws' & Hg') Hlen.
  rewrite Hs in Hs'. apply app_inj_1 in Hs' as [<- Hrest]; [|done].
  split; [done|].
  assert (∃ x w0 y g0, ws = x :: w0 ∧ gloss = y :: g0 ∧ isspace x = true
                       ∧ isspace y = false) as (x & w0 & y & g0 & Ew & Eg & Hx & Hy).
  { destruct ws as [|x w0]; [done|]. apply Forall_cons in Hws as [Hx _].
    destruct (gloss_start_not_space gloss) as (y & g0 & -> & Hy);
      [by apply gloss_spells|]. by exists x, w0, y, g0. }
  assert (∃ x w0 y g0, ws' = x :: w0 ∧ gloss' = y :: g0 ∧ isspace x = true
                       ∧ isspace y = false)
    as (x' & w0' & y' & g0' & Ew' & Eg' & Hx' & Hy').
  { destruct ws' as [|x' w0']; [done|]. apply Forall_cons in Hws' as [Hx' _].
    destruct (gloss_start_not_space gloss') as (y' & g0' & -> & Hy');
      [by apply gloss_spells|]. by exists x', w0', y', g0'. }
  assert (ws ++ gloss = ws' ++ gloss' → ws' = ws ∧ gloss' = gloss) as Hblanks.
  { rewrite Eg, Eg'. intros Heq.
    destruct (run_split_unique (λ c, isspace c = true) ws ws' g0 g0' y y')
      as [-> ->]; [done|done|congruence|congruence|done|done]. }
  destruct Hn as [->|(body & -> & _ & Hbody)],
           Hn' as [->|(body' & -> & _ & Hbody')]; simpl in Hrest.
  - by destruct (Hblanks Hrest) as [-> ->].
  - rewrite Ew in Hrest. injection Hrest as -> _. by vm_compute in Hx.
  - rewrite Ew' in Hrest. injection Hrest as <- _. by vm_compute in Hx'.
  - injection Hrest as Hrest. rewrite <- !app_assoc in Hrest. simpl in Hrest.
    destruct (run_split_unique (λ c, c ∉ u ")") body body'
                (ws ++ gloss) (ws' ++ gloss') (ch ")") (ch ")"))
      as [-> [= Heq]]; [done|done| | |done|].
    + intros H. apply H. by left.
    + intros H. apply H. by left.
    + by destruct (Hblanks Heq) as [-> ->].
Qed.

Lemma term_no_paren (term : pystr) :
  (∃ c t, term = c :: t ∧ is_letter c
          ∧ Forall (λ x, is_letter x ∨ x ∈ u "-/ ") t ∧ length t ≤ 50) →
  Forall (λ x, x ≠ ch "(") term
  ∧ ∃ c t, term = c :: t ∧ isspace c = false.
Proof.
  assert (∀ x, is_letter x ∨ x ∈ u "-/ " → x ≠ ch "(") as Hno.
  { intros x Hx ->. destruct Hx as [Hx|Hx].
    - unfold is_letter in Hx. vm_compute in Hx.
      destruct Hx as [[H1 H2]|[[H1 H2]|Hx]]; [by destruct H2|by destruct H1|].
      repeat (apply elem_of_cons in Hx as [Hx|Hx]; [done|]).
      by apply elem_of_nil in Hx.
    - repeat (apply elem_of_cons in Hx as [Hx|Hx]; [done|]).
      by apply elem_of_nil in Hx. }
  intros (c & t & -> & Hc & Ht & _). split.
  - constructor; [apply Hno; by left|]. eapply Forall_impl; [exact Ht|done].
  - exists c, t. split; [done|]. by apply letter_not_space, letter_class.
Qed.

(** The parenthetical of a term, as the search finds it, and what is
    left of the term. *)
Lemma term_note_search (term note : pystr) :
  (∃ c t, term = c :: t ∧ is_letter c
          ∧ Forall (λ x, is_letter x ∨ x ∈ u "-/ ") t ∧ length t ≤ 50) →
  (note = []
   ∨ ∃ body, note = u "(" ++ body ++ u ")" ∧ body ≠ []
             ∧ Forall (λ x, x ∉ u ")") body) →
  let croatian_raw := strip (term ++ note) in
  match re_search false PAREN_RE croatian_raw with
  | Some pm => group pm 0 = note ∧ note ≠ []
               ∧ strip (take (m_start pm) croatian_raw) = strip term
  | None => note = [] ∧ croatian_raw = strip term
  end.
Proof.
  intros Hterm Hnote. destruct (term_no_paren term Hterm)
    as (Hno & c & t & -> & Hc).
  destruct Hnote as [->|(body & -> & Hne & Hbody)]; cbv zeta.
  - rewrite app_nil_r. rewrite paren_search_none; [done|].
    apply Forall_forall. intros x Hx%strip_elem.
    rewrite Forall_forall in Hno. by apply Hno.
  - assert (strip ((c :: t) ++ u "(" ++ body ++ u ")")
            = (c :: t) ++ u "(" ++ body ++ u ")") as ->.
    { apply strip_fixed; [done|].
      change (u ")") with [ch ")"]. rewrite !app_assoc, last_snoc. done. }
    destruct (paren_search_found (c :: t) body [] Hno Hne Hbody)
      as (pm & Hpm & Hstart & Hgroup).
    rewrite app_nil_r in Hpm. rewrite Hpm, Hstart, Hgroup.
    split_and!; [done|done|]. by rewrite take_app_length.
Qed.

End VocabularyEntry.

(** When [parse_vocab_line] returns an entry, the stripped line splits
    into a term, a parenthetical that may be missing, blanks and a
    gloss, and the term is the shortest of all such splits of the line,
    which makes the split the only one.  The croatian field is the term,
    stripped.  The english field is the gloss without the regional
    marker, stripped, and without full stops and commas at its end.  The
    notes are the parenthetical and, when the gloss has the marker, the
    marker, joined by a blank.  The type is "verb" when there is a
    parenthetical or the first word of the croatian field is an
    infinitive, and empty otherwise. *)
Theorem vocab_gloss_and_notes (rt : Runtime) line e :
  parse_vocab_line line = Ok (Some e) →
  ∃ term note ws gloss,
    vocab_split (strip line) term note ws gloss
    ∧ (∀ term' note' ws' gloss',
         vocab_split (strip line) term' note' ws' gloss' →
         length term ≤ length term'
         ∧ (length term' = length term →
            term' = term ∧ note' = note ∧ ws' = ws ∧ gloss' = gloss))
    ∧ v_croatian e = strip term
    ∧ v_english e
      = rstrip_chars (u ".,") (strip (filter (λ c, c ≠ ch "®") gloss))
    ∧ v_notes e
      = join (u " ")
          (filter (λ p, nonempty p)
             [note; if bool_decide (ch "®" ∈ gloss) then u "®" else []])
    ∧ v_type e
      = (if nonempty note
            || matches true CROATIAN_INF_RE (first_token (v_croatian e))
         then u "verb" else [])
    ∧ (ch "®" ∉ v_english e)
    ∧ (∀ c, last (v_english e) = Some c → c ∉ u ".,").
Proof.
  intros (m & Hm & Hfields)%parse_vocab_line_fields. cbv zeta in Hfields.
  destruct Hfields as (Hcro & Heng & Hnotes & Htype).
  destruct (vocab_match_split _ _ Hm)
    as (term & note & ws & gloss & Hsplit & Hg1 & Hg2 & Hmin).
  pose proof Hsplit as (Hs & Hterm & Hnote & Hne & Hws & Hgloss).
  assert (strip gloss = gloss) as Hfix.
  { destruct (gloss_start_not_space gloss) as (y & g0 & -> & Hy);
      [by apply gloss_spells|].
    apply strip_fixed; [done|].
    pose proof (strip_last line) as Hl. rewrite Hs, !last_app in Hl.
    by destruct (last (y :: g0)). }
  rewrite Hg1 in Hcro, Hnotes, Htype. rewrite Hg2, Hfix in Heng, Hnotes.
  pose proof (term_note_search term note Hterm Hnote) as Hsearch.
  cbv zeta in Hsearch.
  assert (v_croatian e = strip term
          ∧ match re_search false PAREN_RE (strip (term ++ note)) with
            | Some pm => group pm 0 | None => [] end = note) as [Hcro' Hnote'].
  { destruct (re_search false PAREN_RE (strip (term ++ note))) as [pm|].
    - destruct Hsearch as (Hg & _ & Ht). by rewrite Hcro, Ht.
    - destruct Hsearch as (-> & Ht). by rewrite Hcro, Ht. }
  rewrite Hnote' in Hnotes, Htype.
  change REGIONAL_MARKER with [ch "®"] in Heng, Hnotes.
  rewrite contains_single in Heng, Hnotes. rewrite replace_single in Heng.
  assert (v_english e
          = rstrip_chars (u ".,") (strip (filter (λ c, c ≠ ch "®") gloss)))
    as Heng'.
  { rewrite Heng. destruct (bool_decide (ch "®" ∈ gloss)) eqn:Hmark; [done|].
    apply bool_decide_eq_false in Hmark. rewrite filter_id, Hfix; [done|].
    apply Forall_forall. by intros c Hc ->. }
  exists term, note, ws, gloss. split_and!; [done| |done..| |].
  - intros term' note' ws' gloss' Hsplit'. split; [by eapply Hmin|].
    intros Hlen. by eapply vocab_split_unique.
  - rewrite Heng'. intros Hin%rstrip_chars_elem%strip_elem.
    apply list_elem_of_filter in Hin as [Hne' _]. done.
  - intros c Hc. rewrite Heng' in Hc.
    pose proof (rstrip_chars_last (u ".,")
                  (strip (filter (λ x, x ≠ ch "®") gloss))) as Hl.
    by rewrite Hc in Hl.
Qed.

Section Dictionary.
Context {rt : Runtime}.

(** ** The entries of the core dictionary *)

Lemma tag_stripped w : w ∈ part_of_speech_tags → strip w = w.
Proof.
  intros Hw. vm_compute in Hw.
  repeat (apply elem_of_cons in Hw as [->|Hw]; [by vm_compute|]).
  by apply elem_of_nil in Hw.
Qed.

(** What the entry pattern reads: the word, the tag and the meaning. *)
Lemma entry_parts s m :
  re_match false entry_re s = Some m →
  ∃ ws1 ws2 tail,
    s = group m 1 ++ ws1 ++ group m 2 ++ ws2 ++ group m 3 ++ tail
    ∧ (∃ c t, group m 1 = c :: t ∧ set_has false LETTER c = true)
    ∧ group m 2 ∈ part_of_speech_tags
    ∧ group m 3 ≠ [].
Proof.
  intros (cur' & Hm & Hsub & Hst & Hen)%re_match_sound.
  destruct m as [subj st en gs]. cbn [m_subject m_start m_end m_groups] in *.
  subst subj st en. normalise_pattern entry_re Hm.
  repeat match goal with
  | H : matching _ (Cat _ _) _ _ _ _ |- _ => invert H
  | H : matching _ Bos _ _ _ _ |- _ => invert H
  | H : matching _ Eos _ _ _ _ |- _ => invert H
  end.
  match goal with
  | H1 : matching _ (Grp 1 _) _ _ ?c1 _,
    S1 : matching _ (Rep 1 None true _) ?c1 _ ?c2 _,
    H2 : matching _ (Grp 2 _) ?c2 _ ?c3 _,
    S2 : matching _ (Rep 1 None true _) ?c3 _ ?c4 _,
    H3 : matching _ (Grp 3 _) ?c4 _ _ _ |- _ =>
    invert H1; invert H2; invert H3;
    match goal with
    | G1 : matching _ _ (start_of _) [] c1 _,
      G2 : matching _ (Alt _ _) c2 _ c3 _,
      G3 : matching _ (Rep 1 None true AnyChar) c4 _ cur' _ |- _ =>
      pose proof G1 as N1; apply matching_no_groups in N1; [|reflexivity];
      pose proof S1 as N2; apply matching_no_groups in N2; [|reflexivity];
      pose proof G2 as N3; apply matching_no_groups in N3; [|reflexivity];
      pose proof S2 as N4; apply matching_no_groups in N4; [|reflexivity];
      pose proof G3 as N5; apply matching_no_groups in N5; [|reflexivity];
      subst;
      apply matching_spells in G1 as (w1 & Hr1 & Hp1 & Hs1);
      apply matching_spells in S1 as (ws1 & Hr2 & Hp2 & _);
      apply matching_spells in G2 as (w2 & Hr3 & Hp3 & Hs3);
      apply matching_spells in S2 as (ws2 & Hr4 & Hp4 & _);
      apply matching_spells in G3 as (w3 & Hr5 & Hp5 & Hs5)
    end
  end.
  cbn [start_of c_rest c_pos] in *.
  assert (s = w1 ++ ws1 ++ w2 ++ ws2 ++ w3 ++ c_rest cur') as Hs by congruence.
  set (m := RMatch _ _ _ _).
  assert (group m 1 = w1) as Hg1 by
    (unfold group; cbn [m m_groups m_subject span_of Nat.eqb];
     apply (slice_middle _ [] w1 (ws1 ++ w2 ++ ws2 ++ w3 ++ c_rest cur'));
     [by rewrite Hs at 1|done|lia]).
  assert (group m 2 = w2) as Hg2 by
    (unfold group; cbn [m m_groups m_subject span_of Nat.eqb];
     apply (slice_middle _ (w1 ++ ws1) w2 (ws2 ++ w3 ++ c_rest cur'));
     [rewrite Hs at 1; by rewrite <- app_assoc
     |rewrite length_app; lia|lia]).
  assert (group m 3 = w3) as Hg3 by
    (unfold group; cbn [m m_groups m_subject span_of Nat.eqb];
     apply (slice_middle _ (w1 ++ ws1 ++ w2 ++ ws2) w3 (c_rest cur'));
     [rewrite Hs at 1; by rewrite <- !app_assoc
     |rewrite !length_app; lia|lia]).
  exists ws1, ws2, (c_rest cur'). rewrite Hg1, Hg2, Hg3.
  split_and!; [done| | |].
  - destruct Hs1 as (w11 & w12 & -> & (c & -> & Hc) & _). by exists c, w12.
  - apply (spells_alts_words
             ["m"; "mª"; "f"; "n"; "adj."; "adv."; "impf."; "perf."; "v.p.";
              "v.t."; "pass. adj."; "rel. adj."; "conj."; "prep."; "pron.";
              "num."]%string w2); [done|exact Hs3].
  - apply spells_any_run in Hs5 as (_ & Hlen%nonempty_length & _). done.
Qed.

Lemma parse_entry_inv line d :
  parse_entry line = Some d →
  ∃ m, re_match false entry_re (strip line) = Some m
       ∧ d_croatian d = strip (group m 1)
       ∧ d_part_of_speech d = strip (group m 2)
       ∧ length (split (d_croatian d)) ≤ 4
       ∧ ∃ meaning, d_english d = rstrip_chars (u ".,;") meaning.
Proof.
  unfold parse_entry. destruct (negb (nonempty (strip line))); [done|].
  destruct (_ || _); [done|].
  destruct (matches false INDEX_LETTER_RE (strip line)); [done|].
  destruct (re_match false entry_re (strip line)) as [m|]; [|done].
  destruct (4 <? length (split (strip (group m 1)))) eqn:Hlen; [done|].
  apply Nat.ltb_ge in Hlen. intros [= <-]. exists m. simpl.
  split_and!; [done..|]. by eexists.
Qed.

End Dictionary.

(** Every entry of the core dictionary comes from one of the lines, its
    word is the beginning of that line, stripped, starts with a letter and
    has at most four words, its part of speech is one of the sixteen
    abbreviations, and its meaning does not end with a full stop, a
    comma or a semicolon. *)
Theorem core_dict_entries_fields (rt : Runtime) (lines : list pystr) :
  Forall (λ d,
            (∃ line, line ∈ lines ∧ parse_entry line = Some d
                     ∧ d_croatian d `prefix_of` strip line)
            ∧ (∃ c t, d_croatian d = c :: t ∧ is_letter c)
            ∧ length (split (d_croatian d)) ≤ 4
            ∧ d_part_of_speech d ∈ part_of_speech_tags
            ∧ (∀ c, last (d_english d) = Some c → c ∉ u ".,;"))
         (parse_core_dict_entries lines).
Proof.
  apply Forall_forall. intros d Hd. unfold parse_core_dict_entries in Hd.
  apply list_elem_of_omap in Hd as (line & Hline & Hd).
  destruct (parse_entry_inv _ _ Hd) as (m & Hm & Hcro & Hpos & Hlen & meaning & Heng).
  destruct (entry_parts _ _ Hm) as (ws1 & ws2 & tail & Hs & (c & t & Hg1 & Hc) & Htag & _).
  pose proof (letter_not_space _ Hc) as Hsp.
  destruct (strip_letter_prefix c t Hsp) as [Hpre Hhead].
  rewrite <- Hg1 in Hpre, Hhead.
  split_and!; [| |done| |].
  - exists line. split_and!; [|done|].
    + rewrite <- (take_drop (find_alphabet_end 0 lines) lines).
      apply elem_of_app. by right.
    + rewrite Hcro. etrans; [apply Hpre|]. by exists (ws1 ++ group m 2 ++ ws2 ++ group m 3 ++ tail).
  - rewrite Hcro. destruct (strip (group m 1)) as [|c' t']; [done|].
    injection Hhead as ->. exists c, t'. split; [done|]. by apply letter_ranges.
  - rewrite Hpos. by rewrite tag_stripped.
  - intros x Hx. rewrite Heng in Hx.
    pose proof (rstrip_chars_last (u ".,;") meaning) as Hl. by rewrite Hx in Hl.
Qed.

Section ContentLoop.
Context {rt : Runtime}.

(** ** The rounds of the content loop *)

Lemma content_loop_step fuel line rest st :
  content_loop (S fuel) (line :: rest) st
  = content_step line rest st ≫= λ '(rest', st'), content_loop fuel rest' st'.
Proof.
  cbn [content_loop]. unfold content_step.
  destruct (matches false EXERCISE_RE (strip line)).
  { by destruct (parse_exercise_block (line :: rest)). }
  destruct (matches false SPI_RE (strip line)).
  { by destruct (spi_loop [] rest). }
  destruct (matches false SEPARATOR_RE (strip line)); [done|].
  destruct (matches true TIP_RE (strip line)).
  { by destruct (tip_loop [strip line] rest). }
  destruct (in_regional st); [done|].
  destruct (parse_example_line line); [done|].
  destruct (parse_vocab_line line) as [[v|]|err]; done.
Qed.

Lemma exercise_loop_suffix rest : ∀ parts items parts' items' rest',
  exercise_loop parts items rest = (parts', items', rest') →
  rest' `suffix_of` rest.
Proof.
  induction rest as [|l rest IH]; intros parts items parts' items' rest'; simpl.
  - by intros [= _ _ <-].
  - destruct (is_marker (strip l)); [by intros [= _ _ <-]|].
    destruct (startswith (strip l) (u "Check answers")).
    { intros [= _ _ <-]. by apply suffix_cons_r. }
    destruct (_ && _).
    { intros H%IH. by apply suffix_cons_r. }
    destruct (_ && _); intros H%IH; by apply suffix_cons_r.
Qed.

Lemma spi_loop_suffix rest : ∀ acc acc' rest',
  spi_loop acc rest = (acc', rest') → rest' `suffix_of` rest.
Proof.
  induction rest as [|l rest IH]; intros acc acc' rest'; simpl.
  - by intros [= _ <-].
  - destruct (is_marker (strip l)); [by intros [= _ <-]|].
    intros H%IH. by apply suffix_cons_r.
Qed.

Lemma tip_loop_suffix rest : ∀ acc acc' rest',
  tip_loop acc rest = (acc', rest') → rest' `suffix_of` rest.
Proof.
  induction rest as [|l rest IH]; intros acc acc' rest'; simpl.
  - by intros [= _ <-].
  - destruct (_ || _); [by intros [= _ <-]|].
    intros H%IH. by apply suffix_cons_r.
Qed.

(** A round passes the line it is at, and maybe more. *)
Lemma content_step_suffix line rest st rest' st' :
  content_step line rest st = Ok (rest', st') → rest' `suffix_of` rest.
Proof.
  unfold content_step.
  destruct (matches false EXERCISE_RE (strip line)).
  { unfold parse_exercise_block. cbn [tail].
    destruct (exercise_loop [] [] rest) as [[parts items] r] eqn:He.
    intros [= <- _]. by eapply exercise_loop_suffix. }
  destruct (matches false SPI_RE (strip line)).
  { destruct (spi_loop [] rest) as [acc r] eqn:He.
    intros [= <- _]. by eapply spi_loop_suffix. }
  destruct (matches false SEPARATOR_RE (strip line)); [by intros [= <- _]|].
  destruct (matches true TIP_RE (strip line)).
  { destruct (tip_loop [strip line] rest) as [acc r] eqn:He.
    intros [= <- _]. by eapply tip_loop_suffix. }
  destruct (in_regional st); [by intros [= <- _]|].
  destruct (parse_example_line line); [by intros [= <- _]|].
  destruct (parse_vocab_line line) as [[v|]|err]; [| |done];
    by intros [= <- _].
Qed.

(** What every round keeps holds at the end. *)
Lemma content_loop_rule (I : list pystr → scan → Prop) :
  (∀ line rest st rest' st',
     I (line :: rest) st → content_step line rest st = Ok (rest', st') →
     I rest' st') →
  ∀ fuel lines st st',
    length lines ≤ fuel → I lines st →
    content_loop fuel lines st = Ok st' → I [] st'.
Proof.
  intros Hstep. induction fuel as [|fuel IH]; intros lines st st' Hlen HI.
  - destruct lines; [|simpl in Hlen; lia]. by intros [= <-].
  - destruct lines as [|line rest]; [by intros [= <-]|].
    rewrite content_loop_step.
    destruct (content_step line rest st) as [[rest1 st1]|err] eqn:Hs; [|done].
    cbn [mbind result_bind]. apply IH; [|by eapply Hstep].
    apply content_step_suffix, suffix_length in Hs. simpl in Hlen. lia.
Qed.

End ContentLoop.

Section Markers.
Context {rt : Runtime}.

(** ** Marker lines *)

(** A pattern that is one literal word matches a stripped line when the
    line is the word. *)
Lemma literal_line (word : string) line :
  matches false (Bos ⋅ lit word ⋅ Eos)%re (strip line) = true →
  strip line = u word.
Proof.
  unfold matches. intros [m Hm]%bool_decide_eq_true.
  apply re_match_sound in Hm as (cur' & Hm & _).
  destruct (matching_cursor _ _ _ _ _ _ _ _ Hm (cursor_at_start _))
    as (j & _ & Hend).
  repeat match goal with
  | H : matching _ (Cat _ _) _ _ _ _ |- _ => invert H
  | H : matching _ Bos _ _ _ _ |- _ => invert H
  | H : matching _ Eos _ _ _ _ |- _ => invert H
  end.
  match goal with H : at_eos cur' = true |- _ =>
    apply (at_eos_stripped _ _ _ Hend) in H; rename H into Hnil end.
  match goal with H : matching _ (lit word) _ _ _ _ |- _ =>
    apply matching_spells in H as (w & Hw & _ & ->%spells_lit) end.
  simpl in Hw. by rewrite Hw, Hnil, app_nil_r.
Qed.

Lemma exercise_line_iff l :
  matches false EXERCISE_RE (strip l) = true ↔ is_exercise_line l.
Proof.
  split; [apply literal_line|]. unfold is_exercise_line. intros ->.
  by vm_compute.
Qed.

Lemma exercise_not_marker l :
  is_marker (strip l) = false → ¬ is_exercise_line l.
Proof.
  unfold is_marker. intros H Hl%exercise_line_iff. by rewrite Hl in H.
Qed.

Lemma exercise_not_footer l : is_exercise_line l → is_footer l = false.
Proof. unfold is_exercise_line, is_footer. intros ->. by vm_compute. Qed.

Lemma exercise_not_blank l : is_exercise_line l → blank l = false.
Proof. unfold is_exercise_line, blank. by intros ->. Qed.

Lemma page_line_end p :
  is_page_line p = true → ∃ ds, strip p = ds ++ u " / 600".
Proof.
  unfold is_page_line, matches. intros [m Hm]%bool_decide_eq_true.
  apply re_match_sound in Hm as (cur' & Hm & _).
  destruct (matching_cursor _ _ _ _ _ _ _ _ Hm (cursor_at_start _))
    as (j & _ & Hend).
  unfold PAGE_LINE_RE in Hm.
  repeat match goal with
  | H : matching _ (Cat _ _) _ _ _ _ |- _ => invert H
  | H : matching _ Bos _ _ _ _ |- _ => invert H
  | H : matching _ Eos _ _ _ _ |- _ => invert H
  end.
  match goal with H : at_eos cur' = true |- _ =>
    apply (at_eos_stripped _ _ _ Hend) in H; rename H into Hnil end.
  match goal with
  | H1 : matching _ (Grp 1 _) (start_of _) _ ?c1 _,
    H2 : matching _ (lit _) ?c1 _ _ _ |- _ =>
    apply matching_spells in H1 as (ds & Hds & _);
    apply matching_spells in H2 as (w & Hw & _ & ->%spells_lit)
  end.
  simpl in Hds. exists ds. by rewrite Hds, Hw, Hnil, app_nil_r.
Qed.

Lemma exercise_not_page_line l : is_exercise_line l → is_page_line l = false.
Proof.
  unfold is_exercise_line. intros Hl.
  destruct (is_page_line l) eqn:Hp; [|done].
  apply page_line_end in Hp as (ds & Hds). rewrite Hl in Hds.
  apply (f_equal last) in Hds.
  rewrite (last_app ds (u " / 600")) in Hds. by vm_compute in Hds.
Qed.

(** The lines [strip_footers] takes out are footers, blank lines and page
    counters: a filter that passes none of these sees the same lines
    before and after. *)
Lemma strip_footers_filter (P : pystr → Prop) `{∀ l, Decision (P l)} lines :
  (∀ l, P l → is_footer l = false ∧ blank l = false ∧ is_page_line l = false) →
  filter P (strip_footers lines) = filter P lines.
Proof.
  intros HP.
  assert (∀ l, is_footer l = true → ¬ P l) as Hfooter.
  { intros l Hl (Hf & _)%HP. congruence. }
  assert (∀ p, is_page_line p = true → ¬ P p) as Hpage.
  { intros l Hl (_ & _ & Hf)%HP. congruence. }
  assert (∀ blanks, Forall (λ b, blank b = true) blanks → filter P blanks = [])
    as Hblank.
  { induction 1 as [|b blanks Hb _ IH]; [done|].
    rewrite filter_cons, decide_False; [done|].
    intros (_ & Hf & _)%HP. congruence. }
  pose proof (strip_footers_removes lines) as Hrem.
  induction Hrem as [|l rest out Hl _ IH|l blanks rest out Hl Hb _ _ IH
                     |l blanks p rest out Hl Hb Hp _ IH].
  - done.
  - by rewrite !filter_cons, IH.
  - rewrite filter_cons, decide_False by (by apply Hfooter).
    rewrite filter_app, (Hblank blanks) by done. exact IH.
  - rewrite filter_cons, decide_False by (by apply Hfooter).
    rewrite filter_app, (Hblank blanks) by done.
    rewrite filter_cons, decide_False by (by apply Hpage). exact IH.
Qed.

End Markers.

Section Exercises.
Context {rt : Runtime}.

(** ** The exercises of a section *)

(** The lines the inner loops pass over hold no line that opens an
    exercise. *)
Lemma exercise_loop_passed rest : ∀ parts items parts' items' rest',
  exercise_loop parts items rest = (parts', items', rest') →
  filter is_exercise_line rest = filter is_exercise_line rest'.
Proof.
  induction rest as [|l rest IH]; intros parts items parts' items' rest'; simpl.
  - by intros [= _ _ <-].
  - destruct (is_marker (strip l)) eqn:Hm; [by intros [= _ _ <-]|].
    apply exercise_not_marker in Hm. rewrite filter_cons, decide_False by done.
    destruct (startswith (strip l) (u "Check answers")); [by intros [= _ _ <-]|].
    destruct (_ && _); [apply IH|]. destruct (_ && _); apply IH.
Qed.

Lemma spi_loop_passed rest : ∀ acc acc' rest',
  spi_loop acc rest = (acc', rest') →
  filter is_exercise_line rest = filter is_exercise_line rest'.
Proof.
  induction rest as [|l rest IH]; intros acc acc' rest'; simpl.
  - by intros [= _ <-].
  - destruct (is_marker (strip l)) eqn:Hm; [by intros [= _ <-]|].
    apply exercise_not_marker in Hm. rewrite filter_cons, decide_False by done.
    apply IH.
Qed.

Lemma tip_loop_passed rest : ∀ acc acc' rest',
  tip_loop acc rest = (acc', rest') →
  filter is_exercise_line rest = filter is_exercise_line rest'.
Proof.
  induction rest as [|l rest IH]; intros acc acc' rest'; simpl.
  - by intros [= _ <-].
  - destruct (_ || _) eqn:Hm; [by intros [= _ <-]|].
    apply orb_false_iff in Hm as [_ Hm].
    rewrite filter_cons, decide_False; [apply IH|].
    intros Hl%exercise_line_iff. congruence.
Qed.

Lemma flush_both_exercises st : exercises (flush_both st) = exercises st.
Proof.
  unfold flush_both. by destruct (in_regional (flush_text st)).
Qed.

(** A round adds one exercise when its line opens one, and none
    otherwise. *)
Lemma content_step_exercises line rest st rest' st' :
  content_step line rest st = Ok (rest', st') →
  length (exercises st') + length (filter is_exercise_line rest')
  = length (exercises st) + length (filter is_exercise_line (line :: rest)).
Proof.
  unfold content_step. rewrite filter_cons.
  destruct (matches false EXERCISE_RE (strip line)) eqn:Hex.
  { apply exercise_line_iff in Hex. rewrite decide_True by done.
    unfold parse_exercise_block. cbn [tail].
    destruct (exercise_loop [] [] rest) as [[parts items] r] eqn:He.
    intros [= <- <-]. apply exercise_loop_passed in He as ->.
    cbn [exercises add_exercise]. rewrite length_app, flush_both_exercises.
    simpl. lia. }
  assert (¬ is_exercise_line line) as Hno.
  { intros Hl%exercise_line_iff. congruence. }
  rewrite decide_False by done.
  destruct (matches false SPI_RE (strip line)).
  { destruct (spi_loop [] rest) as [acc r] eqn:He.
    intros [= <- <-]. apply spi_loop_passed in He as ->.
    by cbn [exercises add_block]; rewrite flush_both_exercises. }
  destruct (matches false SEPARATOR_RE (strip line)).
  { intros [= <- <-]. by cbn [exercises set_regional]; rewrite flush_both_exercises. }
  destruct (matches true TIP_RE (strip line)).
  { destruct (tip_loop [strip line] rest) as [acc r] eqn:He.
    intros [= <- <-]. apply tip_loop_passed in He as ->.
    by cbn [exercises add_tip]; rewrite flush_both_exercises. }
  destruct (in_regional st); [by intros [= <- <-]|].
  destruct (parse_example_line line); [by intros [= <- <-]|].
  destruct (parse_vocab_line line) as [[v|]|err]; [| |done].
  - by intros [= <- <-].
  - intros [= <- <-]. by destruct (found true GRAMMAR_RE (strip line)).
Qed.

End Exercises.

(** A section has one exercise for each of its lines that reads
    "• Exercise", no more and no less. *)
Theorem exercises_counted (rt : Runtime) sec :
  ∃ content,
    parse_section_content sec = Ok content
    ∧ length (c_exercises content)
      = length (filter is_exercise_line (sec_lines sec)).
Proof.
  destruct (parse_section_content_total sec) as (content & Hc).
  exists content. split; [done|]. revert Hc. unfold parse_section_content.
  destruct (content_loop _ _ scan0) as [st|err] eqn:Hloop; [|done].
  cbn [mbind result_bind]. intros [= <-]. cbn [c_exercises].
  rewrite flush_both_exercises.
  rewrite <- (strip_footers_filter is_exercise_line (sec_lines sec)).
  - apply (content_loop_rule
             (λ lines st, length (exercises st)
                          + length (filter is_exercise_line lines)
                          = length (filter is_exercise_line
                                      (strip_footers (sec_lines sec)))))
      in Hloop; [simpl in Hloop; lia| |done|done].
    intros line rest st0 rest' st' HI Hstep.
    apply content_step_exercises in Hstep. lia.
  - intros l Hl. split_and!;
      [by apply exercise_not_footer|by apply exercise_not_blank
      |by apply exercise_not_page_line].
Qed.

Section ContentBlocks.
Context {rt : Runtime}.

(** ** The content blocks and notes of a section *)

Lemma clean_strip s : nonempty (strip s) = true → clean_text (strip s).
Proof. intros H. split; [by destruct (strip s)|apply strip_idem]. Qed.

Lemma add_block_clean kind s st :
  kind = u "explanation" ∨ kind = u "spi" →
  blocks_clean st → blocks_clean (add_block kind (strip s) st).
Proof.
  intros Hkind [Hb Hn]. split; [|done]. cbn [content_sections add_block].
  destruct (nonempty (strip s)) eqn:Hne; [|done].
  apply Forall_app. split; [done|]. constructor; [|done].
  split; [done|]. by apply clean_strip.
Qed.

Lemma flush_text_clean st : blocks_clean st → blocks_clean (flush_text st).
Proof.
  intros H. unfold flush_text.
  apply (add_block_clean (u "explanation") (join [10%N] (text_buffer st)))
    in H; [exact H|by left].
Qed.

Lemma flush_regional_clean st :
  blocks_clean st → blocks_clean (flush_regional st).
Proof.
  intros [Hb Hn]. split; [done|]. cbn [regional_notes flush_regional set_regional].
  destruct (nonempty (strip _)) eqn:Hne; [|done].
  apply Forall_app. split; [done|]. constructor; [|done]. by apply clean_strip.
Qed.

Lemma flush_both_clean st : blocks_clean st → blocks_clean (flush_both st).
Proof.
  intros H%flush_text_clean. unfold flush_both.
  destruct (in_regional (flush_text st)); [by apply flush_regional_clean|done].
Qed.

Lemma content_step_clean line rest st rest' st' :
  blocks_clean st → content_step line rest st = Ok (rest', st') →
  blocks_clean st'.
Proof.
  intros Hst. unfold content_step.
  pose proof (flush_both_clean _ Hst) as Hboth.
  pose proof (flush_text_clean _ Hst) as Htext.
  destruct (matches false EXERCISE_RE (strip line)).
  { destruct (parse_exercise_block (line :: rest)). by intros [= _ <-]. }
  destruct (matches false SPI_RE (strip line)).
  { destruct (spi_loop [] rest). intros [= _ <-].
    by apply add_block_clean; [right|]. }
  destruct (matches false SEPARATOR_RE (strip line)); [by intros [= _ <-]|].
  destruct (matches true TIP_RE (strip line)).
  { destruct (tip_loop [strip line] rest). by intros [= _ <-]. }
  destruct (in_regional st); [by intros [= _ <-]|].
  destruct (parse_example_line line); [by intros [= _ <-]|].
  destruct (parse_vocab_line line) as [[v|]|err]; [| |done].
  - by intros [= _ <-].
  - intros [= _ <-]. by destruct (found true GRAMMAR_RE (strip line)).
Qed.

End ContentBlocks.

(** [parse_section_content] returns on every section, and every content
    block it returns is an explanation or an aside with a text that is
    not empty and has no blank at either end; so are the regional
    notes. *)
Theorem content_blocks_clean (rt : Runtime) sec :
  ∃ content,
    parse_section_content sec = Ok content
    ∧ Forall (λ b, (b_type b = u "explanation" ∨ b_type b = u "spi")
                   ∧ clean_text (b_text b)) (c_content_sections content)
    ∧ Forall clean_text (c_regional_notes content).
Proof.
  destruct (parse_section_content_total sec) as (content & Hc).
  exists content. split; [done|]. revert Hc. unfold parse_section_content.
  destruct (content_loop _ _ scan0) as [st|err] eqn:Hloop; [|done].
  cbn [mbind result_bind]. intros [= <-].
  cbn [c_content_sections c_regional_notes].
  apply flush_both_clean.
  apply (content_loop_rule (λ _ st, blocks_clean st)) in Hloop;
    [done| |done|by split].
  intros line rest st0 rest' st'. apply content_step_clean.
Qed.

Section Provenance.
Context {rt : Runtime}.

(** ** Where the entries of a section come from *)

Lemma omap_sublist {A B} (f : A → option B) (l k : list A) :
  l `sublist_of` k → omap f l `sublist_of` omap f k.
Proof.
  induction 1 as [|x l k _ IH|x l k _ IH]; simpl; [done| |].
  - destruct (f x); [by apply sublist_skip|done].
  - destruct (f x); [by apply sublist_cons|done].
Qed.

Lemma flush_both_vocabulary st : vocabulary (flush_both st) = vocabulary st.
Proof. unfold flush_both. by destruct (in_regional (flush_text st)). Qed.

Lemma flush_both_examples st :
  example_sentences (flush_both st) = example_sentences st.
Proof. unfold flush_both. by destruct (in_regional (flush_text st)). Qed.

(** A round adds the entry or the pair of its line, or nothing. *)
Lemma content_step_entries line rest st rest' st' :
  content_step line rest st = Ok (rest', st') →
  vocabulary st' = vocabulary st ++ omap vocab_of [line]
  ∧ example_sentences st' = example_sentences st
    ∨ vocabulary st' = vocabulary st
      ∧ example_sentences st'
        = example_sentences st ++ omap parse_example_line [line]
    ∨ vocabulary st' = vocabulary st
      ∧ example_sentences st' = example_sentences st.
Proof.
  unfold content_step.
  destruct (matches false EXERCISE_RE (strip line)).
  { destruct (parse_exercise_block (line :: rest)). intros [= _ <-].
    right; right. cbn. by rewrite flush_both_vocabulary, flush_both_examples. }
  destruct (matches false SPI_RE (strip line)).
  { destruct (spi_loop [] rest). intros [= _ <-].
    right; right. cbn. by rewrite flush_both_vocabulary, flush_both_examples. }
  destruct (matches false SEPARATOR_RE (strip line)).
  { intros [= _ <-].
    right; right. cbn. by rewrite flush_both_vocabulary, flush_both_examples. }
  destruct (matches true TIP_RE (strip line)).
  { destruct (tip_loop [strip line] rest). intros [= _ <-].
    right; right. cbn. by rewrite flush_both_vocabulary, flush_both_examples. }
  destruct (in_regional st); [intros [= _ <-]; by right; right|].
  destruct (parse_example_line line) as [e|] eqn:He.
  { intros [= _ <-]. right; left. simpl. by rewrite He. }
  destruct (parse_vocab_line line) as [[v|]|err] eqn:Hv; [| |done].
  - intros [= _ <-]. left. simpl. unfold vocab_of. by rewrite Hv.
  - intros [= _ <-]. right; right.
    by destruct (found true GRAMMAR_RE (strip line)).
Qed.

End Provenance.

(** The vocabulary entries of a section are entries of its lines, in the
    order of the lines and at most one for a line; so are its example
    pairs. *)
Theorem entries_from_lines (rt : Runtime) sec :
  ∃ content,
    parse_section_content sec = Ok content
    ∧ c_vocabulary content `sublist_of` omap vocab_of (sec_lines sec)
    ∧ c_example_sentences content
      `sublist_of` omap parse_example_line (sec_lines sec).
Proof.
  destruct (parse_section_content_total sec) as (content & Hc).
  exists content. split; [done|]. revert Hc. unfold parse_section_content.
  set (all := strip_footers (sec_lines sec)).
  destruct (content_loop _ _ scan0) as [st|err] eqn:Hloop; [|done].
  cbn [mbind result_bind]. intros [= <-].
  cbn [c_vocabulary c_example_sentences].
  rewrite flush_both_vocabulary, flush_both_examples.
  apply (content_loop_rule
           (λ lines st, ∃ pre, all = pre ++ lines
              ∧ vocabulary st `sublist_of` omap vocab_of pre
              ∧ example_sentences st
                `sublist_of` omap parse_example_line pre)) in Hloop;
    [|clear Hloop st|done|by exists []].
  - destruct Hloop as (pre & Hall & Hv & He). rewrite app_nil_r in Hall.
    subst pre.
    assert (all `sublist_of` sec_lines sec) as Hsub
      by apply footers_removed_sublist, strip_footers_removes.
    split; (etrans; [done|by apply omap_sublist]).
  - intros line rest st rest' st' (pre & Hall & Hv & He) Hstep.
    destruct (content_step_suffix _ _ _ _ _ Hstep) as (k & Hk).
    exists (pre ++ line :: k). split; [by rewrite Hall, Hk, <- app_assoc|].
    rewrite !omap_app, (omap_app vocab_of [line] k),
      (omap_app parse_example_line [line] k).
    apply content_step_entries in Hstep
      as [[-> ->]|[[-> ->]|[-> ->]]]; split;
      first
        [ apply sublist_app; [done|]; by apply sublist_inserts_r
        | by apply sublist_inserts_r ].
Qed.

Section ExerciseBlocks.
Context {rt : Runtime}.

(** ** The lines of an exercise *)

Lemma exercise_loop_spec rest : ∀ parts items,
  exercise_loop parts items rest
  = (parts ++ match items with
              | [] => instruction_parts (exercise_body rest)
              | _ => []
              end,
     items ++ items_of (exercise_body rest),
     after_exercise rest).
Proof.
  unfold exercise_body, after_exercise, ends_exercise, items_of,
    instruction_parts.
  assert (∀ (parts : list pystr) (items : list ExerciseItem),
            (parts, items)
            = (parts ++ match items with [] => [] | _ => [] end, items ++ []))
    as Hstop by (intros ? []; by rewrite !app_nil_r).
  induction rest as [|l rest IH]; intros parts items; simpl.
  - f_equal. apply Hstop.
  - destruct (is_marker (strip l)) eqn:Hm; simpl.
    { rewrite Hm. f_equal. apply Hstop. }
    destruct (startswith (strip l) (u "Check answers")) eqn:Hc; simpl.
    { rewrite Hm. f_equal. apply Hstop. }
    fold (is_item l). rewrite (filter_cons (λ l0, is_item l0 = true)).
    destruct (is_item l) eqn:Hi; simpl.
    + rewrite IH, <- !app_assoc. simpl.
      destruct items; by rewrite ?app_nil_r.
    + destruct items as [|it items]; simpl.
      * rewrite filter_cons.
        destruct (nonempty (strip l)) eqn:Hn; simpl;
          rewrite IH, <- ?app_assoc; done.
      * by rewrite IH.
Qed.

End ExerciseBlocks.

(** An exercise goes from its opening line to the next marker, or to the
    line "Check answers" and with it.  Its items are the lines of it with
    a run of underscores, and its instruction is the text of the lines
    before the first item. *)
Theorem exercise_block_contents (rt : Runtime) (opening : pystr)
    (rest : list pystr) :
  parse_exercise_block (opening :: rest)
  = ({| x_instruction :=
          strip (join (u " ") (instruction_parts (exercise_body rest)));
        x_items := items_of (exercise_body rest) |},
     after_exercise rest).
Proof.
  unfold parse_exercise_block. cbn [tail]. by rewrite exercise_loop_spec.
Qed.

(** Every record of the output is the record of one section: the
    appendices and the lists are those of the sections routed to them, one
    by one in their order, every lesson is that of a section routed to
    the lessons, holding what [parse_section_content] returns of it, and
    the core dictionary is that of the last section with the id CORE, or
    empty without one. *)
Theorem output_records_from_sections (rt : Runtime) sections toc out :
  build_output sections toc = Ok out →
  Forall (λ l, ∃ sec, sec ∈ sections ∧ lesson_from sec l) (o_lessons out)
  ∧ length (o_lessons out)
    = length (filter (λ s, is_lesson s = true) sections)
  ∧ Forall2 appendix_from (filter (λ s, is_appendix s = true) sections)
            (o_appendices out)
  ∧ Forall2 list_from (filter (λ s, is_list s = true) sections) (o_lists out)
  ∧ o_core_dictionary out = last_core sections [].
Proof.
  unfold build_output.
  destruct (route_all _ sections) as [acc|e] eqn:Hacc; [|done].
  cbn [mbind result_bind].
  destruct (sort_by_key _ (lessons acc)) as [sorted|e] eqn:Hs; [|done].
  cbn [mbind result_bind]. intros [= <-].
  cbn [o_lessons o_appendices o_lists o_core_dictionary].
  apply route_all_records in Hacc
    as (ls & as_ & rs & Hl & Ha & Hrs & Fl & Fa & Fr & Hcore).
  simpl in Hl, Ha, Hrs, Hcore. rewrite Ha, Hrs, Hcore.
  apply sort_by_key_spec in Hs as (Hperm & _).
  split_and!; [| |done..].
  - rewrite Hperm, Hl. apply Forall_forall. intros l Hin.
    apply list_elem_of_lookup in Hin as (i & Hi).
    destruct (Forall2_lookup_r _ _ _ _ _ Fl Hi) as (sec & Hsec & Hfrom).
    exists sec. split; [|done].
    apply list_elem_of_lookup_2 in Hsec.
    by apply list_elem_of_filter in Hsec as [_ ?].
  - rewrite Hperm, Hl. symmetry. by eapply Forall2_length.
Qed.

Section Contents.
Context {rt : Runtime}.

(** ** The entries of the table of contents *)

Lemma drop_while_nil {A} (p : A → bool) (l : list A) :
  drop_while p l = [] → Forall (λ x, p x = true) l.
Proof.
  induction l as [|x l IH]; simpl; [done|].
  destruct (p x) eqn:Hx; [|done]. intros H. constructor; auto.
Qed.

Lemma strip_nil s : strip s = [] → Forall (λ c, isspace c = true) s.
Proof.
  unfold strip, rstrip, lstrip. intros H.
  apply (f_equal (@rev _)) in H. rewrite rev_involutive in H. simpl in H.
  apply drop_while_nil in H. apply Forall_rev in H.
  rewrite rev_involutive in H.
  pose proof (drop_while_head isspace s) as Hh.
  destruct (drop_while isspace s) as [|c t] eqn:Hd.
  - by apply drop_while_nil.
  - apply Forall_cons in H as [Hc _]. congruence.
Qed.

(** What a header pattern reads on a stripped line: the id, one blank
    and the title, which runs to the end of the line. *)
Lemma header_parts X line m :
  groups_of X = [] →
  re_match false (Bos ⋅ Grp 1 X ⋅ lit " " ⋅ Grp 2 (Plus AnyChar) ⋅ Eos)%re
           (strip line) = Some m →
  strip line = group m 1 ++ u " " ++ group m 2 ∧ clean_text (strip (group m 2)).
Proof.
  intros HX (cur' & Hm & Hsub & Hst & Hen)%re_match_sound.
  destruct (matching_cursor _ _ _ _ _ _ _ _ Hm (cursor_at_start _))
    as (j & _ & Hend).
  repeat match goal with
  | H : matching _ (Cat _ _) _ _ _ _ |- _ => invert H
  | H : matching _ Bos _ _ _ _ |- _ => invert H
  | H : matching _ Eos _ _ _ _ |- _ => invert H
  end.
  match goal with H : at_eos cur' = true |- _ =>
    apply (at_eos_stripped _ _ _ Hend) in H; rename H into Hnil end.
  match goal with
  | H1 : matching _ (Grp 1 _) _ _ ?c1 _,
    S1 : matching _ (lit " ") ?c1 _ ?c2 _,
    H2 : matching _ (Grp 2 _) ?c2 _ _ _ |- _ =>
    invert H1; invert H2;
    match goal with
    | G1 : matching _ X (start_of _) [] c1 _,
      G2 : matching _ (Plus AnyChar) c2 _ cur' _ |- _ =>
      pose proof G1 as N1; apply matching_no_groups in N1; [|done];
      pose proof S1 as N2; apply matching_no_groups in N2; [|reflexivity];
      pose proof G2 as N3; apply matching_no_groups in N3; [|reflexivity];
      subst;
      apply matching_spells in G1 as (w1 & Hr1 & Hp1 & _);
      apply matching_spells in S1 as (ws & Hr2 & Hp2 & ->%spells_lit);
      apply matching_spells in G2 as (w2 & Hr3 & Hp3 & Hs3)
    end
  end.
  cbn [start_of c_rest c_pos] in *.
  assert (strip line = w1 ++ u " " ++ w2 ++ []) as Hs by congruence.
  rewrite app_nil_r in Hs.
  match goal with Hgs : _ = m_groups m |- _ =>
    assert (group m 1 = w1) as Hg1 by
      (unfold group; rewrite <- Hgs, Hsub; cbn [m_groups span_of Nat.eqb];
       apply (slice_middle _ [] w1 (u " " ++ w2)); [by rewrite Hs|done|lia]);
    assert (group m 2 = w2) as Hg2 by
      (unfold group; rewrite <- Hgs, Hsub; cbn [m_groups span_of Nat.eqb];
       apply (slice_middle _ (w1 ++ u " ") w2 []);
       [rewrite Hs, app_nil_r; by rewrite <- app_assoc
       |rewrite length_app; lia|lia])
  end.
  rewrite Hg1, Hg2. split; [done|].
  apply spells_any_run in Hs3 as (_ & Hlen%nonempty_length & _).
  split; [|apply strip_idem]. intros Hnil'%strip_nil.
  pose proof (strip_last line) as Hl. rewrite Hs, !last_app in Hl.
  destruct (last w2) as [d|] eqn:Hd; [|by apply last_None in Hd].
  apply last_Some_elem_of in Hd.
  rewrite Forall_forall in Hnil'. apply Hnil' in Hd. congruence.
Qed.

(** The id and the title of a line of the contents. *)
Lemma toc_candidate_shape line sid title :
  toc_candidate (strip line) = Some (sid, title) →
  id_shape sid ∧ clean_text title
  ∧ (sid = u "CORE" → title = u "Core Dictionary").
Proof.
  unfold toc_candidate.
  destruct (first_some _ _) as [m|] eqn:Hfirst.
  - intros Heq.
    assert (sid = group m 1 ∧ title = strip (group m 2)) as [-> ->]
      by (by injection Heq).
    clear Heq. apply first_some_Some in Hfirst as (pat & Hin & Hm).
    repeat apply elem_of_cons in Hin as [->|Hin].
    + destruct (lesson_id_shape _ _ Hm) as (d1 & d2 & Hid & H1 & H2).
      apply header_parts in Hm as [_ Htitle]; [|done].
      split_and!; [right; left; by exists d1, d2|done|by rewrite Hid].
    + destruct (appendix_id_shape _ _ Hm) as (d & Hid & H1).
      apply header_parts in Hm as [_ Htitle]; [|done].
      split_and!; [right; right; left; by exists d|done|by rewrite Hid].
    + destruct (list_id_shape _ _ Hm) as (d & Hid & H1).
      apply header_parts in Hm as [_ Htitle]; [|done].
      split_and!; [right; right; right; by exists d|done|by rewrite Hid].
    + by apply elem_of_nil in Hin.
  - destruct (matches false CORE_DICT_RE (strip line)); [|done].
    intros [= <- <-]. split_and!; [by left|by vm_compute|done].
Qed.

Lemma toc_loop_entries (Q : pystr → TocEntry → Prop) (all : list pystr) :
  (∀ line sid title page,
     line ∈ all → toc_candidate (strip line) = Some (sid, title) →
     Q sid {| toc_title := title; toc_page := page |}) →
  ∀ toc_lines toc toc',
    toc_lines ⊆ all →
    toc_loop toc_lines toc = Ok toc' →
    (∀ sid info, toc !! sid = Some info → Q sid info) →
    ∀ sid info, toc' !! sid = Some info → Q sid info.
Proof.
  intros HQ. induction toc_lines as [|l rest IH]; intros toc toc' Hsub; simpl.
  - by intros [= <-].
  - assert (l ∈ all) as Hl by (apply Hsub; left).
    assert (rest ⊆ all) as Hrest by (intros x Hx; apply Hsub; by right).
    destruct (toc_candidate (strip l)) as [[sid title]|] eqn:Hc.
    + destruct (toc_page_of rest) as [page|e]; [|done].
      cbn [mbind result_bind]. intros Hloop Htoc.
      apply (IH _ _ Hrest Hloop). intros sid' info.
      intros [[<- <-]|[_ Hold]]%lookup_insert_Some; [by eapply HQ|by apply Htoc].
    + by apply IH.
Qed.

Lemma slice_subseteq {A} (a b : nat) (l : list A) : slice a b l ⊆ l.
Proof.
  apply sublist_subseteq. unfold slice.
  etrans; [apply sublist_take|apply sublist_drop].
Qed.

End Contents.

(** Every entry of the table of contents comes from a line of the input:
    its id is CORE, two digits, or A or L and a digit, its title is not
    empty and has no blank at either end, and the entry CORE has the
    title "Core Dictionary". *)
Theorem toc_entries_shape (rt : Runtime) (lines : list pystr) toc :
  parse_toc lines = Ok toc →
  ∀ sid info, toc !! sid = Some info →
    id_shape sid ∧ clean_text (toc_title info)
    ∧ (sid = u "CORE" → toc_title info = u "Core Dictionary")
    ∧ ∃ line, line ∈ lines
              ∧ toc_candidate (strip line) = Some (sid, toc_title info).
Proof.
  unfold parse_toc.
  destruct (list_find _ lines) as [[contents_idx l0]|]; [|by intros [= <-]].
  intros Hloop.
  eapply (toc_loop_entries
            (λ sid info, id_shape sid ∧ clean_text (toc_title info)
               ∧ (sid = u "CORE" → toc_title info = u "Core Dictionary")
               ∧ ∃ line, line ∈ lines
                   ∧ toc_candidate (strip line) = Some (sid, toc_title info))
            lines); [|apply slice_subseteq|exact Hloop|done].
  intros line sid title page Hline Hc.
  destruct (toc_candidate_shape _ _ _ Hc) as (H1 & H2 & H3).
  split_and!; [done..|]. by exists line.
Qed.

Section Pipeline.
Context {rt : Runtime}.

(** ** From the sections to the document *)

Lemma plain_decimal_digit c :
  plain_decimals → is_decimal c = true →
  is_Some (int_digit c) ∧ int_space c = false
  ∧ c ≠ ch "+" ∧ c ≠ ch "-" ∧ c ≠ ch "_".
Proof.
  intros Hplain Hc. destruct (Hplain c Hc) as [Hsp Hascii].
  unfold int_digit, int_space. unfold is_decimal in Hc.
  apply bool_decide_eq_true in Hc.
  destruct (N.ltb_spec c 127) as [Hlt|Hge].
  - specialize (Hascii Hlt). change (ch "0") with 48%N in Hascii.
    change (ch "9") with 57%N in Hascii.
    change (ch "+") with 43%N. change (ch "-") with 45%N.
    change (ch "_") with 95%N.
    assert ((48 <=? c)%N && (c <=? 57)%N = true) as ->
      by (apply andb_true_iff; split; apply N.leb_le; lia).
    split_and!; [done| |lia|lia|lia].
    apply orb_false_iff. split; [apply andb_false_iff|apply N.eqb_neq; lia].
    right. apply N.leb_gt. lia.
  - rewrite Hsp. change (ch "+") with 43%N. change (ch "-") with 45%N.
    change (ch "_") with 95%N. split_and!; [done|done|lia|lia|lia].
Qed.

(** [int] reads an id of two decimal digits. *)
Lemma py_int_two_digits d1 d2 :
  plain_decimals → is_decimal d1 = true → is_decimal d2 = true →
  ∃ k, py_int [d1; d2] = Ok k.
Proof.
  intros Hplain H1 H2.
  destruct (plain_decimal_digit d1 Hplain H1)
    as ([v1 Hv1] & Hs1 & Hp1 & Hm1 & Hu1).
  destruct (plain_decimal_digit d2 Hplain H2)
    as ([v2 Hv2] & Hs2 & Hp2 & Hm2 & Hu2).
  unfold py_int. cbn [drop_while]. rewrite Hs1.
  rewrite (proj2 (N.eqb_neq _ _) Hp1), (proj2 (N.eqb_neq _ _) Hm1).
  cbn [int_scan].
  rewrite (proj2 (N.eqb_neq _ _) Hu1), Hv1, (proj2 (N.eqb_neq _ _) Hu2), Hv2.
  cbn [drop_while nonempty]. change (640 <? 2) with false.
  rewrite andb_false_r. cbn [andb]. by eexists.
Qed.

Lemma build_output_total sections toc :
  Forall (λ s, is_lesson s = true → ∃ k, py_int (sec_id s) = Ok k) sections →
  ∃ out, build_output sections toc = Ok out.
Proof.
  intros Hall. unfold build_output.
  destruct (route_all_total sections
              {| lessons := []; appendices := []; lists := [];
                 core_dictionary := [] |}) as (acc & Hacc).
  rewrite Hacc. cbn [mbind result_bind].
  apply route_all_headings in Hacc as (Hl & _ & _). simpl in Hl.
  unfold sort_by_key.
  destruct (keys_of_total (λ x, py_int (l_id x)) (lessons acc)) as (kl & ->).
  - apply Forall_forall. intros x Hx.
    assert (lesson_heading x ∈ lesson_heading <$> lessons acc) as Hin
      by by apply list_elem_of_fmap_2.
    rewrite Hl in Hin. apply in_fmap_filter in Hin as (s & Hs & Hls & Heq).
    injection Heq as -> _ _. rewrite Forall_forall in Hall. by apply Hall.
  - cbn [mbind result_bind]. by eexists.
Qed.

Lemma toc_page_of_raises rest e : toc_page_of rest = Raise e → e = ValueError.
Proof.
  induction rest as [|l rest IH]; simpl; [done|].
  destruct (isdigit (strip l)).
  - destruct (py_int (strip l)) as [k|e'] eqn:Hk; [done|].
    cbn. intros [= <-]. by eapply py_int_raises.
  - by destruct (nonempty (strip l)).
Qed.

Lemma toc_loop_raises toc_lines : ∀ toc e,
  toc_loop toc_lines toc = Raise e → e = ValueError.
Proof.
  induction toc_lines as [|l rest IH]; intros toc e; simpl; [done|].
  destruct (toc_candidate (strip l)) as [[sid title]|]; [|apply IH].
  destruct (toc_page_of rest) as [page|e'] eqn:Hp; cbn [mbind result_bind].
  - apply IH.
  - intros [= <-]. by eapply toc_page_of_raises.
Qed.

Lemma parse_toc_raises lines e : parse_toc lines = Raise e → e = ValueError.
Proof.
  unfold parse_toc. destruct (list_find _ lines) as [[i l]|]; [|done].
  apply toc_loop_raises.
Qed.

End Pipeline.

(** With the decimal digits of Unicode, [build_output] returns a document
    on the sections [split_into_sections] returns, whatever the lines and
    the table of contents: every lesson id the splitter gives is one
    [int] reads, so that the sort of the lessons raises nothing.  Before
    them, [parse_toc] raises nothing but the ValueError of [int] on the
    line of a page number. *)
Theorem sections_output_returns (rt : Runtime) (raw_lines : list pystr) :
  plain_decimals →
  (∀ toc, ∃ out,
     build_output (split_into_sections raw_lines toc) toc = Ok out)
  ∧ (∀ e, parse_toc raw_lines = Raise e → e = ValueError).
Proof.
  intros Hplain. split; [|intros e; apply parse_toc_raises].
  intros toc. apply build_output_total.
  pose proof (split_into_sections_shape raw_lines toc) as Hshape.
  eapply Forall_impl; [exact Hshape|]. intros s Hid Hls.
  pose proof (lesson_of_shape _ Hls Hid) as Hmatch.
  unfold is_lesson in Hls.
  apply andb_true_iff in Hls as [[Hc Ha]%andb_true_iff Hl].
  apply negb_true_iff in Hc, Ha, Hl.
  destruct Hid as [Hid|[(d1 & d2 & -> & H1 & H2)|[(d & Hid & Hd)|(d & Hid & Hd)]]].
  - apply core_id_is_core in Hid. congruence.
  - by apply py_int_two_digits.
  - rewrite Hid, appendix_sid_match in Ha; done.
  - rewrite Hid, list_sid_match in Hl; done.
Qed.

Section ContentStart.
Context {rt : Runtime}.

(** ** Where the content starts *)

Lemma str_eqb_introduction line :
  str_eqb (strip line) (u "Introduction") = bool_decide (is_introduction line).
Proof. done. Qed.

Lemma find_content_start_second lines : ∀ i,
  find_content_start lines i 1
  = match list_find is_introduction lines with
    | Some (j, _) => i + j
    | None => 0
    end.
Proof.
  induction lines as [|line rest IH]; intros i; [done|].
  cbn [find_content_start list_find]. rewrite str_eqb_introduction.
  destruct (decide (is_introduction line)) as [Hl|Hl].
  - rewrite bool_decide_eq_true_2 by done. simpl. lia.
  - rewrite bool_decide_eq_false_2 by done. rewrite IH.
    destruct (list_find is_introduction rest) as [[j l]|]; simpl; lia.
Qed.

Lemma find_content_start_first lines : ∀ i,
  find_content_start lines i 0
  = match list_find is_introduction lines with
    | Some (first, _) =>
      find_content_start (drop (S first) lines) (i + S first) 1
    | None => 0
    end.
Proof.
  induction lines as [|line rest IH]; intros i; [done|].
  cbn [find_content_start list_find]. rewrite str_eqb_introduction.
  destruct (decide (is_introduction line)) as [Hl|Hl].
  - rewrite bool_decide_eq_true_2 by done. simpl. f_equal. lia.
  - rewrite bool_decide_eq_false_2 by done. rewrite IH.
    destruct (list_find is_introduction rest) as [[j l]|]; simpl; [|done].
    f_equal. lia.
Qed.

End ContentStart.

(** The content starts at the second line that reads "Introduction", and
    at the first line of the input when there are fewer than two such
    lines. *)
Theorem content_start_second_introduction (rt : Runtime)
    (raw_lines : list pystr) :
  find_content_start raw_lines 0 0
  = default 0 (second_introduction raw_lines).
Proof.
  rewrite find_content_start_first. unfold second_introduction.
  destruct (list_find is_introduction raw_lines) as [[first l]|]; [|done].
  rewrite find_content_start_second.
  by destruct (list_find is_introduction (drop (S first) raw_lines))
    as [[gap l']|].
Qed.

(** [strip_footers] takes out footers, blank lines and page counters
    only: the lines with content are all kept, in their order, and none
    is added. *)
Theorem strip_footers_keeps_content (rt : Runtime) (lines : list pystr) :
  filter is_content_line (strip_footers lines) = filter is_content_line lines
  ∧ ∀ l, l ∈ lines → is_content_line l → l ∈ strip_footers lines.
Proof.
  assert (filter is_content_line (strip_footers lines)
          = filter is_content_line lines) as Heq
    by by apply strip_footers_filter.
  split; [done|]. intros l Hin Hl.
  assert (l ∈ filter is_content_line lines) as Hf
    by by apply list_elem_of_filter.
  rewrite <- Heq in Hf. by apply list_elem_of_filter in Hf as [_ ?].
Qed.

Section Examples.
#[local] Existing Instance latin_runtime.

(** ** Examples *)

(** C7: the two examples of vocabulary lines. *)
Theorem parse_vocab_line_examples :
  parse_vocab_line (u "čitati read")
  = Ok (Some {| v_croatian := u "čitati"; v_english := u "read";
                v_notes := u ""; v_type := u "verb" |})
  ∧ parse_vocab_line (u "ležati (leži) lie down ®")
    = Ok (Some {| v_croatian := u "ležati"; v_english := u "lie down";
                  v_notes := u "(leži) ®"; v_type := u "verb" |}).
Proof. split; by vm_compute. Qed.

(** C1: the line "brat(braća) brother" gives an entry whose croatian
    field is "brat", a word with no diacritic and no infinitive ending:
    the check read "brat(braća", the first word with the parenthetical
    still attached, [rstrip("()")] removing parentheses at the end of the
    word only.  The same slip refuses "pisati(pise) write", whose
    croatian field would be the infinitive "pisati", while the line is
    accepted when a blank comes before the parenthetical. *)
Theorem vocab_attached_parenthetical :
  parse_vocab_line (u "brat(braća) brother")
  = Ok (Some {| v_croatian := u "brat"; v_english := u "brother";
                v_notes := u "(braća)"; v_type := u "verb" |})
  ∧ index0 (split (u "brat")) = Ok (u "brat")
  ∧ has_diacritic (u "brat") = false
  ∧ matches true CROATIAN_INF_RE (u "brat") = false
  ∧ looks_croatian (u "brat") = false
  ∧ rstrip_chars (u "()") (u "brat(braća") = u "brat(braća"
  ∧ looks_croatian (u "brat(braća") = true
  ∧ parse_vocab_line (u "pisati(pise) write") = Ok None
  ∧ looks_croatian (u "pisati") = true
  ∧ parse_vocab_line (u "pisati (pise) write")
    = Ok (Some {| v_croatian := u "pisati"; v_english := u "write";
                  v_notes := u "(pise)"; v_type := u "verb" |}).
Proof. split_and!; by vm_compute. Qed.

Lemma vocab_first_token_witness :
  ∃ m token,
    re_match false VOCAB_FULL_RE (strip (u "ležati (leži) lie down ®")) = Some m
    ∧ index0 (split (strip (group m 1))) = Ok token
    ∧ looks_croatian (rstrip_chars (u "()") token) = true
    ∧ ((∀ c, c ∈ token → c ∉ u "()") →
       index0 (split (u "ležati")) = Ok token ∧ looks_croatian token = true).
Proof.
  apply (vocab_first_token_looks_croatian latin_runtime
           (u "ležati (leži) lie down ®")
           {| v_croatian := u "ležati"; v_english := u "lie down";
              v_notes := u "(leži) ®"; v_type := u "verb" |}).
  by vm_compute.
Defined.

(** C2, as it is stated, fails: without an entry for CORE the line "Core
    Dictionary" is no header, and stays in the lesson before it. *)
Lemma core_header_needs_toc_entry :
  matches false CORE_DICT_RE (u "Core Dictionary") = true
  ∧ small_toc !! u "CORE" = None
  ∧ sec_id <$> split_into_sections small_book small_toc = [u "01"; u "01"]
  ∧ sec_lines <$> split_into_sections small_book small_toc
    = [[u "Dobar dan."]; [u "Core Dictionary"; u "brat m brother"]].
Proof. split_and!; by vm_compute. Qed.

(** C3, as it is stated, fails: a header met twice gives two lessons of
    one number. *)
Lemma lessons_equal_numbers :
  (λ out, l_id <$> o_lessons out)
    <$> build_output (split_into_sections small_book small_toc) small_toc
  = Ok [u "01"; u "01"]
  ∧ py_int (u "01") = Ok 1%Z
  ∧ ¬ (1 < 1)%Z.
Proof. split_and!; [by vm_compute..|lia]. Qed.

Lemma lessons_sorted_witness :
  ∃ out,
    build_output (split_into_sections small_book small_toc) small_toc = Ok out
    ∧ (∀ i x y, o_lessons out !! i = Some x → o_lessons out !! S i = Some y →
         ∃ kx ky, py_int (l_id x) = Ok kx ∧ py_int (l_id y) = Ok ky
                  ∧ (kx ≤ ky)%Z)
    ∧ (∃ encountered,
         Forall2 lesson_from
           (filter (λ s, is_lesson s = true)
              (split_into_sections small_book small_toc)) encountered
         ∧ o_lessons out ≡ₚ encountered
         ∧ ∀ k, filter (λ l, py_int (l_id l) = Ok k) (o_lessons out)
                = filter (λ l, py_int (l_id l) = Ok k) encountered)
    ∧ Forall2 appendix_from
        (filter (λ s, is_appendix s = true)
           (split_into_sections small_book small_toc)) (o_appendices out)
    ∧ Forall2 list_from
        (filter (λ s, is_list s = true)
           (split_into_sections small_book small_toc)) (o_lists out).
Proof.
  eexists. split; [by vm_compute|].
  apply (lessons_sorted_by_number latin_runtime
           (split_into_sections small_book small_toc) small_toc).
  by vm_compute.
Defined.

Lemma routing_witness :
  ∃ out,
    build_output (split_into_sections small_book small_toc) small_toc = Ok out
    ∧ Forall (λ l, matches false LESSON_SID_RE (l_id l) = true) (o_lessons out).
Proof.
  eexists. split; [by vm_compute|].
  eapply (routing_by_id_shape latin_runtime
            (split_into_sections small_book small_toc) small_toc);
    [by vm_compute|done].
Defined.

Lemma no_contents_witness :
  parse_toc small_book = Ok ∅ ∧ split_into_sections small_book ∅ = [].
Proof.
  apply (no_contents_no_sections latin_runtime small_book).
  repeat constructor; by vm_compute.
Defined.

(** C8: a first part that starts with the article "A" is accepted, and
    with "The" in its place it is not; of the words a, an, so, or, no the
    pattern wants two blanks after the word. *)
Theorem example_line_article_accepted :
  parse_example_line (u "A Croatian verb has forms. The forms are listed below.")
  = Some {| e_croatian := u "A Croatian verb has forms.";
            e_english := u "The forms are listed below." |}
  ∧ parse_example_line
      (u "The Croatian verb has forms. The forms are listed below.") = None
  ∧ matches false ENGLISH_START_RE (u "A Croatian verb has forms.") = false
  ∧ matches false ENGLISH_START_RE (u "A  Croatian verb has forms.") = true
  ∧ matches false ENGLISH_START_RE (u "The Croatian verb has forms.") = true.
Proof. split_and!; by vm_compute. Qed.

Lemma parse_example_line_example :
  parse_example_line (u "Ana čita. Ana is reading.")
  = Some {| e_croatian := u "Ana čita."; e_english := u "Ana is reading." |}.
Proof. by vm_compute. Qed.

(** A section with an id that is no number and has none of the shapes of
    an appendix or a list is routed to the lessons, where [int] raises on
    it. *)
Lemma build_output_raises_example :
  let sec := {| sec_id := u "AB"; sec_title := u "Alphabet";
                sec_page_start := None; sec_lines := [] |} in
  is_lesson sec = true
  ∧ py_int (sec_id sec) = Raise ValueError
  ∧ build_output [sec] ∅ = Raise ValueError.
Proof. split_and!; by vm_compute. Qed.

Lemma example_pair_witness :
  ∃ ws,
    strip (u "Ana čita.  Ana is reading.")
    = u "Ana čita." ++ ws ++ u "Ana is reading."
    ∧ ws ≠ [] ∧ Forall (λ c, isspace c = true) ws
    ∧ (∃ body p, u "Ana čita." = body ++ [p] ∧ body ≠ []
         ∧ Forall (λ c, c ∉ u ".!?") body ∧ p ∈ u ".!?")
    ∧ (∃ c body p ws2 mark,
         u "Ana is reading." = c :: body ++ [p] ++ ws2 ++ mark
         ∧ (ch "A" ≤ c ∧ c ≤ ch "Z" ∨ c = ch "(")%N ∧ body ≠ []
         ∧ Forall (λ c, c ∉ u ".!?") body ∧ p ∈ u ".!?"
         ∧ Forall (λ c, isspace c = true) ws2
         ∧ (mark = [] ∨ mark = u "®")).
Proof.
  apply (example_pair_decomposition latin_runtime
           (u "Ana čita.  Ana is reading.")
           {| e_croatian := u "Ana čita."; e_english := u "Ana is reading." |}).
  by vm_compute.
Defined.

Lemma vocab_croatian_witness :
  u "ležati" `prefix_of` strip (u "ležati (leži) lie down ®")
  ∧ ∃ c rest, u "ležati" = c :: rest ∧ is_letter c.
Proof.
  apply (vocab_croatian_prefix latin_runtime (u "ležati (leži) lie down ®")
           {| v_croatian := u "ležati"; v_english := u "lie down";
              v_notes := u "(leži) ®"; v_type := u "verb" |}).
  by vm_compute.
Defined.

Lemma vocab_gloss_witness :
  ∃ term note ws gloss,
    vocab_split (strip (u "ležati (leži) lie down ®")) term note ws gloss
    ∧ (∀ term' note' ws' gloss',
         vocab_split (strip (u "ležati (leži) lie down ®"))
           term' note' ws' gloss' →
         length term ≤ length term'
         ∧ (length term' = length term →
            term' = term ∧ note' = note ∧ ws' = ws ∧ gloss' = gloss))
    ∧ u "ležati" = strip term
    ∧ u "lie down"
      = rstrip_chars (u ".,") (strip (filter (λ c, c ≠ ch "®") gloss))
    ∧ u "(leži) ®"
      = join (u " ")
          (filter (λ p, nonempty p)
             [note; if bool_decide (ch "®" ∈ gloss) then u "®" else []])
    ∧ u "verb"
      = (if nonempty note
            || matches true CROATIAN_INF_RE (first_token (u "ležati"))
         then u "verb" else [])
    ∧ (ch "®" ∉ u "lie down")
    ∧ (∀ c, last (u "lie down") = Some c → c ∉ u ".,").
Proof.
  apply (vocab_gloss_and_notes latin_runtime (u "ležati (leži) lie down ®")
           {| v_croatian := u "ležati"; v_english := u "lie down";
              v_notes := u "(leži) ®"; v_type := u "verb" |}).
  by vm_compute.
Defined.

Lemma output_records_witness :
  ∃ out,
    build_output small_sections ∅ = Ok out
    ∧ Forall (λ l, ∃ sec, sec ∈ small_sections ∧ lesson_from sec l)
             (o_lessons out)
    ∧ length (o_lessons out)
      = length (filter (λ s, is_lesson s = true) small_sections)
    ∧ Forall2 appendix_from
              (filter (λ s, is_appendix s = true) small_sections)
              (o_appendices out)
    ∧ Forall2 list_from (filter (λ s, is_list s = true) small_sections)
              (o_lists out)
    ∧ o_core_dictionary out = last_core small_sections [].
Proof.
  eexists. split; [by vm_compute|].
  apply (output_records_from_sections latin_runtime small_sections ∅).
  by vm_compute.
Defined.

(** The records of the small document: the lessons by number, and the
    dictionary of the second section CORE. *)
Lemma build_output_example :
  (λ out, (l_id <$> o_lessons out, a_id <$> o_appendices out,
           d_croatian <$> o_core_dictionary out))
    <$> build_output small_sections ∅
  = Ok ([u "01"; u "02"], [u "A1"], [u "sestra"]).
Proof. by vm_compute. Qed.

Lemma toc_entries_witness :
  ∃ toc info,
    parse_toc small_text = Ok toc ∧ toc !! u "01" = Some info
    ∧ id_shape (u "01") ∧ clean_text (toc_title info)
    ∧ (u "01" = u "CORE" → toc_title info = u "Core Dictionary")
    ∧ ∃ line, line ∈ small_text
              ∧ toc_candidate (strip line) = Some (u "01", toc_title info).
Proof.
  eexists _, {| toc_title := u "Greetings"; toc_page := Some 5%Z |}.
  split; [by vm_compute|]. split; [by vm_compute|].
  eapply (toc_entries_shape latin_runtime small_text); by vm_compute.
Defined.

Lemma latin_plain_decimals : plain_decimals.
Proof.
  intros c. unfold is_decimal. cbn [uni_decimal latin_runtime].
  change (ch "0") with 48%N. change (ch "9") with 57%N.
  unfold between. intros Hc%bool_decide_eq_true.
  destruct ((48 <=? c)%N && (c <=? 57)%N) eqn:Hd; [|by destruct Hc].
  apply andb_true_iff in Hd as [H1%N.leb_le H2%N.leb_le].
  split; [|done]. unfold isspace. apply not_true_iff_false.
  rewrite !orb_true_iff, !andb_true_iff, !N.leb_le, !N.eqb_eq. lia.
Qed.

Lemma sections_output_witness :
  (∀ toc, ∃ out,
     build_output (split_into_sections small_text toc) toc = Ok out)
  ∧ (∀ e, parse_toc small_text = Raise e → e = ValueError).
Proof.
  apply (sections_output_returns latin_runtime small_text latin_plain_decimals).
Defined.

(** The small text from its lines to its document. *)
Lemma small_text_example :
  (λ out, (l_id <$> o_lessons out, a_id <$> o_appendices out,
           r_id <$> o_lists out,
           d_croatian <$> o_core_dictionary out,
           (λ l, (length (c_vocabulary (l_content l)),
                  length (c_example_sentences (l_content l)),
                  length (c_exercises (l_content l)))) <$> o_lessons out))
    <$> (parse_toc small_text ≫= λ toc,
         build_output (split_into_sections small_text toc) toc)
  = Ok ([u "01"], [u "A1"], [], [u "brat"], [(1, 1, 1)]).
Proof. by vm_compute. Qed.

End Examples.
